(** * bs-compare-app: extraction and reconciliation of bar schedules

    A shallow embedding of the logic of [src/App.jsx] in its two revisions:

    - the revision with the strict tally pattern and the global
      "Section and Layout" halving of the tally ([Module GlobalHalve]);
    - the revision with the whitespace-tolerant tally pattern and the
      per-row "Section View" doubling of the required quantity
      ([Module PerMarkDouble]).

    Conventions of the embedding.

    - A JavaScript string is the list of its UTF-16 code units, each a
      number of type [N] (the patterns carry no [u] flag, so the engine
      works on code units).
    - The quantities are JavaScript Numbers, IEEE 754 doubles, produced
      by [parseInt] on a run of decimal digits and combined by [+], [-],
      [* 2], [/ 2] and [Math.round].  They are embedded as the type
      [number] below, with the rounding of every operation and with
      the infinities and NaN.
    - The plain objects used as dictionaries ([page2Grouped],
      [ignoredRows], [inSectionRows]) are finite maps keyed by mark.  The
      keys are always marks captured by [[A-Z]{1,3}\d+], which never name
      a property inherited from [Object.prototype].
    - React state is threaded explicitly: a handler is a function from
      the component state to the next component state. *)

From Stdlib Require Import ZArith QArith Qround Lia String Ascii.
From stdpp Require Import gmap list sorting.

Local Open Scope Z_scope.

(** ** Strings *)

Abbreviation jsstring := (list N).

(** The code units of an ASCII literal. *)
Definition str (s : string) : jsstring :=
  N_of_ascii <$> list_ascii_of_string s.

Notation "'js' s" := (str s%string) (at level 9, s at level 0, only parsing).

(** ** Numbers

    Every Number this program holds comes from [parseInt] on a run of
    decimal digits, or from [+], [-], [* 2] and [Math.round(_ / 2)] on
    such Numbers: it is an integer, an infinity or NaN.  The sign of
    zero is not kept, since no operation of the program tells -0 from
    +0. *)

Inductive number :=
  | Num (z : Z)
  | Infinity
  | NegInfinity
  | NaN.

Coercion Num : Z >-> number.

#[global] Instance number_eq_dec : EqDecision number.
Proof. solve_decision. Defined.

Declare Scope number_scope.
Delimit Scope number_scope with num.
Bind Scope number_scope with number.

(** The Number value of a mathematical integer: the nearest double, a
    tie going to the even significand of 53 bits; a magnitude that
    rounds up to 2^1024 gives an infinity. *)
Definition toNumber (z : Z) : number :=
  let a := Z.abs z in
  let e := Z.log2 a - 52 in                 (* the bits below the significand *)
  let m :=
    if e <=? 0 then a
    else
      let q := a / 2 ^ e in
      let r := a mod 2 ^ e in
      let half := 2 ^ (e - 1) in
      let up := (half <? r) || ((r =? half) && Z.odd q) in
      (if up then q + 1 else q) * 2 ^ e in
  if 2 ^ 1024 <=? m
  then (if z <? 0 then NegInfinity else Infinity)
  else Num (Z.sgn z * m).

Arguments toNumber : simpl never.

Definition sign (x : number) : Z :=
  match x with
  | Num z => Z.sgn z
  | Infinity => 1
  | NegInfinity => -1
  | NaN => 0
  end.

(** [x + y] *)
Definition numAdd (x y : number) : number :=
  match x, y with
  | NaN, _ | _, NaN => NaN
  | Num a, Num b => toNumber (a + b)
  | Infinity, NegInfinity | NegInfinity, Infinity => NaN
  | Infinity, _ | _, Infinity => Infinity
  | NegInfinity, _ | _, NegInfinity => NegInfinity
  end.

(** [x - y] *)
Definition numSub (x y : number) : number :=
  match x, y with
  | NaN, _ | _, NaN => NaN
  | Num a, Num b => toNumber (a - b)
  | Infinity, Infinity | NegInfinity, NegInfinity => NaN
  | Infinity, _ | _, NegInfinity => Infinity
  | NegInfinity, _ | _, Infinity => NegInfinity
  end.

(** [x * y] *)
Definition numMul (x y : number) : number :=
  match x, y with
  | NaN, _ | _, NaN => NaN
  | Num a, Num b => toNumber (a * b)
  | _, _ =>
      if sign x * sign y =? 0 then NaN
      else if 0 <? sign x * sign y then Infinity
      else NegInfinity
  end.

Infix "+" := numAdd : number_scope.
Infix "-" := numSub : number_scope.
Infix "*" := numMul : number_scope.

(** [x === y] on Numbers: NaN is equal to nothing, itself included. *)
Definition strictEqual (x y : number) : bool :=
  match x, y with
  | Num a, Num b => a =? b
  | Infinity, Infinity | NegInfinity, NegInfinity => true
  | _, _ => false
  end.

(** A Number that need not be an integer: the value of a division. *)
Inductive fraction :=
  | Frac (q : Q)
  | FracInfinity
  | FracNegInfinity
  | FracNaN.

(** [x / 2].  Halving a double that is an integer never rounds: the
    half has the same significand, and no integer is small enough to
    underflow. *)
Definition divideBy2 (x : number) : fraction :=
  match x with
  | Num z => Frac (inject_Z z / 2)
  | Infinity => FracInfinity
  | NegInfinity => FracNegInfinity
  | NaN => FracNaN
  end.

(** ** Character classes of the patterns *)

Definition between (lo hi c : N) : bool := ((lo <=? c) && (c <=? hi))%N.

(** [\d] *)
Definition isDigit (c : N) : bool := between 48 57 c.

(** [[A-Z]] *)
Definition isUpper (c : N) : bool := between 65 90 c.

(** The characters of [\w], which decide [\b]: [[A-Za-z0-9_]]. *)
Definition isWordChar (c : N) : bool :=
  between 97 122 c || isUpper c || isDigit c || (c =? 95)%N.

(** [\s]: WhiteSpace and LineTerminator code points of ECMAScript. *)
Definition isSpace (c : N) : bool :=
  between 9 13 c || (c =? 32)%N || (c =? 160)%N || (c =? 5760)%N
  || between 8192 8202 c || (c =? 8232)%N || (c =? 8233)%N
  || (c =? 8239)%N || (c =? 8287)%N || (c =? 12288)%N || (c =? 65279)%N.

(** The literal [-]. *)
Definition isDash (c : N) : bool := (c =? 45)%N.

(** ** A backtracking matcher for the pattern syntax the source uses

    The matcher follows the continuation-passing semantics of the
    ECMAScript specification: a matcher takes the current state and a
    continuation, and backtracks into the next alternative when the
    continuation fails. *)

Inductive regex :=
  | Empty
  | Class (p : N → bool)
  | WordBoundary
  | Seq (r1 r2 : regex)
  | Repeat (p : N → bool) (min : nat) (max : option nat)
  | Group (i : nat) (r : regex)
  | Optional (r : regex).

Record MatchState := mkState {
  prev : option N;                      (* the code unit before the position *)
  rest : jsstring;                      (* the input from the position on *)
  captures : list (option jsstring);    (* match[1..3]; match[0], the whole
                                           match, is never read by the
                                           source and stays unset *)
}.

Definition Continuation := MatchState → option MatchState.

Definition wordBefore (x : MatchState) : bool :=
  from_option isWordChar false (prev x).

Definition wordAfter (x : MatchState) : bool :=
  from_option isWordChar false (head (rest x)).

(** The text consumed between two states of one run. *)
Definition consumed (x y : MatchState) : jsstring :=
  take (length (rest x) - length (rest y))%nat (rest x).

Definition setCapture (i : nat) (x y : MatchState) : MatchState :=
  mkState (prev y) (rest y) (<[i := Some (consumed x y)]> (captures y)).

(** Greedy quantifier [{min,max}] on a character class. *)
Fixpoint repeatMatcher (p : N → bool) (min : nat) (max : option nat)
    (caps : list (option jsstring)) (k : Continuation)
    (pv : option N) (inp : jsstring) {struct inp} : option MatchState :=
  let here := mkState pv inp caps in
  if bool_decide (max = Some 0%nat) then k here else
  let more :=
    match inp with
    | c :: inp' =>
        if p c
        then repeatMatcher p (Nat.pred min) (Nat.pred <$> max) caps k (Some c) inp'
        else None
    | [] => None
    end in
  match min with
  | S _ => more
  | O => match more with Some z => Some z | None => k here end
  end.

Fixpoint matcher (r : regex) (x : MatchState) (k : Continuation)
    : option MatchState :=
  match r with
  | Empty => k x
  | Class p =>
      match rest x with
      | c :: inp' => if p c then k (mkState (Some c) inp' (captures x)) else None
      | [] => None
      end
  | WordBoundary => if xorb (wordBefore x) (wordAfter x) then k x else None
  | Seq r1 r2 => matcher r1 x (λ y, matcher r2 y k)
  | Repeat p min max => repeatMatcher p min max (captures x) k (prev x) (rest x)
  | Group i r => matcher r x (λ y, k (setCapture i x y))
  | Optional r =>
      match matcher r x k with
      | Some z => Some z
      | None => k x
      end
  end.

(** [RegExp.prototype.exec] for a global pattern: the first position at
    or after [lastIndex] where the pattern matches, tried left to right,
    the end of the input included. *)
Fixpoint exec (r : regex) (pv : option N) (inp : jsstring) : option MatchState :=
  match matcher r (mkState pv inp (replicate 4 None)) Some with
  | Some y => Some y
  | None =>
      match inp with
      | c :: inp' => exec r (Some c) inp'
      | [] => None
      end
  end.

(** [while ((match = pattern.exec(text)) !== null) data.push(...)]: the
    loop resumes at the end of the previous match.  [fuel] bounds the
    number of iterations; [None] stands for a loop that has not
    finished (or a record built from a missing capture). *)
Fixpoint execLoop {A} (push : list (option jsstring) → option A) (r : regex)
    (fuel : nat) (pv : option N) (inp : jsstring) : option (list A) :=
  match fuel with
  | O => None
  | S fuel' =>
      match exec r pv inp with
      | None => Some []
      | Some y =>
          item ← push (captures y);
          data ← execLoop push r fuel' (prev y) (rest y);
          Some (item :: data)
      end
  end.

(** The input from the first code unit on that is not white space. *)
Fixpoint afterSpaces (inp : jsstring) : jsstring :=
  match inp with
  | c :: inp' => if isSpace c then afterSpaces inp' else inp
  | [] => []
  end.

(** [parseInt(s, 10)]: leading white space is skipped, a sign is read,
    then the longest run of decimal digits; without a digit the result
    is NaN, otherwise it is the Number value of the mathematical
    integer that the digits write.  (ECMAScript lets an engine replace
    the digits after the 20th by zeros; the engines convert the whole
    run.) *)
Definition digitValue (c : N) : Z := Z.of_N c - 48.

Fixpoint parseDigits (acc : Z) (s : jsstring) : Z :=
  match s with
  | c :: s' => if isDigit c then parseDigits (10 * acc + digitValue c) s' else acc
  | [] => acc
  end.

Definition parseInt (s : jsstring) : number :=
  let s := afterSpaces s in
  let (negative, s) :=
    match s with
    | c :: s' =>
        if (c =? 45)%N then (true, s')
        else if (c =? 43)%N then (false, s')
        else (false, s)
    | [] => (false, s)
    end in
  match s with
  | c :: _ =>
      if isDigit c
      then toNumber (if negative then - parseDigits 0 s else parseDigits 0 s)
      else NaN
  | [] => NaN
  end.

(** ** The patterns *)

Fixpoint Seqs (rs : list regex) : regex :=
  match rs with
  | [] => Empty
  | r :: rs' => Seq r (Seqs rs')
  end.

Definition digits : regex := Repeat isDigit 1 None.          (* \d+ *)
Definition spaces : regex := Repeat isSpace 1 None.          (* \s+ *)
Definition optSpaces : regex := Repeat isSpace 0 None.       (* \s* *)
Definition diameterToken : regex := Seq (Class isUpper) digits.            (* [A-Z]\d+ *)
Definition markToken : regex := Seq (Repeat isUpper 1 (Some 3%nat)) digits.  (* [A-Z]{1,3}\d+ *)

(** [/\b(\d+)\s+([A-Z]\d+)\s+\d+\s+\d+\s+([A-Z]{1,3}\d+)\b/g] *)
Definition page1Pattern : regex :=
  Seqs [WordBoundary; Group 1 digits; spaces; Group 2 diameterToken; spaces;
        digits; spaces; digits; spaces; Group 3 markToken; WordBoundary].

(** [/\b(\d+)([A-Z]\d+)-([A-Z]{1,3}\d+)(?:-\d+)?\b/g] *)
Definition page2PatternStrict : regex :=
  Seqs [WordBoundary; Group 1 digits; Group 2 diameterToken; Class isDash;
        Group 3 markToken; Optional (Seqs [Class isDash; digits]); WordBoundary].

(** [/\b(\d+)\s*([A-Z]\d+)\s*-\s*([A-Z]{1,3}\d+)(?:-\s*\d+)?\b/g] *)
Definition page2PatternTolerant : regex :=
  Seqs [WordBoundary; Group 1 digits; optSpaces; Group 2 diameterToken;
        optSpaces; Class isDash; optSpaces; Group 3 markToken;
        Optional (Seqs [Class isDash; optSpaces; digits]); WordBoundary].

(** ** Extracted records *)

Module Page1Item.
Record t := mk { required : number; diameter : jsstring; mark : jsstring }.
End Page1Item.

Module Page2Item.
Record t := mk { count : number; diameter : jsstring; mark : jsstring }.
End Page2Item.

Definition pushPage1 (match_ : list (option jsstring)) : option Page1Item.t :=
  match match_ with
  | [_; Some m1; Some m2; Some m3] => Some (Page1Item.mk (parseInt m1) m2 m3)
  | _ => None
  end.

Definition pushPage2 (match_ : list (option jsstring)) : option Page2Item.t :=
  match match_ with
  | [_; Some m1; Some m2; Some m3] => Some (Page2Item.mk (parseInt m1) m2 m3)
  | _ => None
  end.

(** One more iteration than the text has code units is enough for the
    loop to see [exec] return [null] (lemma [execLoop_total]). *)
Definition extractPage1Data (text : jsstring) : option (list Page1Item.t) :=
  execLoop pushPage1 page1Pattern (S (length text)) None text.

Definition extractPage2DataWith (pattern : regex) (text : jsstring)
    : option (list Page2Item.t) :=
  execLoop pushPage2 pattern (S (length text)) None text.

(** ** Grouping of the tally records

    [page2Grouped]: one entry per mark, created with the diameter of the
    record that creates it and total 0, then the count of every record
    of the mark added to the total. *)

Module Page2Group.
Record t := mk { total : number; diameter : jsstring }.
End Page2Group.

Definition groupStep (page2Grouped : gmap jsstring Page2Group.t)
    (item : Page2Item.t) : gmap jsstring Page2Group.t :=
  let key := Page2Item.mark item in
  let page2Grouped :=
    match page2Grouped !! key with
    | None => <[key := Page2Group.mk 0 (Page2Item.diameter item)]> page2Grouped
    | Some _ => page2Grouped
    end in
  alter (λ g, Page2Group.mk (Page2Group.total g + Page2Item.count item)
                            (Page2Group.diameter g)) key page2Grouped.

Definition page2Grouped (page2Data : list Page2Item.t)
    : gmap jsstring Page2Group.t :=
  foldl groupStep ∅ page2Data.

(** The tally records of one mark, in input order. *)
Definition recordsOf (m : jsstring) (page2Data : list Page2Item.t)
    : list Page2Item.t :=
  filter (λ item, Page2Item.mark item = m) page2Data.

(** A sum taken from left to right, as the loop accumulates it: every
    addition is an addition of Numbers. *)
Definition sumFrom (start : number) (counts : list number) : number :=
  foldl numAdd start counts.

(** The sum of integers, as mathematics has it. *)
Definition exactSum (counts : list Z) : Z := foldr Z.add 0 counts.

(** ** [Array.prototype.sort] with a comparison function

    The sort is stable, and for a consistent comparison function its
    result is the one sorted arrangement that keeps equal elements in
    their original order; insertion from the right computes it. *)

Section Sort.
Context {A : Type} (compareFn : A → A → Z).

Fixpoint insertSorted (a : A) (l : list A) : list A :=
  match l with
  | [] => [a]
  | b :: l' =>
      if decide (compareFn a b ≤ 0) then a :: l else b :: insertSorted a l'
  end.

Fixpoint sort (l : list A) : list A :=
  match l with
  | [] => []
  | a :: l' => insertSorted a (sort l')
  end.
End Sort.

(** [Array.prototype.join] *)
Fixpoint join (sep : jsstring) (l : list jsstring) : jsstring :=
  match l with
  | [] => []
  | [a] => a
  | a :: l' => a ++ sep ++ join sep l'
  end.

(** The separator of [join('\n')]. *)
Definition newline : jsstring := [10%N].

(** Truthiness of a dictionary lookup that holds booleans:
    [undefined] is falsy. *)
Definition truthy (v : option bool) : bool := default false v.

(** ** Ignore flags and the mismatch report (the same in both revisions) *)

(** [setIgnoredRows(prev => ({ ...prev, [mark]: !prev[mark] }))] *)
Definition toggleIgnoreRows (mark : jsstring) (prev : gmap jsstring bool)
    : gmap jsstring bool :=
  <[mark := negb (truthy (prev !! mark))]> prev.

Section Report.
Context {row : Type}.
Context (mark : row → jsstring) (diff : row → number)
  (diameterMatch : row → bool).

(** The predicate of [results.filter(...)]. *)
Definition isMismatch (ignoredRows : gmap jsstring bool) (r : row) : bool :=
  (negb (strictEqual (diff r) 0) || negb (diameterMatch r))
  && negb (truthy (ignoredRows !! mark r)).

Definition mismatchedMarks (results : list row)
    (ignoredRows : gmap jsstring bool) : list jsstring :=
  mark <$> filter (λ r, isMismatch ignoredRows r) results.

Definition mismatchedBars (results : list row)
    (ignoredRows : gmap jsstring bool) : jsstring :=
  join newline (mismatchedMarks results ignoredRows).

(** [{mismatchedBars || "None"}]: the empty string is falsy. *)
Definition mismatchReport (results : list row)
    (ignoredRows : gmap jsstring bool) : jsstring :=
  match mismatchedBars results ignoredRows with
  | [] => js "None"
  | s => s
  end.
End Report.

(** ** The revision that halves the tally ([src/App.jsx]) *)

Module GlobalHalve.

(** The strict tally pattern. *)
Definition extractPage2Data : jsstring → option (list Page2Item.t) :=
  extractPage2DataWith page2PatternStrict.

Record row := mkRow {
  mark : jsstring;
  required : number;
  requiredDiameter : jsstring;
  tally : number;
  extractedDiameter : jsstring;
  diff : number;
  diameterMatch : bool;
}.

Record state := mkApp {
  text1 : jsstring;
  text2 : jsstring;
  results : list row;
  sectionAndLayout : bool;
  ignoredRows : gmap jsstring bool;
}.

(** [Math.round]: the nearest integer, a tie going towards +∞; the
    non-finite values are returned as they are. *)
Definition Math_round (x : fraction) : number :=
  match x with
  | Frac q => Num (Qfloor (q + (1 # 2)))
  | FracInfinity => Infinity
  | FracNegInfinity => NegInfinity
  | FracNaN => NaN
  end.

(** The function mapped over [page1Data]. *)
Definition tableRow (page2Grouped : gmap jsstring Page2Group.t)
    (sectionAndLayout : bool) (item : Page1Item.t) : row :=
  let page2Entry := page2Grouped !! Page1Item.mark item in
  let tally := match page2Entry with
               | Some e => Page2Group.total e
               | None => Num 0
               end in
  let tally := if sectionAndLayout
               then Math_round (divideBy2 tally)
               else tally in
  let diff := (tally - Page1Item.required item)%num in
  let diameterMatch :=
    match page2Entry with
    | Some e => bool_decide (Page2Group.diameter e = Page1Item.diameter item)
    | None => false
    end in
  {| mark := Page1Item.mark item;
     required := Page1Item.required item;
     requiredDiameter := Page1Item.diameter item;
     tally := tally;
     extractedDiameter := match page2Entry with
                          | Some e => Page2Group.diameter e
                          | None => js "N/A"
                          end;
     diff := diff;
     diameterMatch := diameterMatch |}.

Section Host.
(** [String.prototype.localeCompare] of the host, in its default
    locale. *)
Context (localeCompare : jsstring → jsstring → Z).

Definition tableData (page1Data : list Page1Item.t)
    (page2Data : list Page2Item.t) (sectionAndLayout : bool) : list row :=
  sort (λ a b, localeCompare (mark a) (mark b))
       (tableRow (page2Grouped page2Data) sectionAndLayout <$> page1Data).

Definition handleCompare (st : state) : option state :=
  page1Data ← extractPage1Data (text1 st);
  page2Data ← extractPage2Data (text2 st);
  Some (mkApp (text1 st) (text2 st)
              (tableData page1Data page2Data (sectionAndLayout st))
              (sectionAndLayout st) (ignoredRows st)).
End Host.

Definition toggleIgnore (m : jsstring) (st : state) : state :=
  mkApp (text1 st) (text2 st) (results st) (sectionAndLayout st)
        (toggleIgnoreRows m (ignoredRows st)).

Definition report (st : state) : jsstring :=
  mismatchReport mark diff diameterMatch (results st) (ignoredRows st).

End GlobalHalve.

(** ** The revision with a per-row "Section View" *)

Module PerMarkDouble.

(** The whitespace-tolerant tally pattern. *)
Definition extractPage2Data : jsstring → option (list Page2Item.t) :=
  extractPage2DataWith page2PatternTolerant.

Record row := mkRow {
  mark : jsstring;
  required : number;
  requiredDiameter : jsstring;
  inSection : bool;
  effectiveRequired : number;
  tally : number;
  diff : number;
  diameterMatch : bool;
  extractedDiameter : jsstring;
}.

Record state := mkApp {
  text1 : jsstring;
  text2 : jsstring;
  results : list row;
  sectionAndLayout : bool;
  inSectionRows : gmap jsstring bool;
  ignoredRows : gmap jsstring bool;
}.

(** [(inSectionRows[mark] !== undefined) ? inSectionRows[mark]
     : sectionAndLayout]: the section view in effect for a mark. *)
Definition sectionView (inSectionRows : gmap jsstring bool)
    (sectionAndLayout : bool) (m : jsstring) : bool :=
  match inSectionRows !! m with
  | Some v => v
  | None => sectionAndLayout
  end.

Definition tableRow (page2Grouped : gmap jsstring Page2Group.t)
    (inSectionRows : gmap jsstring bool) (sectionAndLayout : bool)
    (item : Page1Item.t) : row :=
  let page2Entry := page2Grouped !! Page1Item.mark item in
  let tally := match page2Entry with
               | Some e => Page2Group.total e
               | None => Num 0
               end in
  let inSection := sectionView inSectionRows sectionAndLayout (Page1Item.mark item) in
  let effectiveRequired := if inSection
                           then (Page1Item.required item * 2)%num
                           else Page1Item.required item in
  {| mark := Page1Item.mark item;
     required := Page1Item.required item;
     requiredDiameter := Page1Item.diameter item;
     inSection := inSection;
     effectiveRequired := effectiveRequired;
     tally := tally;
     diff := (tally - effectiveRequired)%num;
     diameterMatch :=
       match page2Entry with
       | Some e => bool_decide (Page2Group.diameter e = Page1Item.diameter item)
       | None => false
       end;
     extractedDiameter := match page2Entry with
                          | Some e => Page2Group.diameter e
                          | None => js "N/A"
                          end |}.

(** The updater passed to [setInSectionRows] by [handleCompare]. *)
Definition seedInSection (tableData : list row) (sectionAndLayout : bool)
    (prev : gmap jsstring bool) : gmap jsstring bool :=
  foldl (λ newState item,
           match newState !! mark item with
           | None => <[mark item := sectionAndLayout]> newState
           | Some _ => newState
           end) prev tableData.

Section Host.
Context (localeCompare : jsstring → jsstring → Z).

Definition tableData (page1Data : list Page1Item.t)
    (page2Data : list Page2Item.t) (inSectionRows : gmap jsstring bool)
    (sectionAndLayout : bool) : list row :=
  sort (λ a b, localeCompare (mark a) (mark b))
       (tableRow (page2Grouped page2Data) inSectionRows sectionAndLayout
          <$> page1Data).

Definition handleCompare (st : state) : option state :=
  page1Data ← extractPage1Data (text1 st);
  page2Data ← extractPage2Data (text2 st);
  let tableData := tableData page1Data page2Data (inSectionRows st)
                             (sectionAndLayout st) in
  Some (mkApp (text1 st) (text2 st) tableData (sectionAndLayout st)
              (seedInSection tableData (sectionAndLayout st) (inSectionRows st))
              (ignoredRows st)).
End Host.

(** The row rewritten by [toggleInSection]. *)
Definition toggledRow (m : jsstring) (newVal : bool) (r : row) : row :=
  if decide (mark r = m)
  then {| mark := mark r;
          required := required r;
          requiredDiameter := requiredDiameter r;
          inSection := newVal;
          effectiveRequired := if newVal then (required r * 2)%num else required r;
          tally := tally r;
          diff := (tally r - (if newVal then required r * 2 else required r))%num;
          diameterMatch := diameterMatch r;
          extractedDiameter := extractedDiameter r |}
  else r.

Definition toggleInSection (m : jsstring) (st : state) : state :=
  let prev := inSectionRows st in
  let newVal := negb (truthy (prev !! m)) in
  let updatedResults := toggledRow m newVal <$> results st in
  mkApp (text1 st) (text2 st) updatedResults (sectionAndLayout st)
        (<[m := newVal]> prev) (ignoredRows st).

Definition toggleIgnore (m : jsstring) (st : state) : state :=
  mkApp (text1 st) (text2 st) (results st) (sectionAndLayout st)
        (inSectionRows st) (toggleIgnoreRows m (ignoredRows st)).

Definition report (st : state) : jsstring :=
  mismatchReport mark diff diameterMatch (results st) (ignoredRows st).

End PerMarkDouble.

(** ** Vocabulary of the statements about the matcher *)

(** What a successful run of a pattern has consumed and recorded: the
    relation between the state where a pattern starts and a state it
    can hand to its continuation. *)
Definition lastOr (pv : option N) (cs : jsstring) : option N :=
  match last cs with Some c => Some c | None => pv end.

Fixpoint spans (r : regex) (x y : MatchState) : Prop :=
  match r with
  | Empty => y = x
  | Class p => ∃ c, rest x = c :: rest y ∧ p c = true ∧
                    prev y = Some c ∧ captures y = captures x
  | WordBoundary => y = x ∧ xorb (wordBefore x) (wordAfter x) = true
  | Seq r1 r2 => ∃ m, spans r1 x m ∧ spans r2 m y
  | Repeat p min max =>
      ∃ cs, rest x = cs ++ rest y ∧ Forall (λ c, p c = true) cs ∧
            ((min ≤ length cs)%nat ∨ max = Some (length cs)) ∧
            (∀ n, max = Some n → (length cs ≤ n)%nat) ∧
            prev y = lastOr (prev x) cs ∧ captures y = captures x
  | Group i r => ∃ m, spans r x m ∧ y = setCapture i x m
  | Optional r => spans r x y ∨ y = x
  end.

(** A lower bound on the number of code units a pattern consumes. *)
Fixpoint minLen (r : regex) : nat :=
  match r with
  | Empty | WordBoundary | Optional _ => 0
  | Class _ => 1
  | Seq r1 r2 => minLen r1 + minLen r2
  | Repeat _ min max => match max with Some n => Nat.min min n | None => min end
  | Group _ r => minLen r
  end.

(** Capture groups: which ones a pattern may write, and which ones it
    writes on every successful run. *)
Fixpoint hasGroup (i : nat) (r : regex) : bool :=
  match r with
  | Seq r1 r2 => hasGroup i r1 || hasGroup i r2
  | Group j r => bool_decide (i = j) || hasGroup i r
  | Optional r => hasGroup i r
  | _ => false
  end.

Fixpoint setsGroup (i : nat) (r : regex) : bool :=
  match r with
  | Seq r1 r2 => setsGroup i r1 || setsGroup i r2
  | Group j r => bool_decide (i = j) || setsGroup i r
  | _ => false
  end.

Definition captured (i : nat) (x : MatchState) : Prop :=
  ∃ s, captures x !! i = Some (Some s).

(** The three groups of a pattern that sets them are defined in the
    [match] array, so the pushed record has all its fields. *)
Definition setsAll (r : regex) : bool :=
  setsGroup 1 r && setsGroup 2 r && setsGroup 3 r && negb (hasGroup 0 r).

(** ** Vocabulary of the statements about the extracted fields *)

(** An integer: digits, at least one. *)
Definition digitRun (s : jsstring) : Prop :=
  s ≠ [] ∧ Forall (λ c, isDigit c = true) s.

(** One to three upper-case letters. *)
Definition letterRun (s : jsstring) : Prop :=
  (1 ≤ length s ≤ 3)%nat ∧ Forall (λ c, isUpper c = true) s.

(** A diameter token: an upper-case letter and digits. *)
Definition diameterString (s : jsstring) : Prop :=
  ∃ d ds, s = d :: ds ∧ isUpper d = true ∧ digitRun ds.

(** A mark token: one to three upper-case letters and digits. *)
Definition markString (s : jsstring) : Prop :=
  ∃ ls ds, s = ls ++ ds ∧ letterRun ls ∧ digitRun ds.

(** The pattern inside the parentheses of group [i], when the group is
    written once on every run and nowhere else. *)
Fixpoint groupBody (i : nat) (r : regex) : option regex :=
  match r with
  | Seq r1 r2 => if hasGroup i r2 then groupBody i r2 else groupBody i r1
  | Group j r =>
      if decide (j = i)
      then (if hasGroup i r then None else Some r)
      else groupBody i r
  | _ => None
  end.

(** The three groups of a tally or required-list match. *)
Definition capturesFields (r : regex) : Prop :=
  setsAll r = true ∧ groupBody 1 r = Some digits ∧
  groupBody 2 r = Some diameterToken ∧ groupBody 3 r = Some markToken.

(** A Number that is not negative: an integer from 0 on, or Infinity. *)
Definition nonNegative (x : number) : Prop :=
  match x with
  | Num z => 0 ≤ z
  | Infinity => True
  | NegInfinity | NaN => False
  end.

(** The fields of a record as the extractors can make them. *)
Definition requiredRecord (item : Page1Item.t) : Prop :=
  nonNegative (Page1Item.required item) ∧
  diameterString (Page1Item.diameter item) ∧
  markString (Page1Item.mark item).

Definition tallyRecord (item : Page2Item.t) : Prop :=
  nonNegative (Page2Item.count item) ∧
  diameterString (Page2Item.diameter item) ∧
  markString (Page2Item.mark item).

(** ** Vocabulary of the statements about the report *)

Section ReportWords.
Context {row : Type}.
Context (mark : row → jsstring) (diff : row → number)
  (diameterMatch : row → bool).

(** A row that the report has to list, in the words of the
    specification: its difference is not zero or its diameters do not
    match, and its mark is not ignored. *)
Definition qualifies (ignoredRows : gmap jsstring bool) (r : row) : Prop :=
  (diff r ≠ 0 ∨ diameterMatch r = false)
  ∧ truthy (ignoredRows !! mark r) = false.

(** The marks to report for a sequence of rows: one entry for every
    row that qualifies, in the order of the rows. *)
Inductive reported (ignoredRows : gmap jsstring bool)
    : list row → list jsstring → Prop :=
  | reported_nil : reported ignoredRows [] []
  | reported_keep r rows marks :
      qualifies ignoredRows r → reported ignoredRows rows marks →
      reported ignoredRows (r :: rows) (mark r :: marks)
  | reported_skip r rows marks :
      ¬ qualifies ignoredRows r → reported ignoredRows rows marks →
      reported ignoredRows (r :: rows) marks.
End ReportWords.

(** The lines of a text: the pieces between its newlines. *)
Fixpoint linesOf (s : jsstring) : list jsstring :=
  match s with
  | [] => [[]]
  | c :: s' =>
      if (c =? 10)%N then [] :: linesOf s'
      else match linesOf s' with
           | line :: ls => (c :: line) :: ls
           | [] => [[c]]
           end
  end.

(** ** Vocabulary of the statements about the order of the rows *)

(** A consistent comparison function (ECMAScript, sec. Array.prototype.sort):
    its sign makes a total preorder. *)
Definition consistent {A} (compareFn : A → A → Z) : Prop :=
  (∀ a b, compareFn a b ≤ 0 ∨ compareFn b a ≤ 0) ∧
  (∀ a b c, compareFn a b ≤ 0 → compareFn b c ≤ 0 → compareFn a c ≤ 0).

(** Ordinal comparison: code unit by code unit, a proper prefix first. *)
Fixpoint ordinalCompare (a b : jsstring) : Z :=
  match a, b with
  | [], [] => 0
  | [], _ :: _ => -1
  | _ :: _, [] => 1
  | x :: a', y :: b' =>
      if (x <? y)%N then -1
      else if (y <? x)%N then 1
      else ordinalCompare a' b'
  end.

(** A collation that compares strings by the rank of their letters in
    the alphabet of the locale. *)
Definition collateBy (rank : N → N) (a b : jsstring) : Z :=
  ordinalCompare (rank <$> a) (rank <$> b).

(** The Estonian alphabet has z between s and t
    (... r s š z ž t u v w õ ä ö ü x y): Z takes a rank of its own right
    after S, the other code units keep their order. *)
Definition estonianRank (c : N) : N :=
  if (c =? 90)%N then 2 * 83 + 1 else 2 * c.

Definition estonianCompare : jsstring → jsstring → Z := collateBy estonianRank.

(** ** Vocabulary of the statements about the section view *)

(** Every row on display has its section view stored under its mark. *)
Definition seeded (st : PerMarkDouble.state) : Prop :=
  ∀ r, r ∈ PerMarkDouble.results st →
       PerMarkDouble.inSectionRows st !! PerMarkDouble.mark r
       = Some (PerMarkDouble.inSection r).

(** ** Vocabulary of the statements about the two tally patterns *)

(** Two patterns that give the same result at every position of the
    texts that satisfy [good]. *)
Definition agreeOn (good : jsstring → bool) (r r' : regex) : Prop :=
  ∀ x k, good (rest x) = true → matcher r x k = matcher r' x k.

(** A pattern that fails unless the next code unit is in the class [q]. *)
Definition demands (q : N → bool) (r : regex) : Prop :=
  ∀ x k, from_option q false (head (rest x)) = false → matcher r x k = None.

(** The texts in which the optional white space of the tolerant pattern
    finds nothing to match: no white space right after a dash, and no
    run of white space that ends in front of an upper-case letter or a
    dash. *)
Fixpoint spacesApart (inp : jsstring) : bool :=
  match inp with
  | [] => true
  | a :: inp' =>
      (if isSpace a
       then negb (from_option (λ b, isUpper b || isDash b) false
                    (head (afterSpaces inp')))
       else true)
      && (if isDash a then negb (from_option isSpace false (head inp')) else true)
      && spacesApart inp'
  end.

(** The code units of a line of the strict grammar. *)
Definition lineUnit (c : N) : Prop :=
  isSpace c = false ∧ (isDigit c = true ∨ isUpper c = true ∨ isDash c = true).

(** A line of the strict tally grammar: an integer, at once a diameter
    token, a dash, a mark token, and possibly a dash and an integer. *)
Inductive strictLine : jsstring → Prop :=
  | strictLine_plain cnt dia mk :
      digitRun cnt → diameterString dia → markString mk →
      strictLine (cnt ++ dia ++ 45%N :: mk)
  | strictLine_suffix cnt dia mk sfx :
      digitRun cnt → diameterString dia → markString mk → digitRun sfx →
      strictLine (cnt ++ dia ++ 45%N :: mk ++ 45%N :: sfx).

(** A text in the strict grammar: such lines, with white space before,
    between and after them. *)
Inductive strictText : jsstring → Prop :=
  | strictText_nil : strictText []
  | strictText_space c text :
      isSpace c = true → strictText text → strictText (c :: text)
  | strictText_last line : strictLine line → strictText line
  | strictText_line line c text :
      strictLine line → isSpace c = true → strictText text →
      strictText (line ++ c :: text).

(** ** The cells of the table

    The two styles computed for every row of the table: a cell is
    highlighted when its style has the red background. *)

Section Cells.
Context {row : Type}.
Context (mark : row → jsstring) (diff : row → number)
  (diameterMatch : row → bool).

(** [(row.diff !== 0 && !ignore) ? { backgroundColor: 'red' } : {}] *)
Definition tallyStyle (ignoredRows : gmap jsstring bool) (r : row) : bool :=
  negb (strictEqual (diff r) 0) && negb (truthy (ignoredRows !! mark r)).

(** [(!row.diameterMatch && !ignore) ? { backgroundColor: 'red' } : {}] *)
Definition extractedDiameterStyle (ignoredRows : gmap jsstring bool) (r : row)
    : bool :=
  negb (diameterMatch r) && negb (truthy (ignoredRows !! mark r)).
End Cells.

(** ** Vocabulary of the further statements about the groups *)

(** The integer that a finite Number holds. *)
Definition integerOf (x : number) : Z :=
  match x with
  | Num z => z
  | Infinity | NegInfinity | NaN => 0
  end.

(** The sum of the totals of all groups, as mathematics has it. *)
Definition grandTotal (grouped : gmap jsstring Page2Group.t) : Z :=
  map_fold (λ _ g acc, integerOf (Page2Group.total g) + acc) 0 grouped.

(** The counts of tally records, as integers. *)
Definition countsOf (page2Data : list Page2Item.t) : list Z :=
  (λ item, integerOf (Page2Item.count item)) <$> page2Data.

(** Tally records in the range where the additions of the grouping
    are exact: every count is an integer that is not negative, and
    all the counts together add up to 2^53 at most. *)
Definition exactCounts (page2Data : list Page2Item.t) : Prop :=
  Forall (λ item, ∃ c, Page2Item.count item = Num c ∧ 0 ≤ c) page2Data
  ∧ exactSum (countsOf page2Data) ≤ 2 ^ 53.

(** Required records in the range where doubling and the differences
    are exact: every quantity is an integer from 0 to 2^52. *)
Definition exactRequired (page1Data : list Page1Item.t) : Prop :=
  Forall (λ item, ∃ q, Page1Item.required item = Num q ∧ 0 ≤ q ≤ 2 ^ 52)
    page1Data.

(** ** The controls of the revision with a per-row "Section View" *)

(** [onChange={(e) => setSectionAndLayout(e.target.checked)}] *)
Definition setSectionAndLayout (checked : bool) (st : PerMarkDouble.state)
    : PerMarkDouble.state :=
  PerMarkDouble.mkApp (PerMarkDouble.text1 st) (PerMarkDouble.text2 st)
    (PerMarkDouble.results st) checked (PerMarkDouble.inSectionRows st)
    (PerMarkDouble.ignoredRows st).

(** What the user can do to the table between two comparisons. *)
Inductive action :=
  | ToggleInSection (m : jsstring)
  | ToggleIgnore (m : jsstring)
  | SetSectionAndLayout (checked : bool).

Definition act (a : action) (st : PerMarkDouble.state) : PerMarkDouble.state :=
  match a with
  | ToggleInSection m => PerMarkDouble.toggleInSection m st
  | ToggleIgnore m => PerMarkDouble.toggleIgnore m st
  | SetSectionAndLayout checked => setSectionAndLayout checked st
  end.

Definition acts (l : list action) (st : PerMarkDouble.state) : PerMarkDouble.state :=
  foldl (λ st a, act a st) st l.

(** A state that shows what a comparison of its texts would show. *)
Definition upToDate (localeCompare : jsstring → jsstring → Z)
    (st : PerMarkDouble.state) : Prop :=
  PerMarkDouble.handleCompare localeCompare st = Some st.

(** ** Schedules written out as text *)

(** A run of white space, and one that is not empty. *)
Definition blank (s : jsstring) : Prop := Forall (λ c, isSpace c = true) s.
Definition gap (s : jsstring) : Prop := s ≠ [] ∧ blank s.

(** The integer that a run of decimal digits writes, and the Number
    it stands for: the double nearest to that integer. *)
Definition decimal (s : jsstring) : Z :=
  foldl (λ n c, 10 * n + (Z.of_N c - 48)) 0 s.

Definition written (s : jsstring) : number := toNumber (decimal s).

(** A line of the tally list: the digits of the count, the diameter,
    the mark, and the digits of the suffix when there is one. *)
Record tallyLine := mkTallyLine {
  lineCount : jsstring;
  lineDiameter : jsstring;
  lineMark : jsstring;
  lineSuffix : option jsstring;
}.

Definition tallyLineOk (l : tallyLine) : Prop :=
  digitRun (lineCount l) ∧ diameterString (lineDiameter l) ∧
  markString (lineMark l) ∧ from_option digitRun True (lineSuffix l).

Definition tallyLineText (l : tallyLine) : jsstring :=
  lineCount l ++ lineDiameter l ++ 45%N :: lineMark l
  ++ from_option (λ s, 45%N :: s) [] (lineSuffix l).

Definition tallyLineRecord (l : tallyLine) : Page2Item.t :=
  Page2Item.mk (written (lineCount l)) (lineDiameter l) (lineMark l).

(** A line of the required list: the digits of the quantity, the
    diameter, the digits of the two integers that are not kept, the
    mark, and the white space between them. *)
Record requiredLine := mkRequiredLine {
  reqQuantity : jsstring;
  reqGap1 : jsstring;
  reqDiameter : jsstring;
  reqGap2 : jsstring;
  reqLength : jsstring;
  reqGap3 : jsstring;
  reqRepeat : jsstring;
  reqGap4 : jsstring;
  reqMark : jsstring;
}.

Definition requiredLineOk (l : requiredLine) : Prop :=
  digitRun (reqQuantity l) ∧ gap (reqGap1 l) ∧
  diameterString (reqDiameter l) ∧ gap (reqGap2 l) ∧
  digitRun (reqLength l) ∧ gap (reqGap3 l) ∧
  digitRun (reqRepeat l) ∧ gap (reqGap4 l) ∧ markString (reqMark l).

Definition requiredLineText (l : requiredLine) : jsstring :=
  reqQuantity l ++ reqGap1 l ++ reqDiameter l ++ reqGap2 l ++ reqLength l
  ++ reqGap3 l ++ reqRepeat l ++ reqGap4 l ++ reqMark l.

Definition requiredLineRecord (l : requiredLine) : Page1Item.t :=
  Page1Item.mk (written (reqQuantity l)) (reqDiameter l) (reqMark l).

(** Lines, each followed by its separator. *)
Definition linesText {L} (text : L → jsstring) (lines : list (L * jsstring))
    : jsstring :=
  concat ((λ ls, text ls.1 ++ ls.2) <$> lines).

(** The separators are white space, and only the last may be empty. *)
Fixpoint separated {L} (lines : list (L * jsstring)) : Prop :=
  match lines with
  | [] => True
  | [ls] => blank ls.2
  | ls :: lines' => gap ls.2 ∧ separated lines'
  end.

(** A pattern that starts [\b\d]: it can only match in front of a
    digit. *)
Definition startsAtDigit (r : regex) : Prop :=
  ∃ r', r = Seq WordBoundary r' ∧ demands isDigit r'.

(** ** Reading a document *)

(** What [handleUpload] is given: no file, a file that pdf.js fails to
    load or to read, or a document, as the strings of the text items
    of each of its pages. *)
Inductive upload :=
| NoFile
| Unreadable
| Document (pages : list (list jsstring)).

(** One turn of the loop over the pages: [textItems.join(' ') + '\n']. *)
Definition pageText (textItems : list jsstring) : jsstring :=
  join [32%N] textItems ++ newline.

Definition fullText (pages : list (list jsstring)) : jsstring :=
  foldl (λ fullText textItems, fullText ++ pageText textItems) [] pages.

(** [handleUpload(file, setText)], as the text after the call; a
    failure at any page leaves the empty text. *)
Definition handleUpload (file : upload) (text : jsstring) : jsstring :=
  match file with
  | NoFile => text
  | Unreadable => []
  | Document pages => fullText pages
  end.

(** The items of a page as lines of text: a space after each but the
    last, [after] after the last. *)
Fixpoint pageLines {L} (items : list L) (after : jsstring) : list (L * jsstring) :=
  match items with
  | [] => []
  | [l] => [(l, after)]
  | l :: items' => (l, [32%N]) :: pageLines items' after
  end.

(** A row of the table of a required list, as the strings of its five
    cells, each a text item of its own. *)
Record requiredRow := mkRequiredRow {
  rowQuantity : jsstring;
  rowDiameter : jsstring;
  rowLength : jsstring;
  rowRepeat : jsstring;
  rowMark : jsstring;
}.

Definition requiredRowOk (r : requiredRow) : Prop :=
  digitRun (rowQuantity r) ∧ diameterString (rowDiameter r) ∧
  digitRun (rowLength r) ∧ digitRun (rowRepeat r) ∧ markString (rowMark r).

Definition rowCells (r : requiredRow) : list jsstring :=
  [rowQuantity r; rowDiameter r; rowLength r; rowRepeat r; rowMark r].

(** The line that the cells of a row make once joined with spaces. *)
Definition rowLine (r : requiredRow) : requiredLine :=
  mkRequiredLine (rowQuantity r) [32%N] (rowDiameter r) [32%N] (rowLength r)
                 [32%N] (rowRepeat r) [32%N] (rowMark r).

Definition rowRecord (r : requiredRow) : Page1Item.t :=
  Page1Item.mk (written (rowQuantity r)) (rowDiameter r) (rowMark r).

(** ** The two revisions side by side *)

(** A row of the halving revision and a row of the doubling revision
    that show the same required record against the same group, under
    the section view [sectionAndLayout]. *)
Definition sideBySide (sectionAndLayout : bool) (gr : GlobalHalve.row)
    (pr : PerMarkDouble.row) : Prop :=
  GlobalHalve.mark gr = PerMarkDouble.mark pr
  ∧ GlobalHalve.required gr = PerMarkDouble.required pr
  ∧ GlobalHalve.requiredDiameter gr = PerMarkDouble.requiredDiameter pr
  ∧ GlobalHalve.extractedDiameter gr = PerMarkDouble.extractedDiameter pr
  ∧ GlobalHalve.diameterMatch gr = PerMarkDouble.diameterMatch pr
  ∧ PerMarkDouble.inSection pr = sectionAndLayout
  ∧ if sectionAndLayout
    then GlobalHalve.tally gr
         = GlobalHalve.Math_round (divideBy2 (PerMarkDouble.tally pr))
         ∧ GlobalHalve.diff gr
           = GlobalHalve.Math_round (divideBy2 (PerMarkDouble.diff pr))
    else GlobalHalve.tally gr = PerMarkDouble.tally pr
         ∧ GlobalHalve.diff gr = PerMarkDouble.diff pr.

(** * Properties *)

(** ** Numbers *)

(** The integers up to 2^53 in magnitude are doubles. *)
Lemma toNumber_exact z : - 2 ^ 53 ≤ z ≤ 2 ^ 53 → toNumber z = Num z.
Proof.
  intros Hz.
  assert (Z.log2 (Z.abs z) ≤ 52 ∨ z = 2 ^ 53 ∨ z = - 2 ^ 53) as [Hlog|[->| ->]].
  { destruct (decide (Z.abs z < 2 ^ 53)) as [Hlt|Hge]; [left|right; lia].
    destruct (decide (Z.abs z = 0)) as [->|Hne]; [done|].
    assert (Z.log2 (Z.abs z) < 53); [|lia].
    apply Z.log2_lt_pow2; lia. }
  - unfold toNumber.
    destruct (Z.leb_spec (Z.log2 (Z.abs z) - 52) 0) as [_|He]; [|lia].
    assert (2 ^ 53 < 2 ^ 1024) as Hbig by (apply Z.pow_lt_mono_r; lia).
    destruct (Z.leb_spec (2 ^ 1024) (Z.abs z)) as [Hover|_]; [lia|].
    f_equal. by destruct z.
  - by vm_compute.
  - by vm_compute.
Qed.

(** The Number value of an integer that is not negative is not
    negative. *)
Lemma toNumber_nonNegative z : 0 ≤ z → nonNegative (toNumber z).
Proof.
  intros Hz. unfold toNumber.
  set (a := Z.abs z). set (e := Z.log2 a - 52).
  set (m := if e <=? 0 then a else _).
  assert (0 ≤ m) as Hm.
  { subst m. destruct (Z.leb_spec e 0) as [_|He]; [lia|].
    assert (0 < 2 ^ e) by (apply Z.pow_pos_nonneg; lia).
    assert (0 ≤ a / 2 ^ e) by (apply Z.div_pos; lia).
    destruct (_ || _); nia. }
  destruct (2 ^ 1024 <=? m).
  - destruct (Z.ltb_spec z 0); [lia|done].
  - simpl. apply Z.mul_nonneg_nonneg; lia.
Qed.

Lemma numAdd_exact (a b : Z) :
  - 2 ^ 53 ≤ a + b ≤ 2 ^ 53 → (Num a + Num b)%num = Num (a + b).
Proof. apply toNumber_exact. Qed.

Lemma numSub_exact (a b : Z) :
  - 2 ^ 53 ≤ a - b ≤ 2 ^ 53 → (Num a - Num b)%num = Num (a - b).
Proof. apply toNumber_exact. Qed.

Lemma numMul_exact (a b : Z) :
  - 2 ^ 53 ≤ a * b ≤ 2 ^ 53 → (Num a * Num b)%num = Num (a * b).
Proof. apply toNumber_exact. Qed.

Lemma strictEqual_zero x : strictEqual x 0 = true ↔ x = Num 0.
Proof.
  destruct x as [z| | |]; simpl; [|done..].
  rewrite Z.eqb_eq. split; [by intros ->|by intros [= ->]].
Qed.

(** A running sum that stays within 2^53 is the exact sum. *)
Lemma sumFrom_exact counts : ∀ start,
  0 ≤ start → Forall (λ c, 0 ≤ c) counts →
  start + exactSum counts ≤ 2 ^ 53 →
  sumFrom (Num start) (Num <$> counts) = Num (start + exactSum counts).
Proof.
  induction counts as [|c counts IH]; intros start Hstart Hcounts Hsum.
  - simpl. f_equal. lia.
  - apply Forall_cons in Hcounts as [Hc Hcounts].
    assert (0 ≤ exactSum counts) as Hrest.
    { clear -Hcounts. induction Hcounts; simpl; lia. }
    simpl in Hsum. unfold sumFrom. rewrite fmap_cons. cbn [foldl].
    rewrite numAdd_exact by lia.
    fold (sumFrom (Num (start + c)) (Num <$> counts)).
    rewrite IH; [|lia|done|lia]. f_equal. simpl. lia.
Qed.

(** [parseInt] on strings of several kinds, and the Numbers beyond the
    exact range. *)
Example parseInt_scenarios :
  parseInt (js "60") = Num 60
  ∧ parseInt (js " -7x") = Num (-7)
  ∧ parseInt (js "") = NaN
  ∧ parseInt (js "Y12") = NaN
  ∧ parseInt (js "9007199254740993") = Num 9007199254740992
  ∧ parseInt (replicate 400 57%N) = Infinity
  ∧ (Num (2 ^ 53) + 1)%num = Num (2 ^ 53)
  ∧ (Infinity - Infinity)%num = NaN
  ∧ strictEqual NaN NaN = false.
Proof. split_and!; by vm_compute. Qed.

(** ** The scenarios of the extraction *)

Example scenario_A :
  extractPage1Data (js "60 Y12 3550 60 CL1")
  = Some [Page1Item.mk 60 (js "Y12") (js "CL1")].
Proof. vm_compute. reflexivity. Qed.

Example scenario_B_strict :
  extractPage2DataWith page2PatternStrict (js "16Y12-A1-200")
  = Some [Page2Item.mk 16 (js "Y12") (js "A1")].
Proof. vm_compute. reflexivity. Qed.

Example scenario_B_tolerant :
  extractPage2DataWith page2PatternTolerant (js "15 R10 - CL1 - 600")
  = Some [Page2Item.mk 15 (js "R10") (js "CL1")].
Proof. vm_compute. reflexivity. Qed.

Example strict_rejects_spaced :
  extractPage2DataWith page2PatternStrict (js "15 R10 - CL1 - 600") = Some [].
Proof. vm_compute. reflexivity. Qed.

(** ** Properties of the matcher *)

(** A matcher only resumes its continuation at a later position of the
    same input, so two continuations that agree there give the same
    result. *)
Lemma repeatMatcher_ext p caps (k1 k2 : Continuation) inp :
  ∀ min max pv,
    (∀ y, rest y `suffix_of` inp → k1 y = k2 y) →
    repeatMatcher p min max caps k1 pv inp = repeatMatcher p min max caps k2 pv inp.
Proof.
  induction inp as [|c inp IH]; intros min max pv Hk; simpl.
  - rewrite (Hk (mkState pv [] caps)) by done. done.
  - rewrite (Hk (mkState pv (c :: inp) caps)) by done.
    rewrite (IH (Nat.pred min) (Nat.pred <$> max) (Some c)); [done|].
    intros y Hy. apply Hk. by apply suffix_cons_r.
Qed.

Lemma matcher_ext r : ∀ x (k1 k2 : Continuation),
  (∀ y, rest y `suffix_of` rest x → k1 y = k2 y) →
  matcher r x k1 = matcher r x k2.
Proof.
  induction r as [|p| |r1 IH1 r2 IH2|p min max|i r IH|r IH];
    intros x k1 k2 Hk; simpl.
  - by apply Hk.
  - destruct (rest x) as [|c inp] eqn:E; [done|].
    destruct (p c); [|done]. apply Hk. simpl. by apply suffix_cons_r.
  - rewrite (Hk x) by done. done.
  - apply IH1. intros y Hy. apply IH2. intros z Hz. apply Hk. by etrans.
  - by apply repeatMatcher_ext.
  - apply IH. intros y Hy. by apply Hk.
  - rewrite (IH x k1 k2 Hk), (Hk x) by done. done.
Qed.

Lemma repeatMatcher_sound p caps k inp : ∀ min max pv z,
  repeatMatcher p min max caps k pv inp = Some z →
  ∃ y, spans (Repeat p min max) (mkState pv inp caps) y ∧ k y = Some z.
Proof.
  induction inp as [|c inp IH]; intros min max pv z; simpl.
  - intros H. exists (mkState pv [] caps).
    assert (k (mkState pv [] caps) = Some z ∧ (min = 0%nat ∨ max = Some 0%nat))
      as [Hk Hb].
    { case_bool_decide; [by auto|]. destruct min; [by auto|done]. }
    split; [|done]. exists []. simpl. repeat split; auto; try lia.
    destruct Hb; [left; lia | auto].
  - case_bool_decide as Hmax.
    { intros Hk. exists (mkState pv (c :: inp) caps). split; [|done].
      exists []. simpl. repeat split; auto; lia. }
    assert (∀ z', (if p c
              then repeatMatcher p (Nat.pred min) (Nat.pred <$> max) caps k (Some c) inp
              else None) = Some z' →
            ∃ y, spans (Repeat p min max) (mkState pv (c :: inp) caps) y ∧ k y = Some z')
      as Hmore.
    { intros z' H. destruct (p c) eqn:Hp; [|done].
      apply IH in H as (y & (cs & E & Hcs & Hmin & Hbound & Hprev & Hcaps) & Hk).
      exists y. split; [|done]. exists (c :: cs). simpl in *.
      repeat split; auto.
      - by rewrite E.
      - destruct Hmin as [Hmin|Hmin]; [left; lia|right].
        destruct max as [[|n]|]; simplify_eq/=. done.
      - intros n ->. destruct n as [|n]; [done|].
        specialize (Hbound n eq_refl). lia.
      - rewrite Hprev. unfold lastOr. rewrite last_cons.
        by destruct (last cs). }
    destruct min as [|min]; [|by apply Hmore].
    destruct (if p c then _ else _) as [z'|] eqn:E.
    + intros [= ->]. by apply Hmore.
    + intros Hk. exists (mkState pv (c :: inp) caps). split; [|done].
      exists []. simpl. repeat split; auto; try lia.
Qed.

Lemma matcher_sound r : ∀ x k z,
  matcher r x k = Some z → ∃ y, spans r x y ∧ k y = Some z.
Proof.
  induction r as [|p| |r1 IH1 r2 IH2|p min max|i r IH|r IH];
    intros x k z; simpl.
  - eauto.
  - destruct x as [pv inp caps]; simpl. destruct inp as [|c inp]; [done|].
    destruct (p c) eqn:Hp; [|done]. intros Hk. eexists. split; [|exact Hk].
    exists c. by simpl.
  - destruct (xorb _ _) eqn:E; [|done]. eauto.
  - intros H. apply IH1 in H as (m & Hm & H). apply IH2 in H as (y & Hy & H).
    eauto.
  - intros H. destruct x as [pv inp caps].
    by apply repeatMatcher_sound in H.
  - intros H. apply IH in H as (m & Hm & H). eauto.
  - destruct (matcher r x k) as [z'|] eqn:E.
    + intros [= ->]. apply IH in E as (y & Hy & H). eauto.
    + eauto.
Qed.

(** A run never moves backwards. *)
Lemma spans_suffix r : ∀ x y, spans r x y → rest y `suffix_of` rest x.
Proof.
  induction r as [|p| |r1 IH1 r2 IH2|p min max|i r IH|r IH]; intros x y; simpl.
  - by intros ->.
  - intros (c & -> & _). by apply suffix_cons_r.
  - by intros [-> _].
  - intros (m & H1 & H2). transitivity (rest m); eauto.
  - intros (cs & -> & _). by apply suffix_app_r.
  - intros (m & H & ->). simpl. eauto.
  - intros [H| ->]; eauto.
Qed.

Lemma spans_consumed r x y : spans r x y → rest x = consumed x y ++ rest y.
Proof.
  intros [cs E]%spans_suffix. unfold consumed. rewrite E, length_app.
  replace (length cs + length (rest y) - length (rest y))%nat with (length cs) by lia.
  by rewrite take_app_length.
Qed.

Lemma consumed_app x y cs : rest x = cs ++ rest y → consumed x y = cs.
Proof.
  intros E. unfold consumed. rewrite E, length_app.
  replace (length cs + length (rest y) - length (rest y))%nat with (length cs) by lia.
  by rewrite take_app_length.
Qed.

Lemma spans_minLen r : ∀ x y,
  spans r x y → (minLen r + length (rest y) ≤ length (rest x))%nat.
Proof.
  induction r as [|p| |r1 IH1 r2 IH2|p min max|i r IH|r IH]; intros x y; simpl.
  - by intros ->.
  - intros (c & -> & _). simpl. lia.
  - by intros [-> _].
  - intros (m & H1%IH1 & H2%IH2). lia.
  - intros (cs & -> & _ & Hmin & Hmax & _). rewrite length_app.
    destruct max as [n|]; destruct Hmin as [?|Hm]; simplify_eq; lia.
  - intros (m & H%IH & ->). simpl. lia.
  - intros [H%spans_suffix%suffix_length| ->]; lia.
Qed.

Lemma spans_captures_length r : ∀ x y,
  spans r x y → length (captures y) = length (captures x).
Proof.
  induction r as [|p| |r1 IH1 r2 IH2|p min max|i r IH|r IH]; intros x y; simpl.
  - by intros ->.
  - by intros (c & _ & _ & _ & ->).
  - by intros [-> _].
  - intros (m & H1%IH1 & H2%IH2). congruence.
  - by intros (cs & _ & _ & _ & _ & _ & ->).
  - intros (m & H%IH & ->). simpl. by rewrite length_insert.
  - intros [H%IH| ->]; done.
Qed.

Lemma spans_captures_other i r : ∀ x y,
  spans r x y → hasGroup i r = false → captures y !! i = captures x !! i.
Proof.
  induction r as [|p| |r1 IH1 r2 IH2|p min max|j r IH|r IH]; intros x y; simpl.
  - by intros ->.
  - by intros (c & _ & _ & _ & ->).
  - by intros [-> _].
  - intros (m & H1 & H2) [G1 G2]%orb_false_elim.
    rewrite (IH2 _ _ H2 G2). by apply IH1.
  - by intros (cs & _ & _ & _ & _ & _ & ->).
  - intros (m & H & ->) [G1 G2]%orb_false_elim. simpl.
    apply bool_decide_eq_false in G1.
    rewrite list_lookup_insert_ne by done. by apply IH.
  - intros [H| ->] G; [by apply IH|done].
Qed.

Lemma spans_captured_mono i r : ∀ x y,
  spans r x y → captured i x → captured i y.
Proof.
  induction r as [|p| |r1 IH1 r2 IH2|p min max|j r IH|r IH]; intros x y; simpl.
  - by intros ->.
  - intros (c & _ & _ & _ & E). unfold captured. by rewrite E.
  - by intros [-> _].
  - intros (m & H1 & H2) Hx. eauto.
  - intros (cs & _ & _ & _ & _ & _ & E). unfold captured. by rewrite E.
  - intros (m & H & ->) Hx. destruct (IH _ _ H Hx) as [s Hs].
    unfold captured. simpl. destruct (decide (j = i)) as [->|Hne].
    + eexists. apply list_lookup_insert_eq. by eapply lookup_lt_Some.
    + exists s. by rewrite list_lookup_insert_ne.
  - intros [H| ->] Hx; eauto.
Qed.

Lemma spans_captured_set i r : ∀ x y,
  spans r x y → setsGroup i r = true → (i < length (captures x))%nat →
  captured i y.
Proof.
  induction r as [|p| |r1 IH1 r2 IH2|p min max|j r IH|r IH];
    intros x y; simpl; try done.
  - intros (m & H1 & H2) [G|G]%orb_true_elim Hlen.
    + eapply spans_captured_mono; eauto.
    + eapply IH2; eauto. by rewrite (spans_captures_length _ _ _ H1).
  - intros (m & H & ->) G Hlen. unfold captured. simpl.
    destruct (decide (i = j)) as [->|Hne].
    + eexists. apply list_lookup_insert_eq.
      by rewrite (spans_captures_length _ _ _ H).
    + rewrite list_lookup_insert_ne by done. eapply IH; eauto.
      apply orb_true_elim in G as [G|G]; [|done].
      by apply bool_decide_eq_true in G.
Qed.

Lemma exec_sound r : ∀ inp pv y,
  exec r pv inp = Some y →
  ∃ x, rest x `suffix_of` inp ∧ captures x = replicate 4 None ∧ spans r x y.
Proof.
  induction inp as [|c inp IH]; intros pv y; simpl.
  - destruct (matcher _ _ _) as [z|] eqn:E; [|done]. intros [= ->].
    apply matcher_sound in E as (y' & Hy & [= ->]).
    by exists (mkState pv [] (replicate 4 None)).
  - destruct (matcher _ _ _) as [z|] eqn:E.
    + intros [= ->]. apply matcher_sound in E as (y' & Hy & [= ->]).
      by exists (mkState pv (c :: inp) (replicate 4 None)).
    + intros (x & Hx & Hc & Hs)%IH. exists x. split_and!; try done.
      by apply suffix_cons_r.
Qed.

Lemma exec_captures r pv inp y :
  setsAll r = true → exec r pv inp = Some y →
  ∃ m1 m2 m3, captures y = [None; Some m1; Some m2; Some m3].
Proof.
  intros (((G1 & G2)%andb_prop & G3)%andb_prop & G0%negb_true_iff)%andb_prop
         (x & _ & Hc & Hs)%exec_sound.
  pose proof (spans_captures_length _ _ _ Hs) as Hlen.
  pose proof (spans_captures_other 0 _ _ _ Hs G0) as H0.
  destruct (spans_captured_set 1 _ _ _ Hs G1) as [m1 H1]; [rewrite Hc; simpl; lia|].
  destruct (spans_captured_set 2 _ _ _ Hs G2) as [m2 H2]; [rewrite Hc; simpl; lia|].
  destruct (spans_captured_set 3 _ _ _ Hs G3) as [m3 H3]; [rewrite Hc; simpl; lia|].
  rewrite Hc in Hlen, H0. simpl in *.
  destruct (captures y) as [|c0 [|c1 [|c2 [|c3 [|]]]]]; simplify_eq/=.
  by exists m1, m2, m3.
Qed.

Lemma exec_progress r pv inp y :
  (1 ≤ minLen r)%nat → exec r pv inp = Some y →
  (length (rest y) < length inp)%nat.
Proof.
  intros Hmin (x & Hx%suffix_length & _ & Hs%spans_minLen)%exec_sound. lia.
Qed.

(** The loop ends: every iteration but the last consumes at least one
    code unit, so any fuel above the length of the text gives the
    result, and always the same one. *)
Lemma execLoop_total {A} (push : list (option jsstring) → option A) r :
  (1 ≤ minLen r)%nat →
  (∀ pv inp y, exec r pv inp = Some y → is_Some (push (captures y))) →
  ∀ fuel pv inp, (length inp < fuel)%nat →
    ∃ data, execLoop push r fuel pv inp = Some data
            ∧ ∀ fuel', (length inp < fuel')%nat →
                execLoop push r fuel' pv inp = Some data.
Proof.
  intros Hmin Hpush. induction fuel as [|fuel IH]; intros pv inp Hlen; [lia|].
  simpl. destruct (exec r pv inp) as [y|] eqn:E.
  - destruct (Hpush _ _ _ E) as [item Hitem].
    pose proof (exec_progress _ _ _ _ Hmin E) as Hlt.
    destruct (IH (prev y) (rest y)) as (data & Hdata & Hsame); [lia|].
    exists (item :: data). rewrite Hitem, Hdata. split; [done|].
    intros [|fuel'] Hlen'; [lia|]. simpl. rewrite E, Hitem. simpl.
    rewrite Hsame by lia. done.
  - exists []. split; [done|]. intros [|fuel'] Hlen'; [lia|]. simpl.
    by rewrite E.
Qed.

Lemma extractPage1Data_total text : ∃ data, extractPage1Data text = Some data.
Proof.
  destruct (execLoop_total pushPage1 page1Pattern) with
    (fuel := S (length text)) (pv := @None N) (inp := text)
    as (data & H & _); [simpl; lia| |lia|by exists data].
  intros pv inp y (m1 & m2 & m3 & ->)%exec_captures; [|done]. by eexists.
Qed.

Lemma extractPage2DataWith_total pattern text :
  (1 ≤ minLen pattern)%nat → setsAll pattern = true →
  ∃ data, extractPage2DataWith pattern text = Some data.
Proof.
  intros Hmin Hsets.
  destruct (execLoop_total pushPage2 pattern) with
    (fuel := S (length text)) (pv := @None N) (inp := text)
    as (data & H & _); [done| |lia|by exists data].
  intros pv inp y (m1 & m2 & m3 & ->)%exec_captures; [|done]. by eexists.
Qed.

(** ** The fields of the extracted records *)

Lemma spans_groupBody i r : ∀ x y body,
  spans r x y → groupBody i r = Some body → (i < length (captures x))%nat →
  ∃ x' y', spans body x' y' ∧ captures y !! i = Some (Some (consumed x' y')).
Proof.
  induction r as [|p| |r1 IH1 r2 IH2|p min max|j r IH|r IH];
    intros x y body; simpl; try done.
  - intros (m & H1 & H2) Hbody Hlen. destruct (hasGroup i r2) eqn:G.
    + eapply IH2; eauto. by rewrite (spans_captures_length _ _ _ H1).
    + destruct (IH1 _ _ _ H1 Hbody Hlen) as (x' & y' & Hs & Hc).
      exists x', y'. split; [done|].
      by rewrite (spans_captures_other i _ _ _ H2 G).
  - intros (m & H & ->) Hbody Hlen. simpl. case_decide as Hj.
    + subst j. destruct (hasGroup i r); simplify_eq.
      exists x, m. split; [done|]. apply list_lookup_insert_eq.
      by rewrite (spans_captures_length _ _ _ H).
    + rewrite list_lookup_insert_ne by done. by eapply IH.
Qed.

Lemma spans_digits x y : spans digits x y → digitRun (consumed x y).
Proof.
  simpl. intros (cs & E & Hcs & [Hmin|[=]] & _).
  rewrite (consumed_app _ _ _ E). split; [|done].
  intros ->. simpl in Hmin. lia.
Qed.

Lemma spans_diameterToken x y :
  spans diameterToken x y → diameterString (consumed x y).
Proof.
  intros (m & (c & E & Hc & _) & Hd). pose proof (spans_digits _ _ Hd) as Hds.
  apply spans_consumed in Hd. exists c, (consumed m y). split; [|done].
  apply consumed_app. by rewrite E, Hd at 1.
Qed.

Lemma spans_markToken x y : spans markToken x y → markString (consumed x y).
Proof.
  intros (m & (cs & E & Hcs & Hmin & Hmax & _) & Hd).
  pose proof (spans_digits _ _ Hd) as Hds. apply spans_consumed in Hd.
  exists cs, (consumed m y). split_and!; [|split; [|done]|done].
  - apply consumed_app. rewrite E, Hd at 1. by rewrite app_assoc.
  - specialize (Hmax 3%nat eq_refl).
    destruct Hmin as [?|[= Hlen]]; [lia|]. rewrite <- Hlen. lia.
Qed.

Lemma exec_fields r pv inp y :
  capturesFields r → exec r pv inp = Some y →
  ∃ m1 m2 m3, captures y = [None; Some m1; Some m2; Some m3] ∧
              digitRun m1 ∧ diameterString m2 ∧ markString m3.
Proof.
  intros (Hsets & B1 & B2 & B3) E.
  destruct (exec_captures _ _ _ _ Hsets E) as (m1 & m2 & m3 & Hc).
  apply exec_sound in E as (x & _ & Hx & Hs).
  assert (∀ i, i < 4 → i < length (captures x))%nat as Hlen
    by (by rewrite Hx).
  destruct (spans_groupBody 1 _ _ _ _ Hs B1) as (x1 & y1 & H1 & E1); [apply Hlen; lia|].
  destruct (spans_groupBody 2 _ _ _ _ Hs B2) as (x2 & y2 & H2 & E2); [apply Hlen; lia|].
  destruct (spans_groupBody 3 _ _ _ _ Hs B3) as (x3 & y3 & H3 & E3); [apply Hlen; lia|].
  rewrite Hc in E1, E2, E3. simplify_eq/=.
  exists (consumed x1 y1), (consumed x2 y2), (consumed x3 y3).
  auto using spans_digits, spans_diameterToken, spans_markToken.
Qed.

Lemma parseDigits_nonneg s : ∀ acc, 0 ≤ acc → 0 ≤ parseDigits acc s.
Proof.
  induction s as [|c s IH]; intros acc Hacc; simpl; [done|].
  destruct (isDigit c) eqn:Hc; [|done]. apply IH.
  unfold isDigit, between in Hc. apply andb_prop in Hc as [?%N.leb_le _].
  unfold digitValue. lia.
Qed.

(** On a run of digits [parseInt] gives the Number value of the
    integer that the digits write: never NaN, never a negative
    Number. *)
Lemma parseInt_digitRun s :
  digitRun s → parseInt s = toNumber (parseDigits 0 s).
Proof.
  intros [Hne Hs]. destruct s as [|c s]; [done|].
  apply Forall_cons in Hs as [Hc _]. unfold parseInt.
  assert (isSpace c = false ∧ (c =? 45)%N = false ∧ (c =? 43)%N = false)
    as (Hspace & Hminus & Hplus).
  { unfold isDigit, between in Hc. apply andb_prop in Hc as [?%N.leb_le ?%N.leb_le].
    split_and!; [|apply N.eqb_neq; lia..].
    unfold isSpace, between.
    repeat (apply orb_false_intro);
      first [apply N.eqb_neq; lia
            |apply andb_false_iff; first [left; apply N.leb_gt; lia
                                         |right; apply N.leb_gt; lia]]. }
  cbn [afterSpaces]. rewrite Hspace, Hminus, Hplus. by rewrite Hc.
Qed.

Lemma parseInt_nonNegative s : digitRun s → nonNegative (parseInt s).
Proof.
  intros Hs. rewrite parseInt_digitRun by done.
  by apply toNumber_nonNegative, parseDigits_nonneg.
Qed.

Lemma execLoop_Forall {A} (push : list (option jsstring) → option A) r
    (P : A → Prop) :
  (∀ pv inp y item, exec r pv inp = Some y → push (captures y) = Some item → P item) →
  ∀ fuel pv inp data, execLoop push r fuel pv inp = Some data → Forall P data.
Proof.
  intros Hpush. induction fuel as [|fuel IH]; intros pv inp data; simpl; [done|].
  destruct (exec r pv inp) as [y|] eqn:E; [|by intros [= <-]].
  destruct (push (captures y)) as [item|] eqn:Hitem; [|done]. simpl.
  destruct (execLoop push r fuel (prev y) (rest y)) as [data'|] eqn:Hdata; [|done].
  intros [= <-]. constructor; eauto.
Qed.

(** Every record the extractors return has the fields of the data
    model: a quantity that is not negative (an integer, or Infinity for
    a run of digits beyond the doubles), a diameter token and a mark
    token. *)
Lemma extractPage1Data_fields text data :
  extractPage1Data text = Some data → Forall requiredRecord data.
Proof.
  apply execLoop_Forall. intros pv inp y item E.
  destruct (exec_fields page1Pattern pv inp y) as (m1 & m2 & m3 & -> & H1 & H2 & H3);
    [by repeat split|done|].
  intros [= <-]. split_and!; [by apply parseInt_nonNegative|done|done].
Qed.

Lemma extractPage2DataWith_fields pattern text data :
  capturesFields pattern →
  extractPage2DataWith pattern text = Some data → Forall tallyRecord data.
Proof.
  intros Hpattern. apply execLoop_Forall. intros pv inp y item E.
  destruct (exec_fields pattern pv inp y) as (m1 & m2 & m3 & -> & H1 & H2 & H3);
    [done|done|].
  intros [= <-]. split_and!; [by apply parseInt_nonNegative|done|done].
Qed.

Lemma markString_nonempty s : markString s → s ≠ [].
Proof.
  intros (ls & ds & -> & [Hlen _] & _). destruct ls; simpl in *; [lia|done].
Qed.

(** ** Totality *)

(** C9. Extraction returns a sequence of records for every text, the
    empty sequence for the empty text, and the loop of [exec] calls
    ends within as many iterations as the text has code units, plus
    one; a comparison therefore always produces its rows.  Nothing in
    either revision can fail. *)
Theorem extraction_and_compare_total :
  (∀ text,
     (∃ data, extractPage1Data text = Some data
              ∧ ∀ fuel, (length text < fuel)%nat →
                  execLoop pushPage1 page1Pattern fuel None text = Some data)
     ∧ (∃ data, GlobalHalve.extractPage2Data text = Some data
              ∧ ∀ fuel, (length text < fuel)%nat →
                  execLoop pushPage2 page2PatternStrict fuel None text = Some data)
     ∧ (∃ data, PerMarkDouble.extractPage2Data text = Some data
              ∧ ∀ fuel, (length text < fuel)%nat →
                  execLoop pushPage2 page2PatternTolerant fuel None text = Some data))
  ∧ extractPage1Data [] = Some []
  ∧ GlobalHalve.extractPage2Data [] = Some []
  ∧ PerMarkDouble.extractPage2Data [] = Some []
  ∧ (∀ localeCompare st, ∃ st',
       GlobalHalve.handleCompare localeCompare st = Some st')
  ∧ (∀ localeCompare st, ∃ st',
       PerMarkDouble.handleCompare localeCompare st = Some st').
Proof.
  assert (∀ {A} (push : list (option jsstring) → option A) r text,
            (1 ≤ minLen r)%nat →
            (∀ m1 m2 m3, is_Some (push [None; Some m1; Some m2; Some m3])) →
            setsAll r = true →
            ∃ data, execLoop push r (S (length text)) None text = Some data
                    ∧ ∀ fuel, (length text < fuel)%nat →
                        execLoop push r fuel None text = Some data) as Hloop.
  { intros A push r text Hmin Hpush Hsets.
    apply execLoop_total; [done| |lia].
    intros pv inp y (m1 & m2 & m3 & ->)%exec_captures; done. }
  split_and!.
  - intros text.
    split_and!; apply Hloop;
      [simpl; lia|by eexists|done|simpl; lia|by eexists|done
      |simpl; lia|by eexists|done].
  - done.
  - done.
  - done.
  - intros localeCompare st. unfold GlobalHalve.handleCompare.
    destruct (extractPage1Data_total (GlobalHalve.text1 st)) as [d1 ->].
    destruct (extractPage2DataWith_total page2PatternStrict (GlobalHalve.text2 st))
      as [d2 E]; [simpl; lia|done|].
    unfold GlobalHalve.extractPage2Data. rewrite E. by eexists.
  - intros localeCompare st. unfold PerMarkDouble.handleCompare.
    destruct (extractPage1Data_total (PerMarkDouble.text1 st)) as [d1 ->].
    destruct (extractPage2DataWith_total page2PatternTolerant (PerMarkDouble.text2 st))
      as [d2 E]; [simpl; lia|done|].
    unfold PerMarkDouble.extractPage2Data. rewrite E. by eexists.
Qed.

(** Scenario A, with more fuel than the loop needs. *)
Lemma extraction_and_compare_total_witness :
  (length (js "60 Y12 3550 60 CL1") < 100)%nat
  ∧ execLoop pushPage1 page1Pattern 100 None (js "60 Y12 3550 60 CL1")
    = Some [Page1Item.mk 60 (js "Y12") (js "CL1")].
Proof.
  assert (length (js "60 Y12 3550 60 CL1") < 100)%nat as Hfuel by (simpl; lia).
  split; [exact Hfuel|].
  destruct extraction_and_compare_total as (Htext & _).
  destruct (Htext (js "60 Y12 3550 60 CL1")) as ((data & Hdata & Hany) & _).
  rewrite (Hany 100%nat Hfuel). rewrite <- Hdata. reflexivity.
Defined.

(** ** The strict and the tolerant tally pattern *)

Lemma agreeOn_refl good r : agreeOn good r r.
Proof. by intros x k _. Qed.

Lemma agreeOn_trans good r1 r2 r3 :
  agreeOn good r1 r2 → agreeOn good r2 r3 → agreeOn good r1 r3.
Proof. intros H12 H23 x k Hx. by rewrite H12, H23. Qed.

Lemma agreeOn_Seq_l good r1 r2 r :
  agreeOn good r1 r2 → agreeOn good (Seq r1 r) (Seq r2 r).
Proof. intros H x k Hx. simpl. by apply H. Qed.

Lemma agreeOn_Optional good r1 r2 :
  agreeOn good r1 r2 → agreeOn good (Optional r1) (Optional r2).
Proof. intros H x k Hx. simpl. by rewrite H. Qed.

Lemma spacesApart_tail a inp : spacesApart (a :: inp) = true → spacesApart inp = true.
Proof. simpl. by intros [_ ?]%andb_prop. Qed.

Lemma spacesApart_suffix inp inp' :
  inp' `suffix_of` inp → spacesApart inp = true → spacesApart inp' = true.
Proof.
  intros [pre ->]. induction pre as [|a pre IH]; [done|].
  intros H. by apply IH, (spacesApart_tail a).
Qed.

Lemma agreeOn_Seq_r r r1 r2 :
  agreeOn spacesApart r1 r2 → agreeOn spacesApart (Seq r r1) (Seq r r2).
Proof.
  intros H x k Hx. simpl. apply matcher_ext. intros y Hy. apply H.
  by eapply spacesApart_suffix.
Qed.

Lemma demands_Class q : demands q (Class q).
Proof.
  intros x k Hq. simpl. destruct (rest x) as [|c inp]; [done|].
  simpl in Hq. by rewrite Hq.
Qed.

Lemma demands_Seq q r r' : demands q r → demands q (Seq r r').
Proof. intros H x k Hq. simpl. by apply H. Qed.

Lemma demands_Group q i r : demands q r → demands q (Group i r).
Proof. intros H x k Hq. simpl. by apply H. Qed.

Lemma isSpace_not_upper_dash c : isSpace c = true → isUpper c || isDash c = false.
Proof.
  unfold isSpace, isUpper, isDash, between.
  rewrite !orb_true_iff, !andb_true_iff, !orb_false_iff, !andb_false_iff,
          !N.leb_le, !N.leb_gt, !N.eqb_eq, !N.eqb_neq. lia.
Qed.

(** White space in front of a position where the continuation wants an
    upper-case letter or a dash, and where the run of white space ends
    in front of neither: every way of matching [\s*] fails. *)
Lemma spaces_blocked q caps (k : Continuation) :
  (∀ c, q c = true → isUpper c || isDash c = true) →
  (∀ y, from_option q false (head (rest y)) = false → k y = None) →
  ∀ inp pv,
    from_option (λ b, isUpper b || isDash b) false (head (afterSpaces inp)) = false →
    repeatMatcher isSpace 0 None caps k pv inp = None.
Proof.
  intros Hq Hk. induction inp as [|c inp IH]; intros pv Hafter; simpl.
  - by apply Hk.
  - simpl in Hafter. destruct (isSpace c) eqn:Hc.
    + rewrite IH by done. apply Hk. simpl.
      destruct (q c) eqn:E; [|done].
      apply Hq in E. by rewrite isSpace_not_upper_dash in E.
    + apply Hk. simpl. simpl in Hafter.
      destruct (q c) eqn:E; [|done]. apply Hq in E. congruence.
Qed.

Lemma spaces_skipped q caps (k : Continuation) :
  (∀ c, q c = true → isUpper c || isDash c = true) →
  (∀ y, from_option q false (head (rest y)) = false → k y = None) →
  ∀ inp pv, spacesApart inp = true →
    repeatMatcher isSpace 0 None caps k pv inp = k (mkState pv inp caps).
Proof.
  intros Hq Hk [|c inp] pv Hgood; simpl; [done|].
  destruct (isSpace c) eqn:Hc; [|done].
  rewrite (spaces_blocked q); [done..|].
  simpl in Hgood. rewrite Hc in Hgood.
  apply andb_prop in Hgood as [[Hgood _]%andb_prop _].
  by apply negb_true_iff in Hgood.
Qed.

(** [\s*] in front of a pattern that wants an upper-case letter or a
    dash matches nothing. *)
Lemma agreeOn_spaces_before q r :
  (∀ c, q c = true → isUpper c || isDash c = true) →
  demands q r → agreeOn spacesApart (Seq optSpaces r) r.
Proof.
  intros Hq Hr x k Hx. simpl. rewrite (spaces_skipped q); [by destruct x|done| |done].
  intros y Hy. by apply Hr.
Qed.

(** [\s*] right after the dash matches nothing. *)
Lemma agreeOn_dash_spaces r :
  agreeOn spacesApart (Seq (Class isDash) (Seq optSpaces r)) (Seq (Class isDash) r).
Proof.
  intros x k Hx. simpl. destruct (rest x) as [|c inp]; [done|].
  destruct (isDash c) eqn:Hc; [|done]. simpl.
  simpl in Hx. rewrite Hc in Hx.
  apply andb_prop in Hx as [[_ Hx%negb_true_iff]%andb_prop _].
  destruct inp as [|c' inp]; simpl in *; [done|]. by rewrite Hx.
Qed.

(** On a text in which white space stays clear of the dashes and of the
    tokens that start with a letter, the two tally patterns match the
    same way at every position. *)
Lemma page2Patterns_agree : agreeOn spacesApart page2PatternTolerant page2PatternStrict.
Proof.
  unfold page2PatternTolerant, page2PatternStrict. simpl.
  apply agreeOn_Seq_r, agreeOn_Seq_r.
  eapply agreeOn_trans.
  { apply (agreeOn_spaces_before isUpper).
    - intros c ->. done.
    - apply demands_Seq, demands_Group, demands_Seq, demands_Class. }
  apply agreeOn_Seq_r.
  eapply agreeOn_trans.
  { apply (agreeOn_spaces_before isDash).
    - intros c ->. apply orb_true_r.
    - apply demands_Seq, demands_Class. }
  eapply agreeOn_trans; [apply agreeOn_dash_spaces|].
  apply agreeOn_Seq_r, agreeOn_Seq_r, agreeOn_Seq_l, agreeOn_Optional.
  apply agreeOn_dash_spaces.
Qed.

Lemma exec_agree r r' :
  agreeOn spacesApart r r' →
  ∀ inp pv, spacesApart inp = true → exec r pv inp = exec r' pv inp.
Proof.
  intros H. induction inp as [|c inp IH]; intros pv Hgood; simpl.
  - by rewrite H.
  - rewrite H by done. rewrite IH; [done|]. by eapply spacesApart_tail.
Qed.

Lemma execLoop_agree {A} (push : list (option jsstring) → option A) r r' :
  agreeOn spacesApart r r' →
  ∀ fuel pv inp, spacesApart inp = true →
    execLoop push r fuel pv inp = execLoop push r' fuel pv inp.
Proof.
  intros H. induction fuel as [|fuel IH]; intros pv inp Hgood; simpl; [done|].
  rewrite <- (exec_agree r r') by done.
  destruct (exec r pv inp) as [y|] eqn:E; [|done].
  rewrite IH; [done|].
  apply exec_sound in E as (x & Hx & _ & Hs%spans_suffix).
  eapply spacesApart_suffix; [|done]. by etrans.
Qed.

Lemma digit_lineUnit c : isDigit c = true → lineUnit c ∧ isDash c = false ∧ isUpper c = false.
Proof.
  unfold lineUnit, isSpace, isUpper, isDigit, isDash, between.
  rewrite !orb_false_iff, !andb_true_iff, !andb_false_iff,
          !N.leb_le, !N.leb_gt, !N.eqb_eq, !N.eqb_neq. lia.
Qed.

Lemma upper_lineUnit c : isUpper c = true → lineUnit c ∧ isDash c = false.
Proof.
  unfold lineUnit, isSpace, isUpper, isDigit, isDash, between.
  rewrite !orb_false_iff, !andb_true_iff, !andb_false_iff,
          !N.leb_le, !N.leb_gt, !N.eqb_eq, !N.eqb_neq. lia.
Qed.

Lemma dash_lineUnit : lineUnit 45%N.
Proof. split; [done|]. by right; right. Qed.

Lemma digitRun_units s : digitRun s → Forall lineUnit s.
Proof.
  intros [_ H]. eapply Forall_impl; [exact H|]. intros c Hc.
  by apply digit_lineUnit.
Qed.

Lemma letterRun_units s : letterRun s → Forall lineUnit s.
Proof.
  intros [_ H]. eapply Forall_impl; [exact H|]. intros c Hc.
  by apply upper_lineUnit.
Qed.

Lemma diameterString_units s : diameterString s → Forall lineUnit s.
Proof.
  intros (d & ds & -> & Hd & Hds). constructor; [by apply upper_lineUnit|].
  by apply digitRun_units.
Qed.

Lemma markString_units s : markString s → Forall lineUnit s.
Proof.
  intros (ls & ds & -> & Hls & Hds). apply Forall_app.
  auto using letterRun_units, digitRun_units.
Qed.

Lemma digitRun_first s : digitRun s → ∃ d s', s = d :: s' ∧ isDigit d = true.
Proof.
  intros [Hne H]. destruct s as [|d s']; [done|].
  apply Forall_cons in H as [Hd _]. by exists d, s'.
Qed.

Lemma digitRun_last s : digitRun s → ∃ s' d, s = s' ++ [d] ∧ isDigit d = true.
Proof.
  intros [Hne H]. destruct s as [|d s' _] using rev_ind; [done|].
  apply Forall_app in H as [_ [Hd _]%Forall_cons]. by exists s', d.
Qed.

(** A line is made of digits, letters and dashes, starts with a digit
    and ends with one. *)
Lemma strictLine_shape line :
  strictLine line →
  Forall lineUnit line ∧
  (∃ d l, line = d :: l ∧ isDigit d = true) ∧
  (∃ l d, line = l ++ [d] ∧ isDigit d = true).
Proof.
  destruct 1 as [cnt dia mk Hcnt Hdia Hmk|cnt dia mk sfx Hcnt Hdia Hmk Hsfx].
  - split_and!.
    + repeat first [apply Forall_app; split | apply Forall_cons; split];
        auto using digitRun_units, diameterString_units, markString_units,
                   dash_lineUnit.
    + destruct (digitRun_first _ Hcnt) as (c & cnt' & -> & Hc). by eexists c, _.
    + destruct Hmk as (ls & ds & -> & _ & Hds).
      destruct (digitRun_last _ Hds) as (ds' & c & -> & Hc).
      exists (cnt ++ dia ++ 45%N :: ls ++ ds'), c. split; [|done].
      by repeat (rewrite <- app_assoc || rewrite <- app_comm_cons).
  - split_and!.
    + repeat first [apply Forall_app; split | apply Forall_cons; split];
        auto using digitRun_units, diameterString_units, markString_units,
                   dash_lineUnit.
    + destruct (digitRun_first _ Hcnt) as (c & cnt' & -> & Hc). by eexists c, _.
    + destruct (digitRun_last _ Hsfx) as (sfx' & c & -> & Hc).
      exists (cnt ++ dia ++ 45%N :: mk ++ 45%N :: sfx'), c. split; [|done].
      by repeat (rewrite <- app_assoc || rewrite <- app_comm_cons).
Qed.

Lemma spacesApart_line l d text :
  Forall lineUnit l → isDigit d = true → spacesApart text = true →
  spacesApart (l ++ d :: text) = true.
Proof.
  intros Hl Hd Htext.
  destruct (digit_lineUnit d Hd) as ([Hspace _] & Hdash & _).
  induction Hl as [|a l [Ha _] Hl IH]; simpl.
  - by rewrite Hspace, Hdash.
  - rewrite Ha, IH, andb_true_r. simpl.
    destruct (isDash a); [|done].
    destruct l as [|b l]; simpl; [by rewrite Hspace|].
    apply Forall_cons in Hl as [[-> _] _]. done.
Qed.

Lemma strictLine_spacesApart line text :
  strictLine line → spacesApart text = true → spacesApart (line ++ text) = true.
Proof.
  intros (Hunits & _ & l & d & -> & Hd)%strictLine_shape Htext.
  apply Forall_app in Hunits as [Hl _].
  rewrite <- app_assoc. by apply spacesApart_line.
Qed.

Lemma strictLine_first_unit line text :
  strictLine line →
  from_option (λ b, isUpper b || isDash b) false (head (afterSpaces (line ++ text)))
  = false.
Proof.
  intros (_ & (d & l & -> & Hd) & _)%strictLine_shape. simpl.
  destruct (digit_lineUnit d Hd) as ([Hspace _] & Hdash & Hupper).
  rewrite Hspace. simpl. by rewrite Hdash, Hupper.
Qed.

Lemma strictText_after_spaces text :
  strictText text →
  from_option (λ b, isUpper b || isDash b) false (head (afterSpaces text)) = false.
Proof.
  induction 1 as [|c text Hc _ IH|line Hline|line c text Hline Hc _ _].
  - done.
  - simpl. by rewrite Hc.
  - rewrite <- (app_nil_r line). by apply strictLine_first_unit.
  - by apply strictLine_first_unit.
Qed.

Lemma strictText_spacesApart text : strictText text → spacesApart text = true.
Proof.
  assert (∀ c t, isSpace c = true → strictText t →
            spacesApart t = true → spacesApart (c :: t) = true) as Hspace.
  { intros c t Hc Ht Hgood. simpl.
    rewrite Hc, Hgood, (strictText_after_spaces t Ht), andb_true_r. simpl.
    destruct (isDash c) eqn:E; [|done].
    pose proof (isSpace_not_upper_dash c Hc) as [_ ?]%orb_false_elim. congruence. }
  induction 1 as [|c text Hc Htext IH|line Hline|line c text Hline Hc Htext IH].
  - done.
  - by apply Hspace.
  - rewrite <- (app_nil_r line). by apply strictLine_spacesApart.
  - apply strictLine_spacesApart; [done|]. by apply Hspace.
Qed.

(** C7. On every text in the strict tally grammar the extractor with
    the strict pattern and the extractor with the whitespace-tolerant
    pattern return the same sequence of records. *)
Theorem strict_and_tolerant_extractors_agree (text : jsstring) :
  strictText text →
  ∃ data, GlobalHalve.extractPage2Data text = Some data
          ∧ PerMarkDouble.extractPage2Data text = Some data.
Proof.
  intros Htext%strictText_spacesApart.
  destruct (extractPage2DataWith_total page2PatternStrict text) as [data E];
    [simpl; lia|done|].
  exists data. split; [done|].
  unfold PerMarkDouble.extractPage2Data, extractPage2DataWith.
  rewrite (execLoop_agree pushPage2 _ _ page2Patterns_agree) by done.
  exact E.
Qed.

(** Scenario B, the strict line: 16 bars Y12 of the mark A1 under both
    patterns. *)
Lemma strict_and_tolerant_extractors_agree_witness :
  strictText (js "16Y12-A1-200")
  ∧ GlobalHalve.extractPage2Data (js "16Y12-A1-200")
    = Some [Page2Item.mk 16 (js "Y12") (js "A1")]
  ∧ PerMarkDouble.extractPage2Data (js "16Y12-A1-200")
    = Some [Page2Item.mk 16 (js "Y12") (js "A1")].
Proof.
  assert (strictText (js "16Y12-A1-200")) as Htext.
  { apply strictText_last.
    apply (strictLine_suffix (js "16") (js "Y12") (js "A1") (js "200")).
    - split; [done|by repeat constructor].
    - exists 89%N, (js "12"). split_and!; [done|done|].
      split; [done|by repeat constructor].
    - exists (js "A"), (js "1"). split_and!; [done| |].
      + split; [simpl; lia|by repeat constructor].
      + split; [done|by repeat constructor].
    - split; [done|by repeat constructor]. }
  split; [exact Htext|].
  destruct (strict_and_tolerant_extractors_agree _ Htext) as (data & Hs & Ht).
  assert (data = [Page2Item.mk 16 (js "Y12") (js "A1")]) as ->.
  { vm_compute in Hs. by injection Hs as <-. }
  by split.
Defined.

(** ** Grouping *)

Lemma groupStep_lookup grouped item m :
  groupStep grouped item !! m =
    if decide (Page2Item.mark item = m)
    then Some (match grouped !! m with
               | Some g => Page2Group.mk (Page2Group.total g + Page2Item.count item)
                                         (Page2Group.diameter g)
               | None => Page2Group.mk (0 + Page2Item.count item)
                                       (Page2Item.diameter item)
               end)
    else grouped !! m.
Proof.
  unfold groupStep. case_decide as Hm.
  - subst m. destruct (grouped !! Page2Item.mark item) as [g|] eqn:E.
    + by rewrite lookup_alter_eq, E.
    + by rewrite lookup_alter_eq, lookup_insert_eq.
  - rewrite lookup_alter_ne by done.
    destruct (grouped !! Page2Item.mark item); [done|].
    by rewrite lookup_insert_ne.
Qed.

Lemma page2Grouped_snoc page2Data item :
  page2Grouped (page2Data ++ [item]) = groupStep (page2Grouped page2Data) item.
Proof. unfold page2Grouped. by rewrite foldl_app. Qed.

Lemma recordsOf_snoc m page2Data item :
  recordsOf m (page2Data ++ [item]) =
    recordsOf m page2Data ++ (if decide (Page2Item.mark item = m) then [item] else []).
Proof.
  unfold recordsOf. rewrite filter_app. f_equal.
Qed.

Lemma page2Grouped_records (page2Data : list Page2Item.t) (m : jsstring) :
  match page2Grouped page2Data !! m with
  | None => recordsOf m page2Data = []
  | Some g =>
      ∃ first later,
        recordsOf m page2Data = first :: later ∧
        Page2Group.total g = sumFrom 0 (Page2Item.count <$> first :: later) ∧
        Page2Group.diameter g = Page2Item.diameter first
  end.
Proof.
  induction page2Data as [|item page2Data IH] using rev_ind; [done|].
  rewrite page2Grouped_snoc, groupStep_lookup, recordsOf_snoc.
  case_decide as Hm; [|by rewrite app_nil_r].
  destruct (page2Grouped page2Data !! m) as [g|].
  - destruct IH as (first & later & -> & Ht & Hd).
    exists first, (later ++ [item]). split_and!; [done| |done].
    unfold sumFrom in *. rewrite fmap_cons in *. cbn [foldl] in *.
    by rewrite fmap_app, foldl_app, <- Ht.
  - rewrite IH. by exists item, [].
Qed.

(** C2 (as the code has it). Aggregation by mark: a mark has a group
    exactly when some tally record carries it; the total of the group
    is the sum of the counts of the records of that mark, added one
    after the other in input order as Numbers, and its diameter is the
    diameter of the first of them, whatever the later ones say.  When
    the counts are integers that are not negative and add up to 2^53
    at most, the total is their sum. *)
Theorem page2Grouped_total_and_first_diameter
    (page2Data : list Page2Item.t) (m : jsstring) :
  match page2Grouped page2Data !! m with
  | None => recordsOf m page2Data = []
  | Some g =>
      ∃ first later,
        recordsOf m page2Data = first :: later ∧
        Page2Group.total g = sumFrom 0 (Page2Item.count <$> first :: later) ∧
        Page2Group.diameter g = Page2Item.diameter first ∧
        (∀ counts : list Z,
           Page2Item.count <$> first :: later = Num <$> counts →
           Forall (λ c, 0 ≤ c) counts → exactSum counts ≤ 2 ^ 53 →
           Page2Group.total g = Num (exactSum counts))
  end.
Proof.
  pose proof (page2Grouped_records page2Data m) as H.
  destruct (page2Grouped page2Data !! m) as [g|]; [|done].
  destruct H as (first & later & Hrec & Ht & Hd).
  exists first, later. split_and!; [done|done|done|].
  intros counts Hcounts Hpos Hsum. rewrite Ht, Hcounts.
  by rewrite sumFrom_exact.
Qed.

(** Scenario C: the counts 15 and 13 of the mark CL1 make the total
    28. *)
Lemma page2Grouped_total_and_first_diameter_witness :
  let page2Data := [Page2Item.mk 15 (js "R10") (js "CL1");
                    Page2Item.mk 4 (js "Y10") (js "A1");
                    Page2Item.mk 13 (js "Y12") (js "CL1")] in
  Forall (λ c, 0 ≤ c) [15; 13] ∧ exactSum [15; 13] ≤ 2 ^ 53
  ∧ ∃ g, page2Grouped page2Data !! js "CL1" = Some g
         ∧ Page2Group.total g = Num (exactSum [15; 13])
         ∧ Page2Group.diameter g = js "R10".
Proof.
  intros page2Data.
  assert (Forall (λ c, 0 ≤ c) [15; 13]) as Hpos by (repeat constructor; lia).
  assert (exactSum [15; 13] ≤ 2 ^ 53) as Hsum by (by vm_compute).
  split_and!; [exact Hpos|exact Hsum|].
  pose proof (page2Grouped_total_and_first_diameter page2Data (js "CL1")) as H.
  destruct (page2Grouped page2Data !! js "CL1") as [g|] eqn:E;
    [|by vm_compute in E].
  destruct H as (first & later & Hrec & _ & Hd & Hexact).
  assert (first = Page2Item.mk 15 (js "R10") (js "CL1")
          ∧ later = [Page2Item.mk 13 (js "Y12") (js "CL1")]) as [-> ->].
  { vm_compute in Hrec. by injection Hrec as <- <-. }
  exists g. split_and!; [done|by apply Hexact|done].
Defined.

(** Beyond 2^53 the additions round: of the counts 2^53, 1 and 1 the
    group keeps 2^53, and 2^53 + 2 when the large count comes last. *)
Lemma large_counts_are_not_summed_exactly :
  let text := js "9007199254740992R10-CL1 1R10-CL1 1R10-CL1" in
  let reordered := js "1R10-CL1 1R10-CL1 9007199254740992R10-CL1" in
  (∃ page2Data,
     GlobalHalve.extractPage2Data text = Some page2Data
     ∧ Page2Item.count <$> page2Data = Num <$> [2 ^ 53; 1; 1]
     ∧ Page2Group.total <$> page2Grouped page2Data !! js "CL1"
       = Some (Num (2 ^ 53)))
  ∧ (∃ page2Data,
       GlobalHalve.extractPage2Data reordered = Some page2Data
       ∧ Page2Item.count <$> page2Data = Num <$> [1; 1; 2 ^ 53]
       ∧ Page2Group.total <$> page2Grouped page2Data !! js "CL1"
         = Some (Num (2 ^ 53 + 2)))
  ∧ exactSum [2 ^ 53; 1; 1] = 2 ^ 53 + 2
  ∧ Num (2 ^ 53) ≠ Num (2 ^ 53 + 2).
Proof.
  split_and!.
  - eexists. split; [by vm_compute|]. split; by vm_compute.
  - eexists. split; [by vm_compute|]. split; by vm_compute.
  - by vm_compute.
  - intros H. by vm_compute in H.
Qed.

(** Scenario C: two tally records of the mark CL1. *)
Example scenario_C :
  let page2Data := [Page2Item.mk 15 (js "R10") (js "CL1");
                    Page2Item.mk 13 (js "R10") (js "CL1")] in
  page2Grouped page2Data !! js "CL1" = Some (Page2Group.mk 28 (js "R10"))
  ∧ GlobalHalve.tableData ordinalCompare
      [Page1Item.mk 60 (js "Y12") (js "CL1")] page2Data false
    = [GlobalHalve.mkRow (js "CL1") 60 (js "Y12") 28 (js "R10") (-32) false].
Proof. split; by vm_compute. Qed.

(** ** Sorting *)

Section SortFacts.
Context {A : Type} (compareFn : A → A → Z).

Lemma insertSorted_Permutation a l : insertSorted compareFn a l ≡ₚ a :: l.
Proof.
  induction l as [|b l IH]; simpl; [done|].
  case_decide; [done|]. rewrite IH. apply Permutation_swap.
Qed.

(** The sorted array holds the same elements. *)
Lemma sort_Permutation l : sort compareFn l ≡ₚ l.
Proof.
  induction l as [|a l IH]; simpl; [done|].
  by rewrite insertSorted_Permutation, IH.
Qed.

Lemma insertSorted_sorted a l :
  consistent compareFn →
  StronglySorted (λ x y, compareFn x y ≤ 0) l →
  StronglySorted (λ x y, compareFn x y ≤ 0) (insertSorted compareFn a l).
Proof.
  intros [Htotal Htrans]. induction l as [|b l IH]; simpl; intros Hs.
  - by repeat constructor.
  - apply StronglySorted_cons in Hs as [Hall Hs]. case_decide as Hab.
    + apply StronglySorted_cons. split.
      * constructor; [done|]. eapply Forall_impl; [done|]. simpl. eauto.
      * by apply StronglySorted_cons.
    + apply StronglySorted_cons. split; [|auto].
      rewrite insertSorted_Permutation. constructor; [|done].
      destruct (Htotal a b); [done|done].
Qed.

Lemma sort_sorted l :
  consistent compareFn →
  StronglySorted (λ x y, compareFn x y ≤ 0) (sort compareFn l).
Proof.
  intros Hc. induction l as [|a l IH]; simpl; [constructor|].
  by apply insertSorted_sorted.
Qed.
End SortFacts.

Lemma consistent_on {A B} (f : A → B) (compareFn : B → B → Z) :
  consistent compareFn → consistent (λ a b, compareFn (f a) (f b)).
Proof. intros [Htotal Htrans]. split; eauto. Qed.

Lemma ordinalCompare_cases a : ∀ b,
  ordinalCompare a b = -1 ∨ ordinalCompare a b = 0 ∨ ordinalCompare a b = 1.
Proof.
  induction a as [|x a IH]; intros [|y b]; simpl; auto.
  destruct (x <? y)%N; auto. destruct (y <? x)%N; auto.
Qed.

Lemma ordinalCompare_antisym a : ∀ b, ordinalCompare b a = - ordinalCompare a b.
Proof.
  induction a as [|x a IH]; intros [|y b]; simpl; auto.
  destruct (N.ltb_spec x y), (N.ltb_spec y x); try done; lia.
Qed.

Lemma ordinalCompare_trans a : ∀ b c,
  ordinalCompare a b ≤ 0 → ordinalCompare b c ≤ 0 → ordinalCompare a c ≤ 0.
Proof.
  induction a as [|x a IH]; intros [|y b] [|z c]; simpl; try done.
  destruct (N.ltb_spec x y), (N.ltb_spec y x), (N.ltb_spec y z),
    (N.ltb_spec z y), (N.ltb_spec x z), (N.ltb_spec z x);
    try done; try lia; try apply IH.
Qed.

Lemma ordinalCompare_consistent : consistent ordinalCompare.
Proof.
  split.
  - intros a b. rewrite (ordinalCompare_antisym a b).
    destruct (ordinalCompare_cases a b) as [->|[->| ->]]; lia.
  - intros a b c. apply ordinalCompare_trans.
Qed.

Lemma collateBy_consistent rank : consistent (collateBy rank).
Proof. apply (consistent_on (fmap rank)), ordinalCompare_consistent. Qed.

(** ** The rows of the comparison *)

(** [Math.round] rounds to the nearest integer and a tie upwards. *)
Lemma Math_round_half_up (x : Q) :
  ∃ k, GlobalHalve.Math_round (Frac x) = Num k
       ∧ (inject_Z k - (1 # 2) <= x)%Q ∧ (x < inject_Z k + (1 # 2))%Q.
Proof.
  exists (Qfloor (x + (1 # 2))). split; [done|].
  pose proof (Qfloor_le (x + (1 # 2))) as Hle.
  pose proof (Qlt_floor (x + (1 # 2))) as Hlt.
  rewrite inject_Z_plus in Hlt. split.
  - apply Qplus_le_l with (z := (1 # 2)%Q). by ring_simplify.
  - apply Qplus_lt_l with (z := (1 # 2)%Q).
    eapply Qlt_le_trans; [exact Hlt|]. ring_simplify. apply Qle_refl.
Qed.

Lemma Qfloor_half (t : Z) : Qfloor (inject_Z t / 2 + (1 # 2)) = (t + 1) `div` 2.
Proof.
  unfold Qfloor, Qdiv, Qmult, Qplus, Qinv, inject_Z.
  cbn. change (Z.pos (1 * 2 * 2)) with (2 * 2). change (Z.pos (1 * 2)) with 2.
  replace (t * 1 * 2 + 1 * 2) with ((t + 1) * 2) by lia.
  by rewrite (Z.div_mul_cancel_r (t + 1) 2 2).
Qed.

Lemma Math_round_half (t : Z) :
  GlobalHalve.Math_round (divideBy2 t) = Num ((t + 1) `div` 2).
Proof. unfold GlobalHalve.Math_round, divideBy2. by rewrite Qfloor_half. Qed.

Lemma GlobalHalve_elem_of_tableData localeCompare page1Data page2Data flag r :
  r ∈ GlobalHalve.tableData localeCompare page1Data page2Data flag ↔
  ∃ item, item ∈ page1Data ∧
          r = GlobalHalve.tableRow (page2Grouped page2Data) flag item.
Proof.
  unfold GlobalHalve.tableData. rewrite sort_Permutation, list_elem_of_fmap.
  split; intros (item & ? & ?); by exists item.
Qed.

Lemma PerMarkDouble_elem_of_tableData localeCompare page1Data page2Data
    inSectionRows flag r :
  r ∈ PerMarkDouble.tableData localeCompare page1Data page2Data inSectionRows flag ↔
  ∃ item, item ∈ page1Data ∧
          r = PerMarkDouble.tableRow (page2Grouped page2Data) inSectionRows flag item.
Proof.
  unfold PerMarkDouble.tableData. rewrite sort_Permutation, list_elem_of_fmap.
  split; intros (item & ? & ?); by exists item.
Qed.

Lemma GlobalHalve_tableData_marks localeCompare page1Data page2Data flag :
  GlobalHalve.mark <$> GlobalHalve.tableData localeCompare page1Data page2Data flag
  ≡ₚ Page1Item.mark <$> page1Data.
Proof.
  unfold GlobalHalve.tableData. rewrite sort_Permutation, <- list_fmap_compose.
  done.
Qed.

Lemma PerMarkDouble_tableData_marks localeCompare page1Data page2Data
    inSectionRows flag :
  PerMarkDouble.mark <$>
    PerMarkDouble.tableData localeCompare page1Data page2Data inSectionRows flag
  ≡ₚ Page1Item.mark <$> page1Data.
Proof.
  unfold PerMarkDouble.tableData. rewrite sort_Permutation, <- list_fmap_compose.
  done.
Qed.

(** C4. With the "Section and Layout" flag set, the tally of every row
    is [Math.round] of half the total of the group of its mark (of 0
    without a group): for a finite total the nearest integer, a half
    rounded up, and the total itself when it is not finite; the
    difference is that tally minus the required quantity. *)
Theorem globalHalve_tally_rounds_half_up localeCompare page1Data page2Data r :
  r ∈ GlobalHalve.tableData localeCompare page1Data page2Data true →
  let total := from_option Page2Group.total (Num 0)
                 (page2Grouped page2Data !! GlobalHalve.mark r) in
  GlobalHalve.tally r = GlobalHalve.Math_round (divideBy2 total)
  ∧ (∀ t : Z, total = Num t →
       ∃ k : Z, GlobalHalve.tally r = Num k ∧ (t = 2 * k ∨ t = 2 * k - 1))
  ∧ ((∀ t : Z, total ≠ Num t) → GlobalHalve.tally r = total)
  ∧ (page2Grouped page2Data !! GlobalHalve.mark r = None → GlobalHalve.tally r = 0)
  ∧ GlobalHalve.diff r = (GlobalHalve.tally r - GlobalHalve.required r)%num.
Proof.
  intros (item & _ & ->)%GlobalHalve_elem_of_tableData. cbn.
  set (total := from_option Page2Group.total (Num 0)
                  (page2Grouped page2Data !! Page1Item.mark item)).
  assert (match page2Grouped page2Data !! Page1Item.mark item with
          | Some e => Page2Group.total e
          | None => Num 0
          end = total) as ->.
  { unfold total. by destruct (page2Grouped page2Data !! Page1Item.mark item). }
  split_and!; [done| | | |done].
  - intros t ->. rewrite Math_round_half. eexists. split; [done|].
    pose proof (Z.div_mod (t + 1) 2). pose proof (Z.mod_pos_bound (t + 1) 2). lia.
  - intros Hinf. destruct total as [t| | |]; [by destruct (Hinf t)|done..].
  - unfold total. by intros ->.
Qed.

(** Scenario D: a group total of 28 against 60 required. *)
Lemma globalHalve_tally_rounds_half_up_witness :
  let page1Data := [Page1Item.mk 60 (js "Y12") (js "CL1")] in
  let page2Data := [Page2Item.mk 15 (js "R10") (js "CL1");
                    Page2Item.mk 13 (js "R10") (js "CL1")] in
  ∃ r, GlobalHalve.tableData ordinalCompare page1Data page2Data true = [r]
       ∧ from_option Page2Group.total (Num 0)
           (page2Grouped page2Data !! GlobalHalve.mark r) = Num 28
       ∧ GlobalHalve.tally r = 14 ∧ GlobalHalve.diff r = -46
       ∧ ∃ k : Z, GlobalHalve.tally r = Num k ∧ (28 = 2 * k ∨ 28 = 2 * k - 1).
Proof.
  intros page1Data page2Data.
  set (r := GlobalHalve.tableRow (page2Grouped page2Data) true
              (Page1Item.mk 60 (js "Y12") (js "CL1"))).
  exists r. split; [reflexivity|].
  assert (from_option Page2Group.total (Num 0)
            (page2Grouped page2Data !! GlobalHalve.mark r) = Num 28) as Htotal
    by (by vm_compute).
  destruct (globalHalve_tally_rounds_half_up ordinalCompare page1Data page2Data r)
    as (_ & Hr & _).
  { apply list_elem_of_singleton. reflexivity. }
  split_and!; [exact Htotal|by vm_compute|by vm_compute|exact (Hr 28 Htotal)].
Defined.

(** C1 (as the code has it). The rows are made one per required record
    and then rearranged by the sort: their marks are a rearrangement of
    the marks of the required list.  So every required mark has a row,
    a mark that only the tally side carries has none, and the marks of
    the rows are unique exactly when those of the required list are. *)
Theorem rows_follow_required_records localeCompare page1Data page2Data
    inSectionRows flag :
  let requiredMarks := Page1Item.mark <$> page1Data in
  let halved := GlobalHalve.mark <$>
      GlobalHalve.tableData localeCompare page1Data page2Data flag in
  let doubled := PerMarkDouble.mark <$>
      PerMarkDouble.tableData localeCompare page1Data page2Data inSectionRows flag in
  (halved ≡ₚ requiredMarks ∧ doubled ≡ₚ requiredMarks)
  ∧ (∀ m, (m ∈ halved ↔ m ∈ requiredMarks) ∧ (m ∈ doubled ↔ m ∈ requiredMarks))
  ∧ (∀ item, item ∈ page2Data → (Page2Item.mark item ∉ requiredMarks) →
             (Page2Item.mark item ∉ halved) ∧ (Page2Item.mark item ∉ doubled))
  ∧ ((NoDup halved ↔ NoDup requiredMarks) ∧ (NoDup doubled ↔ NoDup requiredMarks)).
Proof.
  intros requiredMarks halved doubled.
  assert (halved ≡ₚ requiredMarks) as HH by apply GlobalHalve_tableData_marks.
  assert (doubled ≡ₚ requiredMarks) as HD by apply PerMarkDouble_tableData_marks.
  split_and!; try done.
  - intros m. by rewrite HH, HD.
  - intros item _ Hnot. by rewrite HH, HD.
  - by rewrite HH.
  - by rewrite HD.
Qed.

(** The required marks B2 and A1 against tally records of A1 and C3:
    the rows are A1 and B2, and C3 has no row. *)
Lemma rows_follow_required_records_witness :
  let page1Data := [Page1Item.mk 6 (js "Y12") (js "B2");
                    Page1Item.mk 4 (js "Y10") (js "A1")] in
  let page2Data := [Page2Item.mk 4 (js "Y10") (js "A1");
                    Page2Item.mk 9 (js "R8") (js "C3")] in
  GlobalHalve.mark <$> GlobalHalve.tableData ordinalCompare page1Data page2Data false
    = [js "A1"; js "B2"]
  ∧ (js "C3" ∉ GlobalHalve.mark <$>
                GlobalHalve.tableData ordinalCompare page1Data page2Data false)
  ∧ NoDup (GlobalHalve.mark <$>
             GlobalHalve.tableData ordinalCompare page1Data page2Data false).
Proof.
  intros page1Data page2Data.
  destruct (rows_follow_required_records ordinalCompare page1Data page2Data ∅ false)
    as (_ & _ & Htally & [Hdup _]).
  split_and!.
  - reflexivity.
  - apply (Htally (Page2Item.mk 9 (js "R8") (js "C3"))).
    + apply list_elem_of_further, list_elem_of_here.
    + intros Hin. by repeat (apply elem_of_cons in Hin as [Hin|Hin]; [done|]);
        apply elem_of_nil in Hin.
  - apply Hdup. apply (NoDup_cons_2 (js "B2")); [|apply NoDup_singleton].
    intros Hin. by apply list_elem_of_singleton in Hin.
Defined.

(** Two required records with the mark CL1 give two rows with the mark
    CL1. *)
Lemma duplicate_required_mark_gives_two_rows :
  let st := GlobalHalve.mkApp (js "60 Y12 3550 60 CL1 40 Y12 3550 40 CL1")
                              (js "15R10-CL1-600") [] false ∅ in
  (∃ st', GlobalHalve.handleCompare ordinalCompare st = Some st' ∧
          GlobalHalve.mark <$> GlobalHalve.results st' = [js "CL1"; js "CL1"])
  ∧ ¬ NoDup (GlobalHalve.mark <$>
               GlobalHalve.tableData ordinalCompare
                 [Page1Item.mk 60 (js "Y12") (js "CL1");
                  Page1Item.mk 40 (js "Y12") (js "CL1")]
                 [Page2Item.mk 15 (js "R10") (js "CL1")] false).
Proof.
  split.
  - eexists. split; [by vm_compute|]. by vm_compute.
  - intros H. apply NoDup_cons in H as [H _]. apply H. vm_compute. left.
Qed.

Lemma GlobalHalve_tableRow_in localeCompare page1Data page2Data flag item :
  item ∈ page1Data →
  GlobalHalve.tableRow (page2Grouped page2Data) flag item
  ∈ GlobalHalve.tableData localeCompare page1Data page2Data flag.
Proof. intros Hin. apply GlobalHalve_elem_of_tableData. by exists item. Qed.

Lemma PerMarkDouble_tableRow_in localeCompare page1Data page2Data
    inSectionRows flag item :
  item ∈ page1Data →
  PerMarkDouble.tableRow (page2Grouped page2Data) inSectionRows flag item
  ∈ PerMarkDouble.tableData localeCompare page1Data page2Data inSectionRows flag.
Proof. intros Hin. apply PerMarkDouble_elem_of_tableData. by exists item. Qed.

(** C5. Every required record has a row in the table, with its mark,
    quantity and diameter.  When the mark has no tally group the row
    has tally 0, extracted diameter "N/A", no diameter match and the
    difference 0 minus the quantity compared against; with a group,
    the extracted diameter is that of the group and the diameters
    match exactly when the two strings are equal, code unit by code
    unit.  Both revisions, and every row of the table is such a
    row. *)
Theorem row_without_group_and_diameter_match localeCompare page1Data page2Data
    inSectionRows flag :
  (∀ item, item ∈ page1Data →
     ∃ r, r ∈ GlobalHalve.tableData localeCompare page1Data page2Data flag ∧
       GlobalHalve.mark r = Page1Item.mark item ∧
       GlobalHalve.required r = Page1Item.required item ∧
       GlobalHalve.requiredDiameter r = Page1Item.diameter item ∧
       (page2Grouped page2Data !! Page1Item.mark item = None →
          GlobalHalve.tally r = 0 ∧
          GlobalHalve.extractedDiameter r = js "N/A" ∧
          GlobalHalve.diameterMatch r = false ∧
          GlobalHalve.diff r = (0 - Page1Item.required item)%num) ∧
       (∀ g, page2Grouped page2Data !! Page1Item.mark item = Some g →
          GlobalHalve.extractedDiameter r = Page2Group.diameter g ∧
          (GlobalHalve.diameterMatch r = true ↔
           Page2Group.diameter g = Page1Item.diameter item)))
  ∧
  (∀ item, item ∈ page1Data →
     ∃ r, r ∈ PerMarkDouble.tableData localeCompare page1Data page2Data
                inSectionRows flag ∧
       PerMarkDouble.mark r = Page1Item.mark item ∧
       PerMarkDouble.required r = Page1Item.required item ∧
       PerMarkDouble.requiredDiameter r = Page1Item.diameter item ∧
       PerMarkDouble.effectiveRequired r =
         (if PerMarkDouble.sectionView inSectionRows flag (Page1Item.mark item)
          then (Page1Item.required item * 2)%num
          else Page1Item.required item) ∧
       (page2Grouped page2Data !! Page1Item.mark item = None →
          PerMarkDouble.tally r = 0 ∧
          PerMarkDouble.extractedDiameter r = js "N/A" ∧
          PerMarkDouble.diameterMatch r = false ∧
          PerMarkDouble.diff r = (0 - PerMarkDouble.effectiveRequired r)%num) ∧
       (∀ g, page2Grouped page2Data !! Page1Item.mark item = Some g →
          PerMarkDouble.extractedDiameter r = Page2Group.diameter g ∧
          (PerMarkDouble.diameterMatch r = true ↔
           Page2Group.diameter g = Page1Item.diameter item)))
  ∧
  (∀ r, r ∈ GlobalHalve.tableData localeCompare page1Data page2Data flag →
     (page2Grouped page2Data !! GlobalHalve.mark r = None →
        GlobalHalve.tally r = 0 ∧
        GlobalHalve.extractedDiameter r = js "N/A" ∧
        GlobalHalve.diameterMatch r = false ∧
        GlobalHalve.diff r = (0 - GlobalHalve.required r)%num) ∧
     (∀ g, page2Grouped page2Data !! GlobalHalve.mark r = Some g →
        GlobalHalve.extractedDiameter r = Page2Group.diameter g ∧
        (GlobalHalve.diameterMatch r = true ↔
         Page2Group.diameter g = GlobalHalve.requiredDiameter r)))
  ∧
  (∀ r, r ∈ PerMarkDouble.tableData localeCompare page1Data page2Data
              inSectionRows flag →
     (page2Grouped page2Data !! PerMarkDouble.mark r = None →
        PerMarkDouble.tally r = 0 ∧
        PerMarkDouble.extractedDiameter r = js "N/A" ∧
        PerMarkDouble.diameterMatch r = false ∧
        PerMarkDouble.diff r = (0 - PerMarkDouble.effectiveRequired r)%num) ∧
     (∀ g, page2Grouped page2Data !! PerMarkDouble.mark r = Some g →
        PerMarkDouble.extractedDiameter r = Page2Group.diameter g ∧
        (PerMarkDouble.diameterMatch r = true ↔
         Page2Group.diameter g = PerMarkDouble.requiredDiameter r))).
Proof.
  assert (∀ item,
    let r := GlobalHalve.tableRow (page2Grouped page2Data) flag item in
    (page2Grouped page2Data !! Page1Item.mark item = None →
       GlobalHalve.tally r = 0 ∧
       GlobalHalve.extractedDiameter r = js "N/A" ∧
       GlobalHalve.diameterMatch r = false ∧
       GlobalHalve.diff r = (0 - Page1Item.required item)%num) ∧
    (∀ g, page2Grouped page2Data !! Page1Item.mark item = Some g →
       GlobalHalve.extractedDiameter r = Page2Group.diameter g ∧
       (GlobalHalve.diameterMatch r = true ↔
        Page2Group.diameter g = Page1Item.diameter item))) as Hhalve.
  { intros item. cbn. split.
    - intros ->. destruct flag; by rewrite ?Math_round_half.
    - intros g ->. split; [done|]. by rewrite bool_decide_eq_true. }
  assert (∀ item,
    let r := PerMarkDouble.tableRow (page2Grouped page2Data) inSectionRows
               flag item in
    (page2Grouped page2Data !! Page1Item.mark item = None →
       PerMarkDouble.tally r = 0 ∧
       PerMarkDouble.extractedDiameter r = js "N/A" ∧
       PerMarkDouble.diameterMatch r = false ∧
       PerMarkDouble.diff r = (0 - PerMarkDouble.effectiveRequired r)%num) ∧
    (∀ g, page2Grouped page2Data !! Page1Item.mark item = Some g →
       PerMarkDouble.extractedDiameter r = Page2Group.diameter g ∧
       (PerMarkDouble.diameterMatch r = true ↔
        Page2Group.diameter g = Page1Item.diameter item))) as Hdouble.
  { intros item. cbn. split.
    - by intros ->.
    - intros g ->. split; [done|]. by rewrite bool_decide_eq_true. }
  split_and!.
  - intros item Hin.
    exists (GlobalHalve.tableRow (page2Grouped page2Data) flag item).
    split; [by apply GlobalHalve_tableRow_in|].
    split_and!; [done|done|done|apply Hhalve..].
  - intros item Hin.
    exists (PerMarkDouble.tableRow (page2Grouped page2Data) inSectionRows flag item).
    split; [by apply PerMarkDouble_tableRow_in|].
    split_and!; [done|done|done|done|apply Hdouble..].
  - intros r (item & _ & ->)%GlobalHalve_elem_of_tableData. apply Hhalve.
  - intros r (item & _ & ->)%PerMarkDouble_elem_of_tableData. apply Hdouble.
Qed.

(** Scenario E next to two tallied marks, under the section view:
    LS1 is required 8 times and never tallied, CL1 is required with
    Y12 and tallied with R10, A1 is required and tallied with Y10. *)
Lemma row_without_group_and_diameter_match_witness :
  let missing := Page1Item.mk 8 (js "Y16") (js "LS1") in
  let differing := Page1Item.mk 60 (js "Y12") (js "CL1") in
  let matching := Page1Item.mk 4 (js "Y10") (js "A1") in
  let page1Data := [missing; differing; matching] in
  let page2Data := [Page2Item.mk 15 (js "R10") (js "CL1");
                    Page2Item.mk 4 (js "Y10") (js "A1")] in
  (missing ∈ page1Data ∧ differing ∈ page1Data ∧ matching ∈ page1Data)
  ∧ page2Grouped page2Data !! js "LS1" = None
  ∧ page2Grouped page2Data !! js "CL1" = Some (Page2Group.mk 15 (js "R10"))
  ∧ page2Grouped page2Data !! js "A1" = Some (Page2Group.mk 4 (js "Y10"))
  ∧ (∃ r, r ∈ PerMarkDouble.tableData ordinalCompare page1Data page2Data ∅ true
          ∧ PerMarkDouble.mark r = js "LS1"
          ∧ PerMarkDouble.effectiveRequired r = 16
          ∧ PerMarkDouble.tally r = 0
          ∧ PerMarkDouble.extractedDiameter r = js "N/A"
          ∧ PerMarkDouble.diameterMatch r = false
          ∧ PerMarkDouble.diff r = -16)
  ∧ (∃ r, r ∈ GlobalHalve.tableData ordinalCompare page1Data page2Data true
          ∧ GlobalHalve.mark r = js "LS1"
          ∧ GlobalHalve.tally r = 0
          ∧ GlobalHalve.extractedDiameter r = js "N/A"
          ∧ GlobalHalve.diameterMatch r = false
          ∧ GlobalHalve.diff r = -8)
  ∧ (∃ r, r ∈ GlobalHalve.tableData ordinalCompare page1Data page2Data true
          ∧ GlobalHalve.mark r = js "CL1"
          ∧ GlobalHalve.extractedDiameter r = js "R10"
          ∧ GlobalHalve.diameterMatch r ≠ true)
  ∧ (∃ r, r ∈ PerMarkDouble.tableData ordinalCompare page1Data page2Data ∅ true
          ∧ PerMarkDouble.mark r = js "A1"
          ∧ PerMarkDouble.extractedDiameter r = js "Y10"
          ∧ PerMarkDouble.diameterMatch r = true).
Proof.
  intros missing differing matching page1Data page2Data.
  assert (missing ∈ page1Data) as Hmissing by apply list_elem_of_here.
  assert (differing ∈ page1Data) as Hdiffering
    by apply list_elem_of_further, list_elem_of_here.
  assert (matching ∈ page1Data) as Hmatching
    by apply list_elem_of_further, list_elem_of_further, list_elem_of_here.
  assert (page2Grouped page2Data !! js "LS1" = None) as Hnone by (by vm_compute).
  assert (page2Grouped page2Data !! js "CL1"
          = Some (Page2Group.mk 15 (js "R10"))) as Hother by (by vm_compute).
  assert (page2Grouped page2Data !! js "A1"
          = Some (Page2Group.mk 4 (js "Y10"))) as Hsame by (by vm_compute).
  destruct (row_without_group_and_diameter_match ordinalCompare page1Data
              page2Data ∅ true) as (Hhalve & Hdouble & _ & _).
  split_and!; [exact Hmissing|exact Hdiffering|exact Hmatching
              |exact Hnone|exact Hother|exact Hsame| | | |].
  - destruct (Hdouble missing Hmissing)
      as (r & Hr & Hmark & _ & _ & Heff & Hno & _).
    destruct (Hno Hnone) as (Ht & Hx & Hm & Hd).
    exists r. split_and!; [done|done|by rewrite Heff|done|done|done|].
    rewrite Hd, Heff. by vm_compute.
  - destruct (Hhalve missing Hmissing) as (r & Hr & Hmark & _ & _ & Hno & _).
    destruct (Hno Hnone) as (Ht & Hx & Hm & Hd).
    exists r. split_and!; [done|done|done|done|done|].
    rewrite Hd. by vm_compute.
  - destruct (Hhalve differing Hdiffering)
      as (r & Hr & Hmark & _ & _ & _ & Hyes).
    destruct (Hyes _ Hother) as (Hx & Hm).
    exists r. split_and!; [done|done|done|].
    intros Htrue. by apply Hm in Htrue.
  - destruct (Hdouble matching Hmatching)
      as (r & Hr & Hmark & _ & _ & _ & _ & Hyes).
    destruct (Hyes _ Hsame) as (Hx & Hm).
    exists r. split_and!; [done|done|done|]. by apply Hm.
Defined.

(** The marks of the rows on display are mark tokens. *)
Lemma GlobalHalve_handleCompare_marks localeCompare st st' :
  GlobalHalve.handleCompare localeCompare st = Some st' →
  Forall (λ r, markString (GlobalHalve.mark r)) (GlobalHalve.results st').
Proof.
  unfold GlobalHalve.handleCompare.
  destruct (extractPage1Data _) as [page1Data|] eqn:E1; [|done].
  destruct (GlobalHalve.extractPage2Data _) as [page2Data|]; [|done].
  intros [= <-]. simpl. apply extractPage1Data_fields in E1.
  apply Forall_forall. intros r (item & Hitem & ->)%GlobalHalve_elem_of_tableData.
  simpl. by eapply Forall_forall in E1 as (_ & _ & ?).
Qed.

Lemma PerMarkDouble_handleCompare_marks localeCompare st st' :
  PerMarkDouble.handleCompare localeCompare st = Some st' →
  Forall (λ r, markString (PerMarkDouble.mark r)) (PerMarkDouble.results st').
Proof.
  unfold PerMarkDouble.handleCompare.
  destruct (extractPage1Data _) as [page1Data|] eqn:E1; [|done].
  destruct (PerMarkDouble.extractPage2Data _) as [page2Data|]; [|done].
  intros [= <-]. simpl. apply extractPage1Data_fields in E1.
  apply Forall_forall. intros r (item & Hitem & ->)%PerMarkDouble_elem_of_tableData.
  simpl. by eapply Forall_forall in E1 as (_ & _ & ?).
Qed.

(** ** The order of the rows *)

Lemma StronglySorted_impl_on {A} (R1 R2 : relation A) (l : list A) :
  (∀ a b, a ∈ l → b ∈ l → R1 a b → R2 a b) →
  StronglySorted R1 l → StronglySorted R2 l.
Proof.
  induction l as [|x l IH]; intros Himpl Hs; [constructor|].
  apply StronglySorted_cons in Hs as [Hall Hs]. apply StronglySorted_cons. split.
  - apply Forall_forall. intros y Hy. apply Himpl.
    + apply list_elem_of_here.
    + by apply list_elem_of_further.
    + by eapply Forall_forall in Hall.
  - apply IH; [|done]. intros a b Ha Hb. apply Himpl; by apply list_elem_of_further.
Qed.

Lemma GlobalHalve_tableData_sorted localeCompare page1Data page2Data flag :
  consistent localeCompare →
  StronglySorted (λ a b, localeCompare a b ≤ 0)
    (GlobalHalve.mark <$> GlobalHalve.tableData localeCompare page1Data page2Data flag).
Proof.
  intros Hc. eapply StronglySorted_fmap; [|apply sort_sorted]; [done|].
  by apply (consistent_on GlobalHalve.mark).
Qed.

Lemma PerMarkDouble_tableData_sorted localeCompare page1Data page2Data
    inSectionRows flag :
  consistent localeCompare →
  StronglySorted (λ a b, localeCompare a b ≤ 0)
    (PerMarkDouble.mark <$>
       PerMarkDouble.tableData localeCompare page1Data page2Data inSectionRows flag).
Proof.
  intros Hc. eapply StronglySorted_fmap; [|apply sort_sorted]; [done|].
  by apply (consistent_on PerMarkDouble.mark).
Qed.

Lemma GlobalHalve_handleCompare_sorted localeCompare st st' :
  consistent localeCompare →
  GlobalHalve.handleCompare localeCompare st = Some st' →
  StronglySorted (λ a b, localeCompare a b ≤ 0)
    (GlobalHalve.mark <$> GlobalHalve.results st').
Proof.
  intros Hc. unfold GlobalHalve.handleCompare.
  destruct (extractPage1Data _) as [page1Data|]; [|done].
  destruct (GlobalHalve.extractPage2Data _) as [page2Data|]; [|done].
  intros [= <-]. by apply GlobalHalve_tableData_sorted.
Qed.

Lemma PerMarkDouble_handleCompare_sorted localeCompare st st' :
  consistent localeCompare →
  PerMarkDouble.handleCompare localeCompare st = Some st' →
  StronglySorted (λ a b, localeCompare a b ≤ 0)
    (PerMarkDouble.mark <$> PerMarkDouble.results st').
Proof.
  intros Hc. unfold PerMarkDouble.handleCompare.
  destruct (extractPage1Data _) as [page1Data|]; [|done].
  destruct (PerMarkDouble.extractPage2Data _) as [page2Data|]; [|done].
  intros [= <-]. by apply PerMarkDouble_tableData_sorted.
Qed.

(** C6 (as the code has it). The rows are sorted ascending by mark under
    the [localeCompare] of the host, whatever consistent collation that
    is.  Where that collation orders the marks at hand as the ordinal
    comparison of code units does, the rows are in ordinal order; so
    they are after every comparison when the collation orders the mark
    tokens (upper-case letters and digits) that way.  In ordinal order
    "A10" comes before "A9". *)
Theorem rows_sorted_by_localeCompare localeCompare page1Data page2Data
    inSectionRows flag :
  consistent localeCompare →
  let requiredMarks := Page1Item.mark <$> page1Data in
  let halved := GlobalHalve.mark <$>
      GlobalHalve.tableData localeCompare page1Data page2Data flag in
  let doubled := PerMarkDouble.mark <$>
      PerMarkDouble.tableData localeCompare page1Data page2Data inSectionRows flag in
  StronglySorted (λ a b, localeCompare a b ≤ 0) halved
  ∧ StronglySorted (λ a b, localeCompare a b ≤ 0) doubled
  ∧ ((∀ a b, a ∈ requiredMarks → b ∈ requiredMarks →
             localeCompare a b ≤ 0 → ordinalCompare a b ≤ 0) →
     StronglySorted (λ a b, ordinalCompare a b ≤ 0) halved
     ∧ StronglySorted (λ a b, ordinalCompare a b ≤ 0) doubled)
  ∧ ((∀ a b, markString a → markString b →
             localeCompare a b ≤ 0 → ordinalCompare a b ≤ 0) →
     (∀ st st', GlobalHalve.handleCompare localeCompare st = Some st' →
        StronglySorted (λ a b, ordinalCompare a b ≤ 0)
          (GlobalHalve.mark <$> GlobalHalve.results st'))
     ∧ (∀ st st', PerMarkDouble.handleCompare localeCompare st = Some st' →
        StronglySorted (λ a b, ordinalCompare a b ≤ 0)
          (PerMarkDouble.mark <$> PerMarkDouble.results st')))
  ∧ ordinalCompare (js "A10") (js "A9") < 0.
Proof.
  intros Hc requiredMarks halved doubled.
  assert (StronglySorted (λ a b, localeCompare a b ≤ 0) halved) as HH
    by by apply GlobalHalve_tableData_sorted.
  assert (StronglySorted (λ a b, localeCompare a b ≤ 0) doubled) as HD
    by by apply PerMarkDouble_tableData_sorted.
  split_and!; [done|done| | |done].
  - intros Hagree. split.
    + eapply StronglySorted_impl_on; [|exact HH]. intros a b Ha Hb Hab.
      subst halved. rewrite GlobalHalve_tableData_marks in Ha, Hb.
      by apply Hagree.
    + eapply StronglySorted_impl_on; [|exact HD]. intros a b Ha Hb Hab.
      subst doubled. rewrite PerMarkDouble_tableData_marks in Ha, Hb.
      by apply Hagree.
  - intros Hagree. split; intros st st' Hst.
    + eapply StronglySorted_impl_on;
        [|by eapply GlobalHalve_handleCompare_sorted].
      pose proof (GlobalHalve_handleCompare_marks _ _ _ Hst) as Hmarks.
      intros a b (ra & -> & Ha)%list_elem_of_fmap (rb & -> & Hb)%list_elem_of_fmap.
      apply Hagree; by eapply (proj1 (Forall_forall _ _) Hmarks).
    + eapply StronglySorted_impl_on;
        [|by eapply PerMarkDouble_handleCompare_sorted].
      pose proof (PerMarkDouble_handleCompare_marks _ _ _ Hst) as Hmarks.
      intros a b (ra & -> & Ha)%list_elem_of_fmap (rb & -> & Hb)%list_elem_of_fmap.
      apply Hagree; by eapply (proj1 (Forall_forall _ _) Hmarks).
Qed.

(** Under the ordinal collation the schedule with the marks A9 and A10
    comes out with A10 first. *)
Lemma rows_sorted_by_localeCompare_witness :
  let page1Data := [Page1Item.mk 4 (js "Y12") (js "A9");
                    Page1Item.mk 6 (js "Y12") (js "A10")] in
  consistent ordinalCompare
  ∧ GlobalHalve.mark <$> GlobalHalve.tableData ordinalCompare page1Data [] false
    = [js "A10"; js "A9"]
  ∧ StronglySorted (λ a b, ordinalCompare a b ≤ 0)
      (GlobalHalve.mark <$> GlobalHalve.tableData ordinalCompare page1Data [] false).
Proof.
  intros page1Data. split; [apply ordinalCompare_consistent|].
  split; [reflexivity|].
  destruct (rows_sorted_by_localeCompare ordinalCompare page1Data [] ∅ false
              ordinalCompare_consistent) as (_ & _ & Hord & _ & _).
  apply Hord. intros a b _ _ H. exact H.
Defined.

(** In an Estonian locale, where z sorts before t, the rows of the
    marks T1 and Z1 come out with Z1 first, which is not the ordinal
    order. *)
Lemma estonian_collation_is_not_ordinal :
  let st := GlobalHalve.mkApp (js "4 Y12 3550 4 T1 6 Y12 3550 6 Z1")
                              (js "4Y12-T1 6Y12-Z1") [] false ∅ in
  consistent estonianCompare
  ∧ (∃ st', GlobalHalve.handleCompare estonianCompare st = Some st' ∧
            GlobalHalve.mark <$> GlobalHalve.results st' = [js "Z1"; js "T1"])
  ∧ ¬ StronglySorted (λ a b, ordinalCompare a b ≤ 0) [js "Z1"; js "T1"].
Proof.
  split_and!.
  - apply collateBy_consistent.
  - eexists. split; [by vm_compute|]. by vm_compute.
  - intros [H _]%StronglySorted_cons. apply Forall_cons in H as [H _].
    by vm_compute in H.
Qed.

(** ** The mismatch report *)

Lemma join_nonempty sep (l : list jsstring) :
  Forall (λ s, s ≠ []) l → l ≠ [] → join sep l ≠ [].
Proof.
  destruct l as [|a [|b l]]; [done| |]; intros [Ha _]%Forall_cons _; simpl.
  - done.
  - by destruct a.
Qed.

Lemma StronglySorted_sublist {A} (R : relation A) (l1 l2 : list A) :
  l1 `sublist_of` l2 → StronglySorted R l2 → StronglySorted R l1.
Proof.
  induction 1 as [|a l1 l2 Hsub IH|a l1 l2 Hsub IH].
  - done.
  - rewrite !StronglySorted_cons. intros [Hall Hs]. split; [|auto].
    apply Forall_forall. intros b Hb.
    eapply Forall_forall in Hall; [done|]. by eapply sublist_subseteq.
  - rewrite StronglySorted_cons. intros [_ Hs]. auto.
Qed.

Lemma linesOf_plain s : (10%N ∉ s) → linesOf s = [s].
Proof.
  induction s as [|c s IH]; [done|]. intros [Hc Hs]%not_elem_of_cons.
  simpl. rewrite IH by done. by rewrite (proj2 (N.eqb_neq c 10)).
Qed.

Lemma linesOf_app s text : (10%N ∉ s) → linesOf (s ++ 10%N :: text) = s :: linesOf text.
Proof.
  induction s as [|c s IH]; [done|]. intros [Hc Hs]%not_elem_of_cons.
  simpl. rewrite IH by done. by rewrite (proj2 (N.eqb_neq c 10)).
Qed.

(** The lines of strings joined by newlines are these strings, when
    none of them holds a newline. *)
Lemma linesOf_join (l : list jsstring) :
  l ≠ [] → Forall (λ s, 10%N ∉ s) l → linesOf (join newline l) = l.
Proof.
  intros Hne Hl. induction l as [|a [|b l] IH]; [done| |].
  - apply Forall_cons in Hl as [Ha _]. by apply linesOf_plain.
  - apply Forall_cons in Hl as [Ha Hl].
    change (linesOf (a ++ 10%N :: join newline (b :: l)) = a :: b :: l).
    rewrite linesOf_app by done. by rewrite IH.
Qed.

Lemma markString_plain s : markString s → 10%N ∉ s.
Proof.
  intros (ls & ds & -> & [_ Hls] & [_ Hds]) [Hin|Hin]%elem_of_app.
  - by apply (proj1 (Forall_forall _ _) Hls) in Hin.
  - by apply (proj1 (Forall_forall _ _) Hds) in Hin.
Qed.

Section ReportFacts.
Context {row : Type}.
Context (mark : row → jsstring) (diff : row → number)
  (diameterMatch : row → bool).

Local Abbreviation marks := (mismatchedMarks mark diff diameterMatch).
Local Abbreviation bars := (mismatchedBars mark diff diameterMatch).
Local Abbreviation rendered := (mismatchReport mark diff diameterMatch).

Lemma isMismatch_spec ignoredRows r :
  isMismatch mark diff diameterMatch ignoredRows r = true ↔
  (diff r ≠ 0 ∨ diameterMatch r = false) ∧ truthy (ignoredRows !! mark r) = false.
Proof.
  unfold isMismatch.
  rewrite andb_true_iff, orb_true_iff, !negb_true_iff.
  by rewrite <- not_true_iff_false, strictEqual_zero.
Qed.

Lemma isMismatch_qualifies ignoredRows r :
  isMismatch mark diff diameterMatch ignoredRows r = true ↔
  qualifies mark diff diameterMatch ignoredRows r.
Proof. apply isMismatch_spec. Qed.

Lemma mismatchedMarks_cons r results ignoredRows :
  marks (r :: results) ignoredRows =
    if isMismatch mark diff diameterMatch ignoredRows r
    then mark r :: marks results ignoredRows
    else marks results ignoredRows.
Proof.
  unfold mismatchedMarks. rewrite filter_cons.
  destruct (isMismatch mark diff diameterMatch ignoredRows r) eqn:E.
  - by rewrite decide_True by done.
  - by rewrite decide_False by (by intros []).
Qed.

(** The marks listed are those the specification asks for: one entry
    per qualifying row, in the order of the rows. *)
Lemma mismatchedMarks_reported results ignoredRows :
  reported mark diff diameterMatch ignoredRows results (marks results ignoredRows).
Proof.
  induction results as [|r results IH]; [constructor|].
  rewrite mismatchedMarks_cons.
  destruct (isMismatch mark diff diameterMatch ignoredRows r) eqn:E.
  - apply reported_keep; [by apply isMismatch_qualifies|done].
  - apply reported_skip; [|done].
    intros Hq%isMismatch_qualifies. congruence.
Qed.

Lemma reported_unique results ignoredRows ms :
  reported mark diff diameterMatch ignoredRows results ms →
  ms = marks results ignoredRows.
Proof.
  induction 1 as [|r rows ms Hq _ IH|r rows ms Hq _ IH];
    [done|..]; rewrite mismatchedMarks_cons.
  - apply isMismatch_qualifies in Hq. by rewrite Hq, IH.
  - destruct (isMismatch mark diff diameterMatch ignoredRows r) eqn:E; [|done].
    by apply isMismatch_qualifies in E.
Qed.


(** The report reads the ignore flags only through their truthiness. *)
Lemma mismatchedMarks_ext results ignored1 ignored2 :
  (∀ m, truthy (ignored1 !! m) = truthy (ignored2 !! m)) →
  marks results ignored1 = marks results ignored2.
Proof.
  intros H. unfold mismatchedMarks. f_equal. apply list_filter_iff.
  intros r. unfold isMismatch. by rewrite H.
Qed.

Lemma mismatchedMarks_sublist results ignoredRows :
  marks results ignoredRows `sublist_of` (mark <$> results).
Proof. unfold mismatchedMarks. apply fmap_sublist, sublist_filter. Qed.

(** A report of marks that are not empty strings is empty only when no
    mark is reported. *)
Lemma mismatchReport_join results ignoredRows :
  Forall (λ r, mark r ≠ []) results →
  marks results ignoredRows ≠ [] →
  rendered results ignoredRows = join newline (marks results ignoredRows).
Proof.
  intros Hne Hm. unfold mismatchReport, mismatchedBars.
  destruct (join newline _) eqn:E; [|done].
  exfalso. revert E. apply join_nonempty; [|done].
  apply Forall_forall. intros m Hin.
  apply (sublist_subseteq _ _ (mismatchedMarks_sublist results ignoredRows)) in Hin.
  apply list_elem_of_fmap in Hin as (r & -> & Hr).
  by eapply Forall_forall in Hne.
Qed.

Lemma mismatchReport_lines results ignoredRows :
  Forall (λ r, mark r ≠ [] ∧ (10%N ∉ mark r)) results →
  marks results ignoredRows ≠ [] →
  linesOf (rendered results ignoredRows) = marks results ignoredRows.
Proof.
  intros Hplain Hm. rewrite mismatchReport_join; [|by eapply Forall_impl; [done|intros ? []]|done].
  apply linesOf_join; [done|].
  apply Forall_forall. intros m Hin.
  apply (sublist_subseteq _ _ (mismatchedMarks_sublist results ignoredRows)) in Hin.
  apply list_elem_of_fmap in Hin as (r & -> & Hr).
  by eapply Forall_forall in Hplain as [_ ?].
Qed.

(** C3. The report lists one entry for every row that has a nonzero
    difference or a diameter mismatch and whose mark is not ignored, in
    the order of the rows, and nothing else.  The text shown has these
    marks as its lines, one mark per line, and it is the string "None"
    when no row qualifies. *)
Theorem mismatch_report_spec (results : list row)
    (ignoredRows : gmap jsstring bool) :
  reported mark diff diameterMatch ignoredRows results (marks results ignoredRows)
  ∧ (∀ ms, reported mark diff diameterMatch ignoredRows results ms →
           ms = marks results ignoredRows)
  ∧ (∀ m, m ∈ marks results ignoredRows ↔
          ∃ r, r ∈ results ∧ mark r = m ∧
               (diff r ≠ 0 ∨ diameterMatch r = false) ∧
               truthy (ignoredRows !! m) = false)
  ∧ marks results ignoredRows `sublist_of` (mark <$> results)
  ∧ (∀ R, StronglySorted R (mark <$> results) →
          StronglySorted R (marks results ignoredRows))
  ∧ (marks results ignoredRows = [] →
     rendered results ignoredRows = js "None")
  ∧ (Forall (λ r, mark r ≠ [] ∧ (10%N ∉ mark r)) results →
     marks results ignoredRows ≠ [] →
     linesOf (rendered results ignoredRows) = marks results ignoredRows).
Proof.
  pose proof (mismatchedMarks_sublist results ignoredRows) as Hsub.
  split_and!.
  - apply mismatchedMarks_reported.
  - apply reported_unique.
  - intros m. unfold mismatchedMarks. rewrite list_elem_of_fmap. split.
    + intros (r & -> & [Hr Hin]%list_elem_of_filter).
      apply Is_true_true, isMismatch_spec in Hr as [??]. by exists r.
    + intros (r & Hin & <- & Hq & Hi). exists r. split; [done|].
      apply list_elem_of_filter. split; [|done].
      apply Is_true_true, isMismatch_spec. done.
  - done.
  - intros R HR. by eapply StronglySorted_sublist.
  - intros E. unfold mismatchReport, mismatchedBars. by rewrite E.
  - apply mismatchReport_lines.
Qed.

(** Toggling the ignore flag of a mark twice gives every mark the
    flag it had. *)
Lemma toggleIgnoreRows_twice m ignoredRows m' :
  truthy (toggleIgnoreRows m (toggleIgnoreRows m ignoredRows) !! m')
  = truthy (ignoredRows !! m').
Proof.
  unfold toggleIgnoreRows. destruct (decide (m = m')) as [->|Hne].
  - rewrite !lookup_insert_eq. simpl. by rewrite negb_involutive.
  - by rewrite !lookup_insert_ne.
Qed.

Lemma toggleIgnoreRows_other m ignoredRows m' :
  m' ≠ m → toggleIgnoreRows m ignoredRows !! m' = ignoredRows !! m'.
Proof. intros Hne. unfold toggleIgnoreRows. by rewrite lookup_insert_ne. Qed.

Lemma mismatchReport_toggle_twice m results ignoredRows :
  rendered results (toggleIgnoreRows m (toggleIgnoreRows m ignoredRows))
  = rendered results ignoredRows.
Proof.
  unfold mismatchReport, mismatchedBars.
  rewrite (mismatchedMarks_ext results _ ignoredRows); [done|].
  intros m'. apply toggleIgnoreRows_twice.
Qed.
End ReportFacts.

(** After a comparison the marks on display are mark tokens, so the
    report shows "None" only when no mark is reported. *)
Lemma GlobalHalve_report_after_compare localeCompare st st' :
  GlobalHalve.handleCompare localeCompare st = Some st' →
  let reported := mismatchedMarks GlobalHalve.mark GlobalHalve.diff
                    GlobalHalve.diameterMatch (GlobalHalve.results st')
                    (GlobalHalve.ignoredRows st') in
  GlobalHalve.report st' =
    match reported with [] => js "None" | _ => join newline reported end.
Proof.
  intros Hmarks%GlobalHalve_handleCompare_marks reported.
  destruct reported eqn:E.
  - unfold GlobalHalve.report, mismatchReport, mismatchedBars.
    fold reported. by rewrite E.
  - rewrite <- E. apply mismatchReport_join; [|fold reported; by rewrite E].
    eapply Forall_impl; [exact Hmarks|]. intros r. apply markString_nonempty.
Qed.

Lemma PerMarkDouble_report_after_compare localeCompare st st' :
  PerMarkDouble.handleCompare localeCompare st = Some st' →
  let reported := mismatchedMarks PerMarkDouble.mark PerMarkDouble.diff
                    PerMarkDouble.diameterMatch (PerMarkDouble.results st')
                    (PerMarkDouble.ignoredRows st') in
  PerMarkDouble.report st' =
    match reported with [] => js "None" | _ => join newline reported end.
Proof.
  intros Hmarks%PerMarkDouble_handleCompare_marks reported.
  destruct reported eqn:E.
  - unfold PerMarkDouble.report, mismatchReport, mismatchedBars.
    fold reported. by rewrite E.
  - rewrite <- E. apply mismatchReport_join; [|fold reported; by rewrite E].
    eapply Forall_impl; [exact Hmarks|]. intros r. apply markString_nonempty.
Qed.

(** Three rows, of which B2 (never tallied) and CL1 (28 against 60)
    qualify: the report has the two lines B2 and CL1. *)
Lemma mismatch_report_spec_witness :
  let results :=
    GlobalHalve.tableData ordinalCompare
      [Page1Item.mk 60 (js "Y12") (js "CL1"); Page1Item.mk 4 (js "Y10") (js "A1");
       Page1Item.mk 9 (js "R8") (js "B2")]
      [Page2Item.mk 15 (js "R10") (js "CL1"); Page2Item.mk 13 (js "R10") (js "CL1");
       Page2Item.mk 4 (js "Y10") (js "A1")] false in
  Forall (λ r, GlobalHalve.mark r ≠ [] ∧ (10%N ∉ GlobalHalve.mark r)) results
  ∧ mismatchedMarks GlobalHalve.mark GlobalHalve.diff GlobalHalve.diameterMatch
      results ∅ = [js "B2"; js "CL1"]
  ∧ mismatchReport GlobalHalve.mark GlobalHalve.diff GlobalHalve.diameterMatch
      results ∅ = js "B2" ++ 10%N :: js "CL1"
  ∧ linesOf (js "B2" ++ 10%N :: js "CL1") = [js "B2"; js "CL1"].
Proof.
  intros results.
  assert (Forall (λ r, GlobalHalve.mark r ≠ [] ∧ (10%N ∉ GlobalHalve.mark r))
            results) as Hmarks.
  { apply (bool_decide_unpack _). by vm_compute. }
  assert (mismatchedMarks GlobalHalve.mark GlobalHalve.diff
            GlobalHalve.diameterMatch results ∅ = [js "B2"; js "CL1"]) as Hlist
    by (by vm_compute).
  assert (mismatchReport GlobalHalve.mark GlobalHalve.diff
            GlobalHalve.diameterMatch results ∅ = js "B2" ++ 10%N :: js "CL1")
    as Htext by (by vm_compute).
  split_and!; [exact Hmarks|exact Hlist|exact Htext|].
  destruct (mismatch_report_spec GlobalHalve.mark GlobalHalve.diff
              GlobalHalve.diameterMatch results ∅) as (_ & _ & _ & _ & _ & _ & Hlines).
  rewrite <- Htext, <- Hlist. apply Hlines; [exact Hmarks|by rewrite Hlist].
Defined.

(** ** Ignore flags *)

(** C10. Toggling the ignore flag of a mark twice gives the mark the
    flag it had (a missing entry reads as not ignored), and with it the
    report it had; one toggle leaves the entry of every other mark
    alone.  Both revisions. *)
Theorem toggleIgnore_twice_restores (m : jsstring)
    (stH : GlobalHalve.state) (stP : PerMarkDouble.state) :
  (let once := GlobalHalve.toggleIgnore m stH in
   let twice := GlobalHalve.toggleIgnore m once in
   truthy (GlobalHalve.ignoredRows once !! m)
     = negb (truthy (GlobalHalve.ignoredRows stH !! m))
   ∧ truthy (GlobalHalve.ignoredRows twice !! m)
     = truthy (GlobalHalve.ignoredRows stH !! m)
   ∧ GlobalHalve.report twice = GlobalHalve.report stH
   ∧ (∀ m', m' ≠ m →
        GlobalHalve.ignoredRows once !! m' = GlobalHalve.ignoredRows stH !! m'))
  ∧
  (let once := PerMarkDouble.toggleIgnore m stP in
   let twice := PerMarkDouble.toggleIgnore m once in
   truthy (PerMarkDouble.ignoredRows once !! m)
     = negb (truthy (PerMarkDouble.ignoredRows stP !! m))
   ∧ truthy (PerMarkDouble.ignoredRows twice !! m)
     = truthy (PerMarkDouble.ignoredRows stP !! m)
   ∧ PerMarkDouble.report twice = PerMarkDouble.report stP
   ∧ (∀ m', m' ≠ m →
        PerMarkDouble.ignoredRows once !! m' = PerMarkDouble.ignoredRows stP !! m')).
Proof.
  split; simpl; split_and!.
  - unfold toggleIgnoreRows. by rewrite lookup_insert_eq.
  - apply toggleIgnoreRows_twice.
  - apply mismatchReport_toggle_twice.
  - intros m'. apply toggleIgnoreRows_other.
  - unfold toggleIgnoreRows. by rewrite lookup_insert_eq.
  - apply toggleIgnoreRows_twice.
  - apply mismatchReport_toggle_twice.
  - intros m'. apply toggleIgnoreRows_other.
Qed.

(** Scenario F: ignoring the one mismatched mark leaves the report
    "None", and a second toggle brings the mark back. *)
Example scenario_F :
  let st0 := GlobalHalve.mkApp (js "60 Y12 3550 60 CL1")
               (js "15R10-CL1-600 13R10-CL1-600") [] false ∅ in
  ∃ st, GlobalHalve.handleCompare ordinalCompare st0 = Some st
    ∧ GlobalHalve.report st = js "CL1"
    ∧ GlobalHalve.report (GlobalHalve.toggleIgnore (js "CL1") st) = js "None"
    ∧ GlobalHalve.report (GlobalHalve.toggleIgnore (js "CL1")
                            (GlobalHalve.toggleIgnore (js "CL1") st)) = js "CL1".
Proof. eexists. split; [by vm_compute|]. by vm_compute. Qed.

(** One toggle of CL1 leaves the entry of A1 alone, and two toggles
    bring back the report. *)
Lemma toggleIgnore_twice_restores_witness :
  let rows := GlobalHalve.tableData ordinalCompare
                [Page1Item.mk 60 (js "Y12") (js "CL1")]
                [Page2Item.mk 28 (js "R10") (js "CL1")] false in
  let st := GlobalHalve.mkApp [] [] rows false {[ js "A1" := true ]} in
  js "A1" ≠ js "CL1"
  ∧ GlobalHalve.ignoredRows (GlobalHalve.toggleIgnore (js "CL1") st) !! js "A1"
    = Some true
  ∧ GlobalHalve.report
      (GlobalHalve.toggleIgnore (js "CL1") (GlobalHalve.toggleIgnore (js "CL1") st))
    = js "CL1".
Proof.
  intros rows st.
  assert (js "A1" ≠ js "CL1") as Hne by done.
  destruct (toggleIgnore_twice_restores (js "CL1") st
              (PerMarkDouble.mkApp [] [] [] false ∅ ∅))
    as ((_ & _ & Hreport & Hother) & _).
  split_and!; [exact Hne| |].
  - rewrite (Hother (js "A1") Hne). reflexivity.
  - rewrite Hreport. by vm_compute.
Defined.

(** ** The section view *)

Lemma seedInSection_lookup rows flag prev m :
  PerMarkDouble.seedInSection rows flag prev !! m =
    match prev !! m with
    | Some v => Some v
    | None => if decide (m ∈ PerMarkDouble.mark <$> rows) then Some flag else None
    end.
Proof.
  unfold PerMarkDouble.seedInSection. revert prev.
  induction rows as [|r rows IH]; intros prev.
  - cbn [foldl]. destruct (prev !! m); [done|].
    case_decide as Hin; [|done]. by apply elem_of_nil in Hin.
  - cbn [foldl]. rewrite IH, fmap_cons.
    destruct (decide (PerMarkDouble.mark r = m)) as [<-|Hne].
    + destruct (prev !! PerMarkDouble.mark r) as [v|] eqn:E.
      * by rewrite E.
      * rewrite lookup_insert_eq.
        destruct (decide (_ ∈ _ :: _)) as [|Hnin]; [done|].
        destruct Hnin. apply list_elem_of_here.
    + assert ((match prev !! PerMarkDouble.mark r with
               | Some _ => prev
               | None => <[PerMarkDouble.mark r := flag]> prev
               end) !! m = prev !! m) as ->.
      { destruct (prev !! PerMarkDouble.mark r); [done|].
        by rewrite lookup_insert_ne. }
      destruct (prev !! m); [done|]. clear IH.
      destruct (decide (_ ∈ _ <$> _)) as [Hin|Hnin],
               (decide (_ ∈ _ :: _)) as [Hin'|Hnin']; try done.
      * destruct Hnin'. by apply list_elem_of_further.
      * apply elem_of_cons in Hin' as [?|?]; congruence.
Qed.

(** [handleCompare] stores the section view of every row it makes. *)
Lemma handleCompare_seeded localeCompare st st' :
  PerMarkDouble.handleCompare localeCompare st = Some st' → seeded st'.
Proof.
  unfold PerMarkDouble.handleCompare. intros H.
  destruct (extractPage1Data _) as [page1Data|]; [|done].
  destruct (PerMarkDouble.extractPage2Data _) as [page2Data|]; [|done].
  simpl in H. injection H as <-. intros r Hr. simpl in *.
  rewrite seedInSection_lookup.
  assert (PerMarkDouble.mark r ∈ PerMarkDouble.mark <$>
            PerMarkDouble.tableData localeCompare page1Data page2Data
              (PerMarkDouble.inSectionRows st) (PerMarkDouble.sectionAndLayout st))
    as Hin by (by apply list_elem_of_fmap_2).
  apply PerMarkDouble_elem_of_tableData in Hr as (item & _ & ->). simpl in *.
  unfold PerMarkDouble.sectionView.
  destruct (PerMarkDouble.inSectionRows st !! Page1Item.mark item); [done|].
  by rewrite decide_True.
Qed.

Lemma toggledRow_other m newVal r :
  PerMarkDouble.mark r ≠ m → PerMarkDouble.toggledRow m newVal r = r.
Proof. intros Hne. unfold PerMarkDouble.toggledRow. by rewrite decide_False. Qed.

Lemma toggledRow_mark m newVal r :
  PerMarkDouble.mark (PerMarkDouble.toggledRow m newVal r) = PerMarkDouble.mark r.
Proof. unfold PerMarkDouble.toggledRow. by case_decide. Qed.

Lemma toggleInSection_seeded m st :
  seeded st → seeded (PerMarkDouble.toggleInSection m st).
Proof.
  intros Hs r'. simpl.
  intros (r & -> & Hr)%list_elem_of_fmap. rewrite toggledRow_mark.
  unfold PerMarkDouble.toggledRow. case_decide as Hm.
  - simpl. rewrite Hm. by rewrite lookup_insert_eq.
  - rewrite lookup_insert_ne by done. by apply Hs.
Qed.

(** C8 (as the code has it). [toggleInSection] stores for the mark the
    negation of the stored value, a missing entry counting as false, so
    that a missing entry always becomes true; it leaves the entries of
    the other marks alone.  Every row of the mark gets the new value,
    the required quantity doubled exactly when the new value is true,
    and the difference recomputed from its tally; every other row is
    unchanged.  When the rows on display have their section view stored,
    as [handleCompare] leaves them, the toggle of the mark of a row
    flips the section view in effect for it. *)
Theorem toggleInSection_spec (m : jsstring) (st : PerMarkDouble.state) :
  let st' := PerMarkDouble.toggleInSection m st in
  let newVal := negb (truthy (PerMarkDouble.inSectionRows st !! m)) in
  PerMarkDouble.inSectionRows st' !! m = Some newVal
  ∧ (∀ v, PerMarkDouble.inSectionRows st !! m = Some v → newVal = negb v)
  ∧ (PerMarkDouble.inSectionRows st !! m = None → newVal = true)
  ∧ (∀ m', m' ≠ m →
       PerMarkDouble.inSectionRows st' !! m' = PerMarkDouble.inSectionRows st !! m')
  ∧ length (PerMarkDouble.results st') = length (PerMarkDouble.results st)
  ∧ (∀ i r, PerMarkDouble.results st !! i = Some r →
       ∃ r', PerMarkDouble.results st' !! i = Some r' ∧
         (PerMarkDouble.mark r ≠ m → r' = r) ∧
         (PerMarkDouble.mark r = m →
            PerMarkDouble.inSection r' = newVal ∧
            PerMarkDouble.effectiveRequired r' =
              (if newVal then (PerMarkDouble.required r * 2)%num
               else PerMarkDouble.required r) ∧
            PerMarkDouble.diff r' =
              (PerMarkDouble.tally r' - PerMarkDouble.effectiveRequired r')%num ∧
            PerMarkDouble.mark r' = PerMarkDouble.mark r ∧
            PerMarkDouble.required r' = PerMarkDouble.required r ∧
            PerMarkDouble.requiredDiameter r' = PerMarkDouble.requiredDiameter r ∧
            PerMarkDouble.tally r' = PerMarkDouble.tally r ∧
            PerMarkDouble.diameterMatch r' = PerMarkDouble.diameterMatch r ∧
            PerMarkDouble.extractedDiameter r' = PerMarkDouble.extractedDiameter r))
  ∧ (seeded st → m ∈ PerMarkDouble.mark <$> PerMarkDouble.results st →
       PerMarkDouble.sectionView (PerMarkDouble.inSectionRows st')
         (PerMarkDouble.sectionAndLayout st') m
       = negb (PerMarkDouble.sectionView (PerMarkDouble.inSectionRows st)
                 (PerMarkDouble.sectionAndLayout st) m))
  ∧ (seeded st → seeded st').
Proof.
  intros st' newVal. subst st'. simpl. split_and!.
  - by rewrite lookup_insert_eq.
  - intros v E. subst newVal. by rewrite E.
  - intros E. subst newVal. by rewrite E.
  - intros m' Hne. by rewrite lookup_insert_ne.
  - by rewrite length_fmap.
  - intros i r Hr. exists (PerMarkDouble.toggledRow m newVal r).
    rewrite list_lookup_fmap, Hr. split_and!; [done| |].
    + apply toggledRow_other.
    + intros Hm. unfold PerMarkDouble.toggledRow. rewrite decide_True by done.
      by simpl.
  - intros Hs (r & -> & Hr)%list_elem_of_fmap.
    unfold PerMarkDouble.sectionView. rewrite lookup_insert_eq.
    subst newVal. by rewrite (Hs r Hr).
  - apply toggleInSection_seeded.
Qed.

(** A compare of a one-line schedule with the global flag set, and then
    a toggle of its row: the section view goes from true to false and
    the difference from 28 - 120 to 28 - 60. *)
Lemma toggleInSection_spec_witness :
  let st0 := PerMarkDouble.mkApp (js "60 Y12 3550 60 CL1")
               (js "15 R10 - CL1 - 600 13R10-CL1") [] true ∅ ∅ in
  ∃ st st', PerMarkDouble.handleCompare ordinalCompare st0 = Some st
    ∧ st' = PerMarkDouble.toggleInSection (js "CL1") st
    ∧ seeded st
    ∧ PerMarkDouble.diff <$> PerMarkDouble.results st = [Num (28 - 120)]
    ∧ PerMarkDouble.diff <$> PerMarkDouble.results st' = [Num (28 - 60)]
    ∧ PerMarkDouble.sectionView (PerMarkDouble.inSectionRows st') true (js "CL1")
      = negb (PerMarkDouble.sectionView (PerMarkDouble.inSectionRows st) true
                (js "CL1")).
Proof.
  intros st0.
  destruct (PerMarkDouble.handleCompare ordinalCompare st0) as [st|] eqn:E;
    [|by vm_compute in E].
  exists st, (PerMarkDouble.toggleInSection (js "CL1") st).
  pose proof (handleCompare_seeded _ _ _ E) as Hseeded.
  assert (PerMarkDouble.mark <$> PerMarkDouble.results st = [js "CL1"]
          ∧ PerMarkDouble.diff <$> PerMarkDouble.results st = [Num (28 - 120)]
          ∧ PerMarkDouble.diff <$>
              PerMarkDouble.results (PerMarkDouble.toggleInSection (js "CL1") st)
            = [Num (28 - 60)]
          ∧ PerMarkDouble.sectionAndLayout st = true) as (Hmarks & Hd & Hd' & Hflag).
  { vm_compute in E. injection E as <-. by vm_compute. }
  split_and!; try done.
  destruct (toggleInSection_spec (js "CL1") st) as (_ & _ & _ & _ & _ & _ & Hflip & _).
  simpl in Hflip. rewrite Hflag in Hflip. apply Hflip; [done|].
  rewrite Hmarks. apply list_elem_of_here.
Defined.

(** With the global flag set and nothing stored for a mark, its section
    view is in effect; the toggle stores true, and the section view in
    effect stays what it was. *)
Lemma toggleInSection_ignores_global_default :
  let st := PerMarkDouble.mkApp [] [] [] true ∅ ∅ in
  let st' := PerMarkDouble.toggleInSection (js "CL1") st in
  PerMarkDouble.inSectionRows st !! js "CL1" = None
  ∧ PerMarkDouble.sectionView (PerMarkDouble.inSectionRows st)
      (PerMarkDouble.sectionAndLayout st) (js "CL1") = true
  ∧ PerMarkDouble.inSectionRows st' !! js "CL1" = Some true
  ∧ PerMarkDouble.inSectionRows st' !! js "CL1"
    ≠ Some (negb (PerMarkDouble.sectionView (PerMarkDouble.inSectionRows st)
                    (PerMarkDouble.sectionAndLayout st) (js "CL1"))).
Proof. by vm_compute. Qed.

(** * Further properties *)

(** ** Extraction *)

(** X1. Whatever the text, every record the three extractors return
    is well formed: its quantity is a Number that is not negative (an
    integer, or Infinity when the digits write an integer beyond the
    doubles; never NaN), its diameter is an upper-case letter followed
    by digits, and its mark is one to three upper-case letters
    followed by digits. *)
Theorem extracted_records_well_formed (text : jsstring) :
  (∀ data, extractPage1Data text = Some data → Forall requiredRecord data)
  ∧ (∀ data, GlobalHalve.extractPage2Data text = Some data →
             Forall tallyRecord data)
  ∧ (∀ data, PerMarkDouble.extractPage2Data text = Some data →
             Forall tallyRecord data).
Proof.
  split_and!.
  - apply extractPage1Data_fields.
  - intros data. by apply extractPage2DataWith_fields.
  - intros data. by apply extractPage2DataWith_fields.
Qed.

(** A text with a malformed line among well-formed ones. *)
Lemma extracted_records_well_formed_witness :
  ∃ data, extractPage1Data (js "60 Y12 3550 60 CL1 7 R8 1 2 ABCD3 5 R8 10 20 AB3")
          = Some data
          ∧ length data = 2%nat ∧ Forall requiredRecord data.
Proof.
  destruct (extractPage1Data
              (js "60 Y12 3550 60 CL1 7 R8 1 2 ABCD3 5 R8 10 20 AB3"))
    as [data|] eqn:E; [|by vm_compute in E].
  exists data. split; [done|]. split.
  - vm_compute in E. by injection E as <-.
  - destruct (extracted_records_well_formed
                (js "60 Y12 3550 60 CL1 7 R8 1 2 ABCD3 5 R8 10 20 AB3"))
      as (H1 & _). by apply H1.
Defined.

(** ** The groups *)

(** The group of a mark, read off the records of that mark. *)
Lemma page2Grouped_lookup page2Data m :
  page2Grouped page2Data !! m =
    match recordsOf m page2Data with
    | [] => None
    | first :: later =>
        Some (Page2Group.mk (sumFrom 0 (Page2Item.count <$> first :: later))
                            (Page2Item.diameter first))
    end.
Proof.
  pose proof (page2Grouped_records page2Data m) as H.
  destruct (page2Grouped page2Data !! m) as [[t d]|].
  - destruct H as (first & later & -> & Ht & Hd). simpl in *. by subst.
  - by rewrite H.
Qed.

Lemma exactSum_app l1 l2 : exactSum (l1 ++ l2) = exactSum l1 + exactSum l2.
Proof. induction l1 as [|c l1 IH]; simpl; lia. Qed.

Lemma exactSum_Permutation l1 l2 : l1 ≡ₚ l2 → exactSum l1 = exactSum l2.
Proof. induction 1; simpl; lia. Qed.

Lemma exactSum_nonneg l : Forall (λ c, 0 ≤ c) l → 0 ≤ exactSum l.
Proof. induction 1; simpl; lia. Qed.

Lemma exactCounts_counts page2Data :
  exactCounts page2Data →
  Page2Item.count <$> page2Data = Num <$> countsOf page2Data
  ∧ Forall (λ c, 0 ≤ c) (countsOf page2Data).
Proof.
  intros [Hall _]. unfold countsOf.
  induction Hall as [|item page2Data (c & Hc & Hpos) _ [IH1 IH2]]; [done|].
  rewrite !fmap_cons, IH1, Hc. split; [done|]. by constructor.
Qed.

(** The records of one mark, among records in the exact range, are
    in the exact range. *)
Lemma exactCounts_recordsOf m page2Data :
  exactCounts page2Data → exactCounts (recordsOf m page2Data).
Proof.
  intros Hexact. pose proof (exactCounts_counts _ Hexact) as [_ Hpos].
  destruct Hexact as [Hall Hsum]. split.
  { apply Forall_forall. intros x [_ Hx]%list_elem_of_filter.
    by apply (proj1 (Forall_forall _ _) Hall). }
  eapply Z.le_trans; [|exact Hsum]. clear Hsum Hall.
  unfold recordsOf, countsOf in *.
  induction page2Data as [|item page2Data IH]; [done|].
  rewrite fmap_cons in Hpos. apply Forall_cons in Hpos as [Hc Hpos].
  rewrite filter_cons. case_decide; rewrite ?fmap_cons; simpl;
    specialize (IH Hpos); lia.
Qed.

(** In the exact range the total of a group is the sum of the counts
    of its records. *)
Lemma page2Grouped_lookup_exact page2Data m :
  exactCounts page2Data →
  page2Grouped page2Data !! m =
    match recordsOf m page2Data with
    | [] => None
    | first :: later =>
        Some (Page2Group.mk (Num (exactSum (countsOf (first :: later))))
                            (Page2Item.diameter first))
    end.
Proof.
  intros Hexact%(exactCounts_recordsOf m). rewrite page2Grouped_lookup.
  destruct (recordsOf m page2Data) as [|first later]; [done|].
  destruct (exactCounts_counts _ Hexact) as [-> Hpos]. destruct Hexact as [_ Hsum].
  by rewrite (sumFrom_exact _ 0).
Qed.

Lemma grandTotal_insert grouped k v :
  grandTotal (<[k := v]> grouped) =
    integerOf (Page2Group.total v) + grandTotal grouped
    - from_option (λ g, integerOf (Page2Group.total g)) 0 (grouped !! k).
Proof.
  assert (∀ (g : gmap jsstring Page2Group.t) w, g !! k = None →
            grandTotal (<[k := w]> g)
            = integerOf (Page2Group.total w) + grandTotal g) as Hfresh.
  { intros g w Hk. unfold grandTotal. rewrite map_fold_insert_L; [done| |done].
    intros. lia. }
  destruct (grouped !! k) as [e|] eqn:E; simpl.
  - rewrite <- (insert_delete_eq grouped k v).
    rewrite <- (insert_delete_id grouped k e E) at 2.
    rewrite !Hfresh by apply lookup_delete_eq. lia.
  - rewrite Hfresh by done. lia.
Qed.

Lemma exactCounts_snoc page2Data item :
  exactCounts (page2Data ++ [item]) →
  exactCounts page2Data ∧ 0 ≤ integerOf (Page2Item.count item).
Proof.
  intros Hexact. pose proof (exactCounts_counts _ Hexact) as [_ Hpos].
  destruct Hexact as [Hall Hsum].
  apply Forall_app in Hall as [Hall Hitem].
  unfold countsOf in *. rewrite fmap_app in Hsum, Hpos.
  rewrite exactSum_app in Hsum. apply Forall_app in Hpos as [Hpos Hc].
  pose proof (Forall_inv Hc) as Hc'. simpl in Hsum, Hc'.
  split; [|done]. split; [done|]. unfold countsOf. lia.
Qed.

(** In the exact range every total is an integer from 0 to 2^53. *)
Lemma page2Grouped_totals_exact page2Data m g :
  exactCounts page2Data → page2Grouped page2Data !! m = Some g →
  ∃ t, Page2Group.total g = Num t ∧ 0 ≤ t ≤ 2 ^ 53.
Proof.
  intros Hexact. rewrite (page2Grouped_lookup_exact _ _ Hexact).
  pose proof (exactCounts_recordsOf m _ Hexact) as Hm.
  destruct (recordsOf m page2Data) as [|first later]; [done|].
  intros [= <-]. exists (exactSum (countsOf (first :: later))).
  split; [done|].
  destruct (exactCounts_counts _ Hm) as [_ Hpos]. destruct Hm as [_ Hsum].
  split; [exact (exactSum_nonneg _ Hpos)|exact Hsum].
Qed.

(** X2. Nothing is lost in the grouping, as long as the additions are
    exact: when every count is an integer that is not negative and the
    counts add up to 2^53 at most, every total is an integer and the
    totals of all groups add up to the sum of the counts of all tally
    records. *)
Theorem page2Grouped_conserves_counts (page2Data : list Page2Item.t) :
  exactCounts page2Data →
  map_Forall (λ _ g, ∃ t, Page2Group.total g = Num t ∧ 0 ≤ t ≤ 2 ^ 53)
    (page2Grouped page2Data)
  ∧ grandTotal (page2Grouped page2Data) = exactSum (countsOf page2Data).
Proof.
  intros Hexact. split.
  - intros m g. by apply page2Grouped_totals_exact.
  - induction page2Data as [|item page2Data IH] using rev_ind; [done|].
    destruct (exactCounts_snoc _ _ Hexact) as [Hprefix Hc].
    pose proof (page2Grouped_lookup_exact _ (Page2Item.mark item) Hexact) as Hnew.
    pose proof (page2Grouped_lookup_exact _ (Page2Item.mark item) Hprefix) as Hold.
    rewrite recordsOf_snoc, decide_True in Hnew by done.
    assert (page2Grouped (page2Data ++ [item])
            = <[Page2Item.mark item :=
                  Page2Group.mk
                    (Num (exactSum (countsOf
                       (recordsOf (Page2Item.mark item) page2Data ++ [item]))))
                    (from_option Page2Group.diameter (Page2Item.diameter item)
                       (page2Grouped page2Data !! Page2Item.mark item))]>
                (page2Grouped page2Data)) as ->.
    { apply map_eq. intros m. rewrite lookup_insert. case_decide as Hm.
      - subst m. rewrite Hnew, Hold.
        by destruct (recordsOf (Page2Item.mark item) page2Data).
      - rewrite page2Grouped_snoc, groupStep_lookup. by rewrite decide_False. }
    rewrite grandTotal_insert, (IH Hprefix), Hold.
    assert (∀ records, exactSum (countsOf (records ++ [item]))
                       = exactSum (countsOf records)
                         + integerOf (Page2Item.count item)) as Hsnoc.
    { intros records. unfold countsOf. rewrite fmap_app, exactSum_app. simpl. lia. }
    rewrite !Hsnoc. cbn [Page2Group.total integerOf].
    destruct (recordsOf (Page2Item.mark item) page2Data) as [|first later];
      cbn [from_option Page2Group.total integerOf];
      [change (exactSum (countsOf [])) with 0|]; lia.
Qed.

(** Three records of two marks: the totals 28 and 4 add up to the 32
    bars counted. *)
Lemma page2Grouped_conserves_counts_witness :
  let page2Data := [Page2Item.mk 15 (js "R10") (js "CL1");
                    Page2Item.mk 4 (js "Y10") (js "A1");
                    Page2Item.mk 13 (js "R10") (js "CL1")] in
  exactCounts page2Data
  ∧ grandTotal (page2Grouped page2Data) = 32.
Proof.
  intros page2Data.
  assert (exactCounts page2Data) as Hexact.
  { split; [|by vm_compute].
    repeat (apply Forall_cons; split; [eexists; split; [done|lia]|]).
    constructor. }
  split; [exact Hexact|].
  by rewrite (proj2 (page2Grouped_conserves_counts page2Data Hexact)).
Defined.

(** X3. As long as the additions are exact (every count an integer
    that is not negative, all counts adding up to 2^53 at most), the
    order of the tally records decides nothing but the diameter kept
    for a mark: two arrangements of the same records give the same
    marks with a group and the same total for each of them. *)
Theorem page2Grouped_totals_ignore_order (page2Data1 page2Data2 : list Page2Item.t) :
  exactCounts page2Data1 →
  page2Data1 ≡ₚ page2Data2 →
  ∀ m, Page2Group.total <$> page2Grouped page2Data1 !! m
       = Page2Group.total <$> page2Grouped page2Data2 !! m.
Proof.
  intros Hexact1 Hperm m.
  assert (exactCounts page2Data2) as Hexact2.
  { destruct Hexact1 as [Hall Hsum]. split; [by rewrite <- Hperm|].
    unfold countsOf in *. by rewrite <- (exactSum_Permutation _ _ (fmap_Permutation _ _ _ Hperm)). }
  rewrite !page2Grouped_lookup_exact by done.
  assert (recordsOf m page2Data1 ≡ₚ recordsOf m page2Data2) as Hrec
    by (unfold recordsOf; by rewrite Hperm).
  destruct (recordsOf m page2Data1) as [|f1 l1] eqn:E1,
           (recordsOf m page2Data2) as [|f2 l2] eqn:E2.
  - done.
  - by apply Permutation_nil_cons in Hrec.
  - symmetry in Hrec. by apply Permutation_nil_cons in Hrec.
  - cbn [fmap option_fmap option_map Page2Group.total]. do 2 f_equal.
    apply exactSum_Permutation. unfold countsOf. by apply fmap_Permutation.
Qed.

(** Two records of the mark CL1 in either order: the total is 28 both
    ways, the diameter is the one that comes first. *)
Lemma page2Grouped_totals_ignore_order_witness :
  let a := Page2Item.mk 15 (js "R10") (js "CL1") in
  let b := Page2Item.mk 13 (js "Y12") (js "CL1") in
  exactCounts [a; b]
  ∧ [a; b] ≡ₚ [b; a]
  ∧ Page2Group.total <$> page2Grouped [a; b] !! js "CL1" = Some (Num 28)
  ∧ Page2Group.total <$> page2Grouped [b; a] !! js "CL1" = Some (Num 28)
  ∧ Page2Group.diameter <$> page2Grouped [a; b] !! js "CL1" = Some (js "R10")
  ∧ Page2Group.diameter <$> page2Grouped [b; a] !! js "CL1" = Some (js "Y12").
Proof.
  intros a b.
  assert (exactCounts [a; b]) as Hexact.
  { split; [|by vm_compute].
    repeat (apply Forall_cons; split; [eexists; split; [done|lia]|]).
    constructor. }
  assert ([a; b] ≡ₚ [b; a]) as Hperm by apply Permutation_swap.
  split; [exact Hexact|]. split; [exact Hperm|].
  pose proof (page2Grouped_totals_ignore_order _ _ Hexact Hperm (js "CL1")) as Heq.
  assert (Page2Group.total <$> page2Grouped [a; b] !! js "CL1" = Some (Num 28))
    as H1 by (by vm_compute).
  split_and!; [exact H1|by rewrite <- Heq|by vm_compute|by vm_compute].
Defined.

(** ** The report and the highlighted cells *)

Lemma filter_fmap_commute {A B} (f : A → B) (P : B → Prop)
    `{!∀ y, Decision (P y)} (l : list A) :
  filter P (f <$> l) = f <$> filter (λ x, P (f x)) l.
Proof.
  induction l as [|x l IH]; [done|]. rewrite fmap_cons, !filter_cons, IH.
  by case_decide.
Qed.

Section ReportMore.
Context {row : Type}.
Context (mark : row → jsstring) (diff : row → number)
  (diameterMatch : row → bool).

Local Abbreviation marks := (mismatchedMarks mark diff diameterMatch).

Lemma mismatchedMarks_without m results ignoredRows :
  filter (λ m', m' ≠ m) (marks results ignoredRows) =
    mark <$> filter (λ r, mark r ≠ m ∧
                          isMismatch mark diff diameterMatch ignoredRows r)
               results.
Proof.
  unfold mismatchedMarks. by rewrite filter_fmap_commute, list_filter_filter.
Qed.

Lemma mismatchedMarks_ignored m results ignoredRows :
  truthy (ignoredRows !! m) = true →
  filter (λ m', m' ≠ m) (marks results ignoredRows) = marks results ignoredRows.
Proof.
  intros Hm. rewrite mismatchedMarks_without. unfold mismatchedMarks. f_equal.
  apply list_filter_iff. intros r. split; [by intros [_ ?]|].
  intros Hr. split; [|done]. intros <-.
  apply Is_true_true, isMismatch_spec in Hr as [_ Hr]. congruence.
Qed.

(** X4. A toggle of the ignore flag of a mark touches the entries of
    that mark in the report and no other: the other marks stay listed,
    in the same order.  Ignoring a mark takes all its entries out;
    taking the flag off again can only bring entries of that mark
    back. *)
Theorem toggleIgnore_touches_one_mark (m : jsstring) (results : list row)
    (ignoredRows : gmap jsstring bool) :
  let toggled := toggleIgnoreRows m ignoredRows in
  filter (λ m', m' ≠ m) (marks results toggled)
    = filter (λ m', m' ≠ m) (marks results ignoredRows)
  ∧ (truthy (ignoredRows !! m) = false →
       marks results toggled = filter (λ m', m' ≠ m) (marks results ignoredRows))
  ∧ (truthy (ignoredRows !! m) = true →
       marks results ignoredRows = filter (λ m', m' ≠ m) (marks results toggled)).
Proof.
  intros toggled.
  assert (filter (λ m', m' ≠ m) (marks results toggled)
          = filter (λ m', m' ≠ m) (marks results ignoredRows)) as Hothers.
  { rewrite !mismatchedMarks_without. f_equal. apply list_filter_iff.
    intros r. unfold isMismatch, toggled, toggleIgnoreRows.
    split; intros [Hne H]; (split; [done|]);
      by rewrite lookup_insert_ne in * by done. }
  split_and!; [done| |].
  - intros Hm. rewrite <- Hothers. symmetry. apply mismatchedMarks_ignored.
    unfold toggled, toggleIgnoreRows. by rewrite lookup_insert_eq, Hm.
  - intros Hm. rewrite Hothers. symmetry. by apply mismatchedMarks_ignored.
Qed.

(** X5. The report lists exactly the marks of the rows with a
    highlighted cell, in the order of the table, and a row whose mark
    is ignored has no highlighted cell. *)
Theorem report_lists_highlighted_rows (results : list row)
    (ignoredRows : gmap jsstring bool) :
  marks results ignoredRows =
    mark <$> filter (λ r, tallyStyle mark diff ignoredRows r
                          || extractedDiameterStyle mark diameterMatch ignoredRows r)
               results
  ∧ ∀ r, truthy (ignoredRows !! mark r) = true →
         tallyStyle mark diff ignoredRows r = false ∧
         extractedDiameterStyle mark diameterMatch ignoredRows r = false.
Proof.
  split.
  - unfold mismatchedMarks. f_equal. apply list_filter_iff. intros r.
    unfold isMismatch, tallyStyle, extractedDiameterStyle.
    by rewrite andb_orb_distrib_l.
  - intros r Hr. unfold tallyStyle, extractedDiameterStyle. rewrite Hr.
    by rewrite !andb_false_r.
Qed.
End ReportMore.

(** Three rows, of which CL1 and B2 are mismatched: ignoring CL1 leaves
    B2 alone in the report. *)
Lemma toggleIgnore_touches_one_mark_witness :
  let results :=
    GlobalHalve.tableData ordinalCompare
      [Page1Item.mk 60 (js "Y12") (js "CL1"); Page1Item.mk 4 (js "Y10") (js "A1");
       Page1Item.mk 9 (js "R8") (js "B2")]
      [Page2Item.mk 28 (js "R10") (js "CL1"); Page2Item.mk 4 (js "Y10") (js "A1")]
      false in
  truthy ((∅ : gmap jsstring bool) !! js "CL1") = false
  ∧ mismatchedMarks GlobalHalve.mark GlobalHalve.diff GlobalHalve.diameterMatch
      results ∅ = [js "B2"; js "CL1"]
  ∧ mismatchedMarks GlobalHalve.mark GlobalHalve.diff GlobalHalve.diameterMatch
      results (toggleIgnoreRows (js "CL1") ∅) = [js "B2"].
Proof.
  intros results.
  assert (truthy ((∅ : gmap jsstring bool) !! js "CL1") = false) as Hm by done.
  assert (mismatchedMarks GlobalHalve.mark GlobalHalve.diff
            GlobalHalve.diameterMatch results ∅ = [js "B2"; js "CL1"]) as Hbefore
    by (by vm_compute).
  split_and!; [exact Hm|exact Hbefore|].
  destruct (toggleIgnore_touches_one_mark GlobalHalve.mark GlobalHalve.diff
              GlobalHalve.diameterMatch (js "CL1") results ∅) as (_ & Hoff & _).
  rewrite (Hoff Hm), Hbefore. by vm_compute.
Defined.

(** The row of CL1 (28 tallied against 60 required, R10 against Y12)
    has both cells highlighted, and none once CL1 is ignored. *)
Lemma report_lists_highlighted_rows_witness :
  let r := GlobalHalve.tableRow
             (page2Grouped [Page2Item.mk 28 (js "R10") (js "CL1")]) false
             (Page1Item.mk 60 (js "Y12") (js "CL1")) in
  let ignoredRows := toggleIgnoreRows (js "CL1") ∅ in
  truthy (ignoredRows !! GlobalHalve.mark r) = true
  ∧ tallyStyle GlobalHalve.mark GlobalHalve.diff ∅ r = true
  ∧ extractedDiameterStyle GlobalHalve.mark GlobalHalve.diameterMatch ∅ r = true
  ∧ tallyStyle GlobalHalve.mark GlobalHalve.diff ignoredRows r = false
  ∧ extractedDiameterStyle GlobalHalve.mark GlobalHalve.diameterMatch
      ignoredRows r = false.
Proof.
  intros r ignoredRows.
  assert (truthy (ignoredRows !! GlobalHalve.mark r) = true) as Hr
    by (by vm_compute).
  destruct (report_lists_highlighted_rows GlobalHalve.mark GlobalHalve.diff
              GlobalHalve.diameterMatch [r] ignoredRows) as [_ Hplain].
  destruct (Hplain r Hr) as [Htally Hdiameter].
  split_and!; [exact Hr|by vm_compute|by vm_compute|exact Htally|exact Hdiameter].
Defined.

(** ** Comparing again *)

Lemma insertSorted_fmap {A} (compareFn : A → A → Z) (f : A → A) a l :
  (∀ x y, compareFn (f x) (f y) = compareFn x y) →
  insertSorted compareFn (f a) (f <$> l) = f <$> insertSorted compareFn a l.
Proof.
  intros Hf. induction l as [|b l IH]; [done|].
  rewrite fmap_cons. cbn [insertSorted]. rewrite Hf, IH. by case_decide.
Qed.

Lemma sort_fmap {A} (compareFn : A → A → Z) (f : A → A) l :
  (∀ x y, compareFn (f x) (f y) = compareFn x y) →
  sort compareFn (f <$> l) = f <$> sort compareFn l.
Proof.
  intros Hf. induction l as [|a l IH]; [done|].
  rewrite fmap_cons. cbn [sort]. by rewrite IH, insertSorted_fmap.
Qed.

(** The rows depend on the stored section views only through the
    section view in effect for the marks of the required list. *)
Lemma PerMarkDouble_tableData_ext localeCompare page1Data page2Data
    store1 flag1 store2 flag2 :
  (∀ item, item ∈ page1Data →
     PerMarkDouble.sectionView store1 flag1 (Page1Item.mark item)
     = PerMarkDouble.sectionView store2 flag2 (Page1Item.mark item)) →
  PerMarkDouble.tableData localeCompare page1Data page2Data store1 flag1
  = PerMarkDouble.tableData localeCompare page1Data page2Data store2 flag2.
Proof.
  intros H. unfold PerMarkDouble.tableData. f_equal.
  apply list_fmap_ext. intros i item Hitem%list_elem_of_lookup_2.
  unfold PerMarkDouble.tableRow. by rewrite (H item Hitem).
Qed.

(** The rows of a comparison under a store with one entry changed are
    the rows under the old store with the rows of that mark rewritten
    as [toggleInSection] rewrites them. *)
Lemma PerMarkDouble_tableData_insert localeCompare page1Data page2Data
    store flag m v :
  PerMarkDouble.tableData localeCompare page1Data page2Data (<[m := v]> store) flag
  = PerMarkDouble.toggledRow m v <$>
      PerMarkDouble.tableData localeCompare page1Data page2Data store flag.
Proof.
  unfold PerMarkDouble.tableData.
  rewrite <- sort_fmap by (intros x y; by rewrite !toggledRow_mark).
  f_equal. rewrite <- list_fmap_compose. apply list_fmap_ext. intros i item _.
  unfold PerMarkDouble.toggledRow, PerMarkDouble.tableRow,
    PerMarkDouble.sectionView. simpl.
  case_decide as Hm.
  - subst m. by rewrite lookup_insert_eq.
  - by rewrite lookup_insert_ne.
Qed.

Lemma seedInSection_fixed rows flag store :
  PerMarkDouble.seedInSection rows flag store = store ↔
  ∀ r, r ∈ rows → is_Some (store !! PerMarkDouble.mark r).
Proof.
  split.
  - intros Hfix r Hr.
    pose proof (seedInSection_lookup rows flag store (PerMarkDouble.mark r)) as H.
    rewrite Hfix in H. destruct (store !! PerMarkDouble.mark r); [by eexists|].
    rewrite decide_True in H by by apply list_elem_of_fmap_2. done.
  - intros Hall. apply map_eq. intros m. rewrite seedInSection_lookup.
    destruct (store !! m) eqn:E; [done|]. case_decide as Hin; [|done].
    apply list_elem_of_fmap in Hin as (r & -> & Hr).
    destruct (Hall r Hr) as [v Hv]. congruence.
Qed.

(** An up-to-date state, spelled out. *)
Lemma upToDate_spec localeCompare st :
  upToDate localeCompare st ↔
  ∃ page1Data page2Data,
    extractPage1Data (PerMarkDouble.text1 st) = Some page1Data ∧
    PerMarkDouble.extractPage2Data (PerMarkDouble.text2 st) = Some page2Data ∧
    PerMarkDouble.results st =
      PerMarkDouble.tableData localeCompare page1Data page2Data
        (PerMarkDouble.inSectionRows st) (PerMarkDouble.sectionAndLayout st) ∧
    ∀ item, item ∈ page1Data →
      is_Some (PerMarkDouble.inSectionRows st !! Page1Item.mark item).
Proof.
  unfold upToDate, PerMarkDouble.handleCompare.
  destruct (extractPage1Data _) as [page1Data|]; [|split; [done|by intros (?&?&?&_)]].
  destruct (PerMarkDouble.extractPage2Data _) as [page2Data|];
    [|split; [done|by intros (?&?&_&?&_)]].
  simpl. split.
  - intros H. exists page1Data, page2Data. destruct st as [t1 t2 rows flag store ign].
    simpl in *. injection H as Hrows Hstore. split_and!; [done|done|done|].
    intros item Hitem. rewrite Hrows in Hstore.
    apply seedInSection_fixed with (r := PerMarkDouble.tableRow
              (page2Grouped page2Data) store flag item) in Hstore; [done|].
    rewrite <- Hrows. apply PerMarkDouble_elem_of_tableData. by exists item.
  - intros (p1 & p2 & [= <-] & [= <-] & Hrows & Hall).
    destruct st as [t1 t2 rows flag store ign]. simpl in *.
    rewrite <- Hrows. f_equal. f_equal. apply seedInSection_fixed.
    intros r Hr. rewrite Hrows in Hr.
    apply PerMarkDouble_elem_of_tableData in Hr as (item & Hitem & ->).
    by apply Hall.
Qed.

Lemma handleCompare_upToDate localeCompare st st1 :
  PerMarkDouble.handleCompare localeCompare st = Some st1 →
  upToDate localeCompare st1.
Proof.
  intros H. apply upToDate_spec. revert H. unfold PerMarkDouble.handleCompare.
  destruct (extractPage1Data _) as [page1Data|] eqn:E1; [|done].
  destruct (PerMarkDouble.extractPage2Data _) as [page2Data|] eqn:E2; [|done].
  intros [= <-]. simpl. exists page1Data, page2Data.
  assert (∀ item, item ∈ page1Data →
            PerMarkDouble.seedInSection
              (PerMarkDouble.tableData localeCompare page1Data page2Data
                 (PerMarkDouble.inSectionRows st) (PerMarkDouble.sectionAndLayout st))
              (PerMarkDouble.sectionAndLayout st) (PerMarkDouble.inSectionRows st)
            !! Page1Item.mark item
            = Some (PerMarkDouble.sectionView (PerMarkDouble.inSectionRows st)
                      (PerMarkDouble.sectionAndLayout st) (Page1Item.mark item)))
    as Hseed.
  { intros item Hitem. rewrite seedInSection_lookup.
    unfold PerMarkDouble.sectionView.
    destruct (PerMarkDouble.inSectionRows st !! Page1Item.mark item); [done|].
    rewrite decide_True; [done|].
    rewrite PerMarkDouble_tableData_marks. by apply list_elem_of_fmap_2. }
  split_and!; [done|done| |].
  - apply PerMarkDouble_tableData_ext. intros item Hitem.
    unfold PerMarkDouble.sectionView at 2. by rewrite (Hseed item Hitem).
  - intros item Hitem. rewrite (Hseed item Hitem). by eexists.
Qed.

Lemma act_upToDate localeCompare a st :
  upToDate localeCompare st → upToDate localeCompare (act a st).
Proof.
  rewrite !upToDate_spec. intros (p1 & p2 & E1 & E2 & Hrows & Hall).
  exists p1, p2. destruct a as [m|m|checked]; simpl.
  - split_and!; [done|done| |].
    + by rewrite Hrows, PerMarkDouble_tableData_insert.
    + intros item Hitem. rewrite lookup_insert. case_decide; [by eexists|].
      by apply Hall.
  - by split_and!.
  - split_and!; [done|done| |done].
    rewrite Hrows. apply PerMarkDouble_tableData_ext. intros item Hitem.
    unfold PerMarkDouble.sectionView.
    by destruct (Hall item Hitem) as [v ->].
Qed.

(** X6. After a comparison, whatever the user then does to the table
    (section view of a row, ignore flag of a row, the global check box),
    a new comparison of the same two texts changes nothing: it keeps
    every row, every stored section view and every ignore flag as they
    are.  In particular the global check box has no effect on the marks
    that have been compared once. *)
Theorem compare_after_actions_changes_nothing localeCompare st st1
    (actions : list action) :
  PerMarkDouble.handleCompare localeCompare st = Some st1 →
  PerMarkDouble.handleCompare localeCompare (acts actions st1)
  = Some (acts actions st1).
Proof.
  intros H%handleCompare_upToDate. revert st1 H. unfold acts.
  induction actions as [|a actions IH]; intros st1 H; [done|].
  simpl. apply IH. by apply act_upToDate.
Qed.

(** A comparison with the global box ticked, then the box cleared and
    the row of CL1 toggled: the next comparison keeps the difference
    28 - 60 of the toggled row. *)
Lemma compare_after_actions_changes_nothing_witness :
  let st0 := PerMarkDouble.mkApp (js "60 Y12 3550 60 CL1 4 Y10 8 4 A1")
               (js "15 R10 - CL1 - 600 13R10-CL1") [] true ∅ ∅ in
  let actions := [SetSectionAndLayout false; ToggleInSection (js "CL1")] in
  ∃ st1 st2,
    PerMarkDouble.handleCompare ordinalCompare st0 = Some st1
    ∧ PerMarkDouble.handleCompare ordinalCompare (acts actions st1) = Some st2
    ∧ st2 = acts actions st1
    ∧ PerMarkDouble.diff <$> PerMarkDouble.results st1 = Num <$> [0 - 8; 28 - 120]
    ∧ PerMarkDouble.diff <$> PerMarkDouble.results st2 = Num <$> [0 - 8; 28 - 60].
Proof.
  intros st0 actions.
  destruct (PerMarkDouble.handleCompare ordinalCompare st0) as [st1|] eqn:E;
    [|by vm_compute in E].
  exists st1, (acts actions st1).
  pose proof (compare_after_actions_changes_nothing ordinalCompare st0 st1 actions E)
    as Hagain.
  split_and!; [done|exact Hagain|done| |];
    vm_compute in E; injection E as <-; by vm_compute.
Defined.

(** X7. In a state that is up to date, two toggles of the section view
    of a mark give back the rows as they were, and the whole state when
    the mark is the mark of a row. *)
Theorem toggleInSection_twice localeCompare (m : jsstring)
    (st : PerMarkDouble.state) :
  upToDate localeCompare st →
  let twice := PerMarkDouble.toggleInSection m (PerMarkDouble.toggleInSection m st) in
  PerMarkDouble.results twice = PerMarkDouble.results st
  ∧ (m ∈ PerMarkDouble.mark <$> PerMarkDouble.results st → twice = st).
Proof.
  intros Hup. pose proof Hup as (p1 & p2 & E1 & E2 & Hrows & Hall)%upToDate_spec.
  destruct st as [t1 t2 rows flag store ign]. simpl in *.
  set (v := truthy (store !! m)).
  assert (toggledRow_twice :
    PerMarkDouble.toggledRow m (negb (truthy (<[m := negb v]> store !! m)))
      <$> (PerMarkDouble.toggledRow m (negb v) <$> rows)
    = PerMarkDouble.toggledRow m v <$> rows).
  { rewrite lookup_insert_eq. simpl. rewrite negb_involutive.
    rewrite Hrows, <- !PerMarkDouble_tableData_insert. by rewrite insert_insert_eq. }
  assert (m ∈ PerMarkDouble.mark <$> rows → store !! m = Some v) as Hseeded.
  { rewrite Hrows, PerMarkDouble_tableData_marks.
    intros (item & -> & Hitem)%list_elem_of_fmap. subst v.
    by destruct (Hall item Hitem) as [w ->]. }
  assert (PerMarkDouble.toggledRow m v <$> rows = rows) as Hsame.
  { destruct (decide (m ∈ PerMarkDouble.mark <$> rows)) as [Hin|Hnin].
    - rewrite Hrows at 1. rewrite <- PerMarkDouble_tableData_insert.
      by rewrite (insert_id _ _ _ (Hseeded Hin)).
    - rewrite <- (list_fmap_id rows) at 2. apply list_fmap_ext.
      intros i r Hr%list_elem_of_lookup_2. apply toggledRow_other.
      intros <-. apply Hnin. by apply list_elem_of_fmap_2. }
  unfold PerMarkDouble.toggleInSection. simpl. fold v.
  rewrite toggledRow_twice, Hsame. split; [done|].
  intros Hin. f_equal. rewrite lookup_insert_eq. simpl. rewrite negb_involutive.
  rewrite insert_insert_eq. by apply insert_id, Hseeded.
Qed.

(** Two toggles of the row of CL1 after a comparison. *)
Lemma toggleInSection_twice_witness :
  let st0 := PerMarkDouble.mkApp (js "60 Y12 3550 60 CL1")
               (js "15 R10 - CL1 - 600 13R10-CL1") [] false ∅ ∅ in
  ∃ st, PerMarkDouble.handleCompare ordinalCompare st0 = Some st
    ∧ upToDate ordinalCompare st
    ∧ js "CL1" ∈ PerMarkDouble.mark <$> PerMarkDouble.results st
    ∧ PerMarkDouble.toggleInSection (js "CL1")
        (PerMarkDouble.toggleInSection (js "CL1") st) = st.
Proof.
  intros st0.
  destruct (PerMarkDouble.handleCompare ordinalCompare st0) as [st|] eqn:E;
    [|by vm_compute in E].
  exists st. pose proof (handleCompare_upToDate _ _ _ E) as Hup.
  assert (js "CL1" ∈ PerMarkDouble.mark <$> PerMarkDouble.results st) as Hin.
  { vm_compute in E. injection E as <-. apply list_elem_of_here. }
  split_and!; [done|exact Hup|exact Hin|].
  by apply (toggleInSection_twice ordinalCompare (js "CL1") st Hup).
Defined.

(** ** Extraction of a schedule that is well formed *)

Lemma lastOr_cons pv c cs : lastOr pv (c :: cs) = lastOr (Some c) cs.
Proof. unfold lastOr. rewrite last_cons. by destruct (last cs). Qed.

(** A greedy quantifier takes a whole run when the run ends in front of
    a code unit outside the class and what follows the quantifier
    matches there. *)
Lemma repeatMatcher_greedy p caps (k : Continuation) z inp' : ∀ cs min max pv,
  Forall (λ c, p c = true) cs →
  from_option p false (head inp') = false →
  (min ≤ length cs)%nat →
  (∀ n, max = Some n → (length cs ≤ n)%nat) →
  k (mkState (lastOr pv cs) inp' caps) = Some z →
  repeatMatcher p min max caps k pv (cs ++ inp') = Some z.
Proof.
  induction cs as [|c cs IH]; intros min max pv Hcs Hnext Hmin Hmax Hk.
  - simpl in *. assert (min = 0%nat) as -> by lia.
    destruct inp' as [|c inp']; simpl in *.
    + by case_bool_decide.
    + rewrite Hnext. by case_bool_decide.
  - apply Forall_cons in Hcs as [Hc Hcs]. simpl.
    rewrite bool_decide_eq_false_2
      by (intros E; specialize (Hmax _ E); simpl in Hmax; lia).
    rewrite Hc. rewrite lastOr_cons in Hk.
    rewrite (IH (Nat.pred min) (Nat.pred <$> max) (Some c)); try done.
    + by destruct min.
    + simpl in Hmin. lia.
    + intros n Hn. destruct max as [n'|]; [|done].
      specialize (Hmax n' eq_refl). simpl in Hmax, Hn. injection Hn as <-. lia.
Qed.

Lemma setCapture_app i pv cs inp' caps0 pv' caps :
  setCapture i (mkState pv (cs ++ inp') caps0) (mkState pv' inp' caps)
  = mkState pv' inp' (<[i := Some cs]> caps).
Proof. unfold setCapture. simpl. f_equal. by rewrite (consumed_app _ _ cs). Qed.

Lemma matcher_digits ds inp' pv caps (k : Continuation) z :
  digitRun ds → from_option isDigit false (head inp') = false →
  k (mkState (lastOr pv ds) inp' caps) = Some z →
  matcher digits (mkState pv (ds ++ inp') caps) k = Some z.
Proof.
  intros [Hne Hds] Hnext Hk. simpl. apply repeatMatcher_greedy; try done.
  destruct ds; simpl; [done|lia].
Qed.

Lemma matcher_spaces ws inp' pv caps (k : Continuation) z :
  gap ws → from_option isSpace false (head inp') = false →
  k (mkState (lastOr pv ws) inp' caps) = Some z →
  matcher spaces (mkState pv (ws ++ inp') caps) k = Some z.
Proof.
  intros [Hne Hws] Hnext Hk. simpl. apply repeatMatcher_greedy; try done.
  destruct ws; simpl; [done|lia].
Qed.

Lemma matcher_diameterToken dia inp' pv caps (k : Continuation) z :
  diameterString dia → from_option isDigit false (head inp') = false →
  k (mkState (last dia) inp' caps) = Some z →
  matcher diameterToken (mkState pv (dia ++ inp') caps) k = Some z.
Proof.
  intros (d & ds & -> & Hd & Hds) Hnext Hk. simpl. rewrite Hd.
  apply repeatMatcher_greedy; try done.
  - by destruct Hds.
  - destruct Hds as [Hne _]. destruct ds; simpl; [done|lia].
  - destruct Hds as [Hne _]. rewrite <- Hk. do 2 f_equal.
    unfold lastOr. rewrite last_cons. by destruct (last ds).
Qed.

Lemma matcher_markToken mk inp' pv caps (k : Continuation) z :
  markString mk → from_option isDigit false (head inp') = false →
  k (mkState (last mk) inp' caps) = Some z →
  matcher markToken (mkState pv (mk ++ inp') caps) k = Some z.
Proof.
  intros (ls & ds & -> & [Hlen Hls] & [Hne Hds]) Hnext Hk. simpl.
  rewrite <- app_assoc.
  destruct ds as [|d ds]; [done|]. apply Forall_cons in Hds as [Hd Hds].
  apply repeatMatcher_greedy; try done.
  - simpl. by destruct (digit_lineUnit d Hd) as (_ & _ & ->).
  - lia.
  - intros n [= <-]. lia.
  - apply repeatMatcher_greedy; try done.
    + by constructor.
    + simpl. lia.
    + rewrite <- Hk. do 2 f_equal. rewrite last_app. simpl.
      unfold lastOr. rewrite last_cons. by destruct (last ds).
Qed.

Lemma digit_wordChar c : isDigit c = true → isWordChar c = true.
Proof. intros H. unfold isWordChar. rewrite H. by rewrite !orb_true_r. Qed.

Lemma head_digitRun ds inp' (q : N → bool) :
  digitRun ds → from_option q false (head (ds ++ inp')) = from_option q false (head ds).
Proof. intros [Hne _]. by destruct ds. Qed.

Lemma last_digitRun ds : digitRun ds → ∃ d, last ds = Some d ∧ isDigit d = true.
Proof.
  intros (ds' & d & -> & Hd)%digitRun_last. exists d. by rewrite last_snoc.
Qed.

Lemma last_markString mk : markString mk → ∃ d, last mk = Some d ∧ isDigit d = true.
Proof.
  intros (ls & ds & -> & _ & (d & Hd & ?)%last_digitRun). exists d.
  split; [|done]. rewrite last_app. by rewrite Hd.
Qed.

Lemma head_diameterString dia inp' :
  diameterString dia →
  ∃ d, head (dia ++ inp') = Some d ∧ isUpper d = true.
Proof. intros (d & ds & -> & Hd & _). by exists d. Qed.

Lemma head_markString mk inp' :
  markString mk → ∃ d, head (mk ++ inp') = Some d ∧ isUpper d = true.
Proof.
  intros (ls & ds & -> & [Hlen Hls] & _). destruct ls as [|c ls]; simpl in *; [lia|].
  apply Forall_cons in Hls as [Hc _]. by exists c.
Qed.

Lemma head_digit ds inp' :
  digitRun ds → ∃ d, head (ds ++ inp') = Some d ∧ isDigit d = true.
Proof.
  intros (d & ds' & -> & Hd)%digitRun_first. by exists d.
Qed.

Lemma nonword_units c :
  isWordChar c = false → isDigit c = false ∧ isUpper c = false.
Proof.
  unfold isWordChar. rewrite !orb_false_iff. by intros [[[_ ?] ?] _].
Qed.

Lemma space_nonword c : isSpace c = true → isWordChar c || isDash c = false.
Proof.
  unfold isSpace, isWordChar, isUpper, isDigit, isDash, between.
  rewrite !orb_true_iff, !andb_true_iff, !orb_false_iff, !andb_false_iff,
          !N.leb_le, !N.leb_gt, !N.eqb_eq, !N.eqb_neq. lia.
Qed.

(** The steps of the matcher along a sequence. *)
Lemma matcher_boundary r x (k : Continuation) :
  xorb (wordBefore x) (wordAfter x) = true →
  matcher (Seq WordBoundary r) x k = matcher r x k.
Proof. intros H. simpl. by rewrite H. Qed.

Lemma matcher_group i r r' x (k : Continuation) :
  matcher (Seq (Group i r) r') x k
  = matcher r x (λ y, matcher r' (setCapture i x y) k).
Proof. done. Qed.

Lemma matcher_then r r' x (k : Continuation) :
  matcher (Seq r r') x k = matcher r x (λ y, matcher r' y k).
Proof. done. Qed.

Lemma matcher_dash r pv inp caps (k : Continuation) :
  matcher (Seq (Class isDash) r) (mkState pv (45%N :: inp) caps) k
  = matcher r (mkState (Some 45%N) inp caps) k.
Proof. done. Qed.

Lemma matcher_empty x (k : Continuation) : matcher Empty x k = k x.
Proof. done. Qed.

Lemma matcher_optional r r' x (k : Continuation) :
  matcher (Seq (Optional r) r') x k
  = match matcher r x (λ y, matcher r' y k) with
    | Some z => Some z
    | None => matcher r' x k
    end.
Proof. done. Qed.

Lemma matcher_last_boundary x :
  xorb (wordBefore x) (wordAfter x) = true →
  matcher (Seq WordBoundary Empty) x Some = Some x.
Proof. intros H. simpl. by rewrite H. Qed.

(** At the start of a well-formed tally line that follows a code unit
    which is not a word character, and is followed by white space or by
    the end of the text, the strict pattern matches the line, all of
    it, with its three fields in the groups. *)
Lemma page2PatternStrict_line l pv inp' :
  tallyLineOk l →
  from_option isWordChar false pv = false →
  from_option (λ c, isWordChar c || isDash c) false (head inp') = false →
  ∃ pv', matcher page2PatternStrict
           (mkState pv (tallyLineText l ++ inp') (replicate 4 None)) Some
         = Some (mkState pv' inp'
                   [None; Some (lineCount l); Some (lineDiameter l);
                    Some (lineMark l)]).
Proof.
  destruct l as [cnt dia mk sfx]. unfold tallyLineOk, tallyLineText.
  cbn [lineCount lineDiameter lineMark lineSuffix].
  intros (Hcnt & Hdia & Hmk & Hsfx) Hpv Hnext.
  assert (from_option isDigit false (head inp') = false
          ∧ from_option isDash false (head inp') = false
          ∧ from_option isWordChar false (head inp') = false) as (Hnd & Hnh & Hnw).
  { destruct inp' as [|c inp']; [done|]. simpl in *.
    apply orb_false_elim in Hnext as [Hw Hd].
    by destruct (nonword_units c Hw). }
  destruct (last_markString mk Hmk) as (dm & Hlast & Hdm).
  assert (∀ tail after (k : Continuation) z,
            from_option isDigit false (head tail) = false →
            matcher after
              (mkState (last mk) tail [None; Some cnt; Some dia; Some mk]) k
            = Some z →
            matcher (Seq WordBoundary (Seq (Group 1 digits)
                      (Seq (Group 2 diameterToken) (Seq (Class isDash)
                        (Seq (Group 3 markToken) after)))))
              (mkState pv (cnt ++ dia ++ 45%N :: mk ++ tail) (replicate 4 None)) k
            = Some z) as Hfields.
  { intros tail after k z Htail Hk.
    rewrite matcher_boundary.
    2:{ unfold wordBefore, wordAfter. simpl. rewrite Hpv.
        destruct (head_digit cnt (dia ++ 45%N :: mk ++ tail) Hcnt)
          as (d & -> & Hd). simpl. by rewrite (digit_wordChar d Hd). }
    rewrite matcher_group. apply matcher_digits; [done| |].
    { destruct (head_diameterString dia (45%N :: mk ++ tail) Hdia)
        as (d & -> & Hd). simpl.
      destruct (isDigit d) eqn:E; [|done].
      by destruct (digit_lineUnit d E) as (_ & _ & ?); congruence. }
    cbv beta. rewrite setCapture_app.
    rewrite matcher_group. apply matcher_diameterToken; [done|done|].
    cbv beta. rewrite setCapture_app, matcher_dash.
    rewrite matcher_group. apply matcher_markToken; [done|done|].
    cbv beta. rewrite setCapture_app. exact Hk. }
  unfold page2PatternStrict. cbn [Seqs].
  repeat (rewrite <- app_assoc || rewrite <- app_comm_cons).
  destruct sfx as [sfx|]; cbn [from_option].
  - destruct (last_digitRun sfx Hsfx) as (ds & Hls & Hds).
    exists (last sfx). apply Hfields; [done|].
    rewrite matcher_optional, <- app_comm_cons, matcher_dash, (matcher_then digits).
    erewrite matcher_digits; [reflexivity|done|done|].
    cbv beta. rewrite matcher_empty. cbv beta.
    rewrite matcher_last_boundary; [by unfold lastOr; rewrite Hls|].
    unfold wordBefore, wordAfter, lastOr. simpl. rewrite Hls, Hnw. simpl.
    by rewrite (digit_wordChar ds Hds).
  - exists (last mk). simpl app. apply Hfields; [done|].
    rewrite matcher_optional.
    assert (matcher (Seq (Class isDash) (Seq digits Empty))
              (mkState (last mk) inp' [None; Some cnt; Some dia; Some mk])
              (λ y, matcher (Seq WordBoundary Empty) y Some) = None) as ->.
    { simpl. destruct inp' as [|c inp']; [done|]. simpl in Hnh. by rewrite Hnh. }
    rewrite matcher_last_boundary; [done|].
    unfold wordBefore, wordAfter. simpl. rewrite Hlast, Hnw. simpl.
    by rewrite (digit_wordChar dm Hdm).
Qed.



Lemma demands_Repeat q n max : max ≠ Some 0%nat → demands q (Repeat q (S n) max).
Proof.
  intros Hmax x k Hq. simpl. destruct x as [pv inp caps]. simpl in *.
  destruct inp as [|c inp]; simpl in *.
  - by rewrite bool_decide_eq_false_2.
  - rewrite bool_decide_eq_false_2 by done. by rewrite Hq.
Qed.

Lemma page1Pattern_startsAtDigit : startsAtDigit page1Pattern.
Proof.
  eexists. split; [reflexivity|].
  by apply demands_Seq, demands_Group, demands_Repeat.
Qed.

Lemma page2PatternStrict_startsAtDigit : startsAtDigit page2PatternStrict.
Proof.
  eexists. split; [reflexivity|].
  by apply demands_Seq, demands_Group, demands_Repeat.
Qed.

Lemma space_nondigit c : isSpace c = true → isDigit c = false.
Proof.
  intros Hc. destruct (isDigit c) eqn:E; [|done].
  destruct (digit_lineUnit c E) as ([? _] & _). congruence.
Qed.

(** A pattern that starts [\b\d] matches neither at the end of the text
    nor in front of white space. *)
Lemma exec_nil r pv : startsAtDigit r → exec r pv [] = None.
Proof.
  intros (r' & -> & Hr'). simpl. rewrite Hr' by done. by destruct (xorb _ _).
Qed.

Lemma exec_blank r s inp pv :
  startsAtDigit r → blank s → exec r pv (s ++ inp) = exec r (lastOr pv s) inp.
Proof.
  intros (r' & -> & Hr') Hs. revert pv.
  induction Hs as [|c s Hc _ IH]; intros pv; [done|].
  rewrite lastOr_cons, <- IH. simpl.
  rewrite Hr' by (simpl; by apply space_nondigit). by destruct (xorb _ _).
Qed.

Lemma lastOr_nonword pv s :
  blank s → s ≠ [] ∨ from_option isWordChar false pv = false →
  from_option isWordChar false (lastOr pv s) = false.
Proof.
  intros Hs Hor. unfold lastOr. destruct (last s) as [c|] eqn:E.
  - simpl. apply last_Some in E as [s' ->].
    apply Forall_app in Hs as [_ [Hc%space_nonword _]%Forall_cons].
    by apply orb_false_elim in Hc as [? _].
  - apply last_None in E as ->. by destruct Hor.
Qed.

Lemma head_blank s (q : N → bool) :
  blank s → (∀ c, isSpace c = true → q c = false) →
  from_option q false (head s) = false.
Proof. intros Hs Hq. destruct Hs; simpl; auto. Qed.

Lemma exec_here r pv inp y :
  matcher r (mkState pv inp (replicate 4 None)) Some = Some y →
  exec r pv inp = Some y.
Proof. intros H. destruct inp; cbn [exec]; by rewrite H. Qed.

Section Lines.
Context {L A : Type} (r : regex) (push : list (option jsstring) → option A).
Context (text : L → jsstring) (record : L → A) (ok : L → Prop).

Hypothesis r_starts : startsAtDigit r.
Hypothesis r_line : ∀ l pv inp',
  ok l →
  from_option isWordChar false pv = false →
  from_option (λ c, isWordChar c || isDash c) false (head inp') = false →
  ∃ y, matcher r (mkState pv (text l ++ inp') (replicate 4 None)) Some = Some y
       ∧ rest y = inp' ∧ push (captures y) = Some (record l).

(** The loop over a text of well-formed lines finds the lines one by
    one. *)
Lemma execLoop_lines : ∀ (lines : list (L * jsstring)) lead pv fuel,
  blank lead →
  (lines ≠ [] → lead ≠ [] ∨ from_option isWordChar false pv = false) →
  Forall (λ ls, ok ls.1) lines → separated lines →
  (length lines < fuel)%nat →
  execLoop push r fuel pv (lead ++ linesText text lines)
  = Some ((λ ls, record ls.1) <$> lines).
Proof.
  induction lines as [|[l sep] lines IH]; intros lead pv fuel Hlead Hpv Hok Hsep Hfuel.
  - destruct fuel as [|fuel]; [simpl in Hfuel; lia|].
    unfold linesText. simpl. rewrite app_nil_r.
    rewrite <- (app_nil_r lead), exec_blank, exec_nil by done. done.
  - destruct fuel as [|fuel]; [simpl in Hfuel; lia|].
    apply Forall_cons in Hok as [Hl Hok]. simpl in Hl.
    assert (blank sep ∧ (lines ≠ [] → sep ≠ [])) as [Hblank Hgap].
    { destruct lines as [|ls' lines]; simpl in Hsep; [done|].
      destruct Hsep as [[? ?] _]. done. }
    assert (separated lines) as Hsep'.
    { destruct lines as [|ls' lines]; [done|]. by destruct Hsep. }
    unfold linesText. rewrite fmap_cons. cbn [concat].
    fold (linesText text lines). cbn [fst snd]. rewrite <- app_assoc.
    destruct (r_line l (lastOr pv lead) (sep ++ linesText text lines) Hl)
      as (y & Hy & Hrest & Hpush).
    { apply lastOr_nonword; [done|]. by apply Hpv. }
    { destruct sep as [|c sep].
      - destruct lines as [|ls' lines]; [done|]. by destruct Hgap.
      - simpl. apply Forall_cons in Hblank as [Hc _]. by apply space_nonword. }
    cbn [execLoop]. rewrite exec_blank by done.
    assert (exec r (lastOr pv lead) (text l ++ sep ++ linesText text lines) = Some y)
      as ->.
    { by apply exec_here. }
    rewrite Hpush. simpl. rewrite Hrest.
    rewrite IH; [done|done| |done|done|simpl in Hfuel; lia].
    intros Hne. left. by apply Hgap.
Qed.
End Lines.

Lemma tallyLine_strictLine l : tallyLineOk l → strictLine (tallyLineText l).
Proof.
  destruct l as [cnt dia mk [sfx|]]; unfold tallyLineOk, tallyLineText; simpl;
    intros (Hcnt & Hdia & Hmk & Hsfx).
  - by apply strictLine_suffix.
  - rewrite app_nil_r. by apply strictLine_plain.
Qed.

Lemma strictText_blank s text : blank s → strictText text → strictText (s ++ text).
Proof.
  intros Hs Htext. induction Hs as [|c s Hc _ IH]; [done|].
  by apply strictText_space.
Qed.

Lemma tallyLines_strictText (lines : list (tallyLine * jsstring)) :
  Forall (λ ls, tallyLineOk ls.1) lines → separated lines →
  strictText (linesText tallyLineText lines).
Proof.
  induction lines as [|[l sep] lines IH]; intros Hok Hsep; [constructor|].
  apply Forall_cons in Hok as [Hl%tallyLine_strictLine Hok].
  unfold linesText. rewrite fmap_cons. cbn [concat fst snd].
  fold (linesText tallyLineText lines). rewrite <- app_assoc.
  destruct lines as [|ls' lines].
  - simpl in Hsep. unfold linesText. simpl. rewrite app_nil_r.
    destruct sep as [|c sep]; [rewrite app_nil_r; by constructor|].
    apply Forall_cons in Hsep as [Hc Hsep]. apply strictText_line; [done|done|].
    rewrite <- (app_nil_r sep). apply strictText_blank; [done|constructor].
  - destruct Hsep as [[Hne Hblank] Hsep]. destruct sep as [|c sep]; [done|].
    apply Forall_cons in Hblank as [Hc Hblank]. rewrite <- app_comm_cons.
    apply strictText_line; [done|done|]. apply strictText_blank; [done|].
    by apply IH.
Qed.

(** [parseInt] reads a run of digits as the Number nearest to the
    integer that the digits write, which is that integer up to 2^53. *)
Lemma parseDigits_foldl s : ∀ n,
  Forall (λ c, isDigit c = true) s →
  parseDigits n s = foldl (λ n c, 10 * n + (Z.of_N c - 48)) n s.
Proof.
  induction s as [|c s IH]; intros n Hs; [done|].
  apply Forall_cons in Hs as [Hc Hs]. simpl. rewrite Hc. by apply IH.
Qed.

Lemma parseInt_written s : digitRun s → parseInt s = written s.
Proof.
  intros Hs. rewrite parseInt_digitRun by done. unfold written, decimal.
  by rewrite parseDigits_foldl by apply Hs.
Qed.

Lemma written_exact s :
  digitRun s → decimal s ≤ 2 ^ 53 → written s = Num (decimal s).
Proof.
  intros [_ Hs] Hle. apply toNumber_exact. split; [|done].
  unfold decimal. rewrite <- parseDigits_foldl by done.
  pose proof (parseDigits_nonneg s 0). lia.
Qed.

(** Both tally extractors on a text of well-formed lines. *)
Lemma tallyLines_extracted (lead : jsstring)
    (lines : list (tallyLine * jsstring)) :
  blank lead → Forall (λ ls, tallyLineOk ls.1) lines → separated lines →
  let text := lead ++ linesText tallyLineText lines in
  GlobalHalve.extractPage2Data text = Some ((λ ls, tallyLineRecord ls.1) <$> lines)
  ∧ PerMarkDouble.extractPage2Data text
    = Some ((λ ls, tallyLineRecord ls.1) <$> lines).
Proof.
  intros Hlead Hok Hsep text.
  assert (GlobalHalve.extractPage2Data text
          = Some ((λ ls, tallyLineRecord ls.1) <$> lines)) as Hstrict.
  { unfold GlobalHalve.extractPage2Data, extractPage2DataWith.
    destruct (execLoop_total pushPage2 page2PatternStrict) with
      (fuel := S (length text)) (pv := @None N) (inp := text)
      as (data & -> & Hany); [simpl; lia| |lia|].
    { intros pv inp y (m1 & m2 & m3 & ->)%exec_captures; [|done]. by eexists. }
    rewrite <- (Hany (S (length text + length lines))) by lia.
    apply (execLoop_lines _ _ _ _ tallyLineOk); try done; [| |by right|lia].
    - apply page2PatternStrict_startsAtDigit.
    - intros l pv inp' Hl Hpv Hnext.
      destruct (page2PatternStrict_line l pv inp' Hl Hpv Hnext) as (pv' & Hm).
      eexists. split; [exact Hm|]. split; [done|].
      cbn [captures pushPage2]. unfold tallyLineRecord.
      by rewrite (parseInt_written _ (proj1 Hl)). }
  split; [done|]. rewrite <- Hstrict.
  unfold PerMarkDouble.extractPage2Data, GlobalHalve.extractPage2Data,
    extractPage2DataWith.
  apply execLoop_agree; [apply page2Patterns_agree|].
  apply strictText_spacesApart, strictText_blank; [done|].
  by apply tallyLines_strictText.
Qed.

(** X8. A tally text made of well-formed lines (count, diameter, dash,
    mark, and possibly a dash and an integer) with white space before,
    between and after them is read back line by line: both tally
    extractors return exactly one record per line, in the order of the
    text, with the diameter and the mark of the line and, as count,
    the Number nearest to the integer that the digits of the line
    write, which is that integer when it is 2^53 at most; the suffix
    is dropped. *)
Theorem tally_lines_read_back (lead : jsstring)
    (lines : list (tallyLine * jsstring)) :
  blank lead → Forall (λ ls, tallyLineOk ls.1) lines → separated lines →
  let text := lead ++ linesText tallyLineText lines in
  GlobalHalve.extractPage2Data text = Some ((λ ls, tallyLineRecord ls.1) <$> lines)
  ∧ PerMarkDouble.extractPage2Data text
    = Some ((λ ls, tallyLineRecord ls.1) <$> lines)
  ∧ Forall (λ ls, decimal (lineCount ls.1) ≤ 2 ^ 53 →
                  Page2Item.count (tallyLineRecord ls.1)
                  = Num (decimal (lineCount ls.1))) lines.
Proof.
  intros Hlead Hok Hsep text.
  destruct (tallyLines_extracted lead lines Hlead Hok Hsep) as [Hstrict Htolerant].
  split_and!; [done|done|].
  eapply Forall_impl; [exact Hok|]. intros ls Hl Hle.
  apply written_exact; [apply Hl|exact Hle].
Qed.

Ltac solve_digitRun := by (split; [done|by repeat constructor]).

(** Two lines, one with a suffix and one without, as a page of text
    would hold them. *)
Lemma tally_lines_read_back_witness :
  let lines := [(mkTallyLine (js "15") (js "R10") (js "CL1") (Some (js "600")), js " ");
                (mkTallyLine (js "2") (js "Y16") (js "LS1") None, [10%N])] in
  blank (js " ") ∧ Forall (λ ls, tallyLineOk ls.1) lines ∧ separated lines
  ∧ js " " ++ linesText tallyLineText lines = js " 15R10-CL1-600 2Y16-LS1" ++ [10%N]
  ∧ GlobalHalve.extractPage2Data (js " 15R10-CL1-600 2Y16-LS1" ++ [10%N])
    = Some [Page2Item.mk 15 (js "R10") (js "CL1");
            Page2Item.mk 2 (js "Y16") (js "LS1")].
Proof.
  intros lines.
  assert (blank (js " ")) as Hlead by (by repeat constructor).
  assert (Forall (λ ls, tallyLineOk ls.1) lines) as Hok.
  { apply Forall_cons. split; [|apply Forall_cons; split; [|constructor]].
    - split_and!; simpl; [solve_digitRun| | |solve_digitRun].
      + exists 82%N, (js "10"). split_and!; [done|done|solve_digitRun].
      + exists (js "CL"), (js "1"). split_and!; [done| |solve_digitRun].
        split; [simpl; lia|by repeat constructor].
    - split_and!; simpl; [solve_digitRun| | |done].
      + exists 89%N, (js "16"). split_and!; [done|done|solve_digitRun].
      + exists (js "LS"), (js "1"). split_and!; [done| |solve_digitRun].
        split; [simpl; lia|by repeat constructor]. }
  assert (separated lines) as Hsep.
  { split; [split; [done|by repeat constructor]|by repeat constructor]. }
  split_and!; [exact Hlead|exact Hok|exact Hsep|reflexivity|].
  destruct (tally_lines_read_back (js " ") lines Hlead Hok Hsep) as [Hstrict _].
  exact Hstrict.
Defined.

(** Beyond 2^53 the count is the nearest double: the entry of
    9007199254740993 bars is read with the count 9007199254740992. *)
Example tally_count_beyond_exact_range :
  GlobalHalve.extractPage2Data (js "9007199254740993Y12-A1")
  = Some [tallyLineRecord (mkTallyLine (js "9007199254740993") (js "Y12")
                             (js "A1") None)]
  ∧ written (js "9007199254740993") = Num 9007199254740992.
Proof. split; by vm_compute. Qed.

Lemma head_gap g inp' (q : N → bool) :
  gap g → (∀ c, isSpace c = true → q c = false) →
  from_option q false (head (g ++ inp')) = false.
Proof.
  intros [Hne Hg] Hq. destruct g as [|c g]; [done|].
  apply Forall_cons in Hg as [Hc _]. simpl. auto.
Qed.

Lemma upper_nonspace c : isUpper c = true → isSpace c = false.
Proof. intros H. by destruct (upper_lineUnit c H) as [[? _] _]. Qed.

Lemma digit_nonspace c : isDigit c = true → isSpace c = false.
Proof. intros H. by destruct (digit_lineUnit c H) as [[? _] _]. Qed.

(** At the start of a well-formed line of the required list, the
    pattern of the required list matches the line, all of it, with the
    quantity, the diameter and the mark in the groups. *)
Lemma page1Pattern_line l pv inp' :
  requiredLineOk l →
  from_option isWordChar false pv = false →
  from_option (λ c, isWordChar c || isDash c) false (head inp') = false →
  ∃ pv', matcher page1Pattern
           (mkState pv (requiredLineText l ++ inp') (replicate 4 None)) Some
         = Some (mkState pv' inp'
                   [None; Some (reqQuantity l); Some (reqDiameter l);
                    Some (reqMark l)]).
Proof.
  destruct l as [n g1 dia g2 a g3 b g4 mk]. unfold requiredLineOk, requiredLineText.
  cbn [reqQuantity reqGap1 reqDiameter reqGap2 reqLength reqGap3 reqRepeat
       reqGap4 reqMark].
  intros (Hn & Hg1 & Hdia & Hg2 & Ha & Hg3 & Hb & Hg4 & Hmk) Hpv Hnext.
  assert (from_option isDigit false (head inp') = false
          ∧ from_option isWordChar false (head inp') = false) as (Hnd & Hnw).
  { destruct inp' as [|c inp']; [done|]. simpl in *.
    apply orb_false_elim in Hnext as [Hw Hd].
    by destruct (nonword_units c Hw). }
  destruct (last_markString mk Hmk) as (dm & Hlast & Hdm).
  exists (last mk). unfold page1Pattern. cbn [Seqs].
  repeat (rewrite <- app_assoc || rewrite <- app_comm_cons).
  rewrite matcher_boundary.
  2:{ unfold wordBefore, wordAfter. simpl. rewrite Hpv.
      destruct (head_digit n (g1 ++ dia ++ g2 ++ a ++ g3 ++ b ++ g4 ++ mk ++ inp') Hn)
        as (d & -> & Hd). simpl. by rewrite (digit_wordChar d Hd). }
  rewrite matcher_group.
  apply matcher_digits; [done|by apply head_gap, space_nondigit|].
  cbv beta. rewrite setCapture_app, (matcher_then spaces).
  apply matcher_spaces; [done| |].
  { destruct (head_diameterString dia (g2 ++ a ++ g3 ++ b ++ g4 ++ mk ++ inp') Hdia)
      as (d & -> & Hd). simpl. by apply upper_nonspace. }
  cbv beta. rewrite matcher_group.
  apply matcher_diameterToken; [done|by apply head_gap, space_nondigit|].
  cbv beta. rewrite setCapture_app, (matcher_then spaces).
  apply matcher_spaces; [done| |].
  { destruct (head_digit a (g3 ++ b ++ g4 ++ mk ++ inp') Ha) as (d & -> & Hd).
    simpl. by apply digit_nonspace. }
  cbv beta. rewrite (matcher_then digits).
  apply matcher_digits; [done|by apply head_gap, space_nondigit|].
  cbv beta. rewrite (matcher_then spaces).
  apply matcher_spaces; [done| |].
  { destruct (head_digit b (g4 ++ mk ++ inp') Hb) as (d & -> & Hd).
    simpl. by apply digit_nonspace. }
  cbv beta. rewrite (matcher_then digits).
  apply matcher_digits; [done|by apply head_gap, space_nondigit|].
  cbv beta. rewrite (matcher_then spaces).
  apply matcher_spaces; [done| |].
  { destruct (head_markString mk inp' Hmk) as (d & -> & Hd).
    simpl. by apply upper_nonspace. }
  cbv beta. rewrite matcher_group.
  apply matcher_markToken; [done|done|].
  cbv beta. rewrite setCapture_app.
  rewrite matcher_last_boundary; [done|].
  unfold wordBefore, wordAfter. simpl. rewrite Hlast, Hnw. simpl.
  by rewrite (digit_wordChar dm Hdm).
Qed.

(** The extractor of the required list on a text of well-formed lines. *)
Lemma requiredLines_extracted {L} (line : L → requiredLine) (lead : jsstring)
    (lines : list (L * jsstring)) :
  blank lead → Forall (λ ls, requiredLineOk (line ls.1)) lines →
  separated lines →
  extractPage1Data (lead ++ linesText (requiredLineText ∘ line) lines)
  = Some ((λ ls, requiredLineRecord (line ls.1)) <$> lines).
Proof.
  intros Hlead Hok Hsep. unfold extractPage1Data.
  set (text := lead ++ linesText (requiredLineText ∘ line) lines).
  destruct (execLoop_total pushPage1 page1Pattern) with
    (fuel := S (length text)) (pv := @None N) (inp := text)
    as (data & -> & Hany); [simpl; lia| |lia|].
  { intros pv inp y (m1 & m2 & m3 & ->)%exec_captures; [|done]. by eexists. }
  rewrite <- (Hany (S (length text + length lines))) by lia.
  apply (execLoop_lines _ _ (requiredLineText ∘ line)
           (requiredLineRecord ∘ line) (requiredLineOk ∘ line)); try done;
    [| |by right|lia].
  - apply page1Pattern_startsAtDigit.
  - intros l pv inp' Hl Hpv Hnext.
    destruct (page1Pattern_line (line l) pv inp' Hl Hpv Hnext) as (pv' & Hm).
    eexists. split; [exact Hm|]. split; [done|].
    cbn [captures pushPage1]. unfold compose, requiredLineRecord.
    by rewrite (parseInt_written _ (proj1 Hl)).
Qed.

(** X9. A required list made of well-formed lines (quantity, diameter,
    two more integers and mark, with white space between them) with
    white space before, between and after the lines is read back line
    by line: the extractor returns exactly one record per line, in the
    order of the text, with the diameter and the mark of the line and,
    as quantity, the Number nearest to the integer that the digits of
    the line write, which is that integer when it is 2^53 at most; the
    two integers in the middle are not kept. *)
Theorem required_lines_read_back (lead : jsstring)
    (lines : list (requiredLine * jsstring)) :
  blank lead → Forall (λ ls, requiredLineOk ls.1) lines → separated lines →
  extractPage1Data (lead ++ linesText requiredLineText lines)
  = Some ((λ ls, requiredLineRecord ls.1) <$> lines)
  ∧ Forall (λ ls, decimal (reqQuantity ls.1) ≤ 2 ^ 53 →
                  Page1Item.required (requiredLineRecord ls.1)
                  = Num (decimal (reqQuantity ls.1))) lines.
Proof.
  intros Hlead Hok Hsep.
  split; [exact (requiredLines_extracted id lead lines Hlead Hok Hsep)|].
  eapply Forall_impl; [exact Hok|]. intros ls Hl Hle.
  apply written_exact; [apply Hl|exact Hle].
Qed.

(** Two lines of a required list, the second on a new line of text. *)
Lemma required_lines_read_back_witness :
  let lines :=
    [(mkRequiredLine (js "60") (js " ") (js "Y12") (js " ") (js "3550") (js " ")
                     (js "60") (js " ") (js "CL1"), [10%N]);
     (mkRequiredLine (js "8") (js "  ") (js "R10") (js " ") (js "900") (js " ")
                     (js "8") (js " ") (js "LS1"), [])] in
  Forall (λ ls, requiredLineOk ls.1) lines ∧ separated lines
  ∧ linesText requiredLineText lines
    = js "60 Y12 3550 60 CL1" ++ [10%N] ++ js "8  R10 900 8 LS1"
  ∧ extractPage1Data (js "60 Y12 3550 60 CL1" ++ [10%N] ++ js "8  R10 900 8 LS1")
    = Some [Page1Item.mk 60 (js "Y12") (js "CL1");
            Page1Item.mk 8 (js "R10") (js "LS1")].
Proof.
  intros lines.
  assert (∀ s, s ≠ [] → Forall (λ c, isSpace c = true) s → gap s) as Hgap by done.
  assert (Forall (λ ls, requiredLineOk ls.1) lines) as Hok.
  { apply Forall_cons. split; [|apply Forall_cons; split; [|constructor]].
    - split_and!; simpl;
        [solve_digitRun|by apply Hgap; [|repeat constructor]|
        |by apply Hgap; [|repeat constructor]|solve_digitRun
        |by apply Hgap; [|repeat constructor]|solve_digitRun
        |by apply Hgap; [|repeat constructor]|].
      + exists 89%N, (js "12"). split_and!; [done|done|solve_digitRun].
      + exists (js "CL"), (js "1"). split_and!; [done| |solve_digitRun].
        split; [simpl; lia|by repeat constructor].
    - split_and!; simpl;
        [solve_digitRun|by apply Hgap; [|repeat constructor]|
        |by apply Hgap; [|repeat constructor]|solve_digitRun
        |by apply Hgap; [|repeat constructor]|solve_digitRun
        |by apply Hgap; [|repeat constructor]|].
      + exists 82%N, (js "10"). split_and!; [done|done|solve_digitRun].
      + exists (js "LS"), (js "1"). split_and!; [done| |solve_digitRun].
        split; [simpl; lia|by repeat constructor]. }
  assert (separated lines) as Hsep.
  { split; [split; [done|by repeat constructor]|constructor]. }
  split_and!; [exact Hok|exact Hsep|reflexivity|].
  exact (proj1 (required_lines_read_back [] lines (Forall_nil_2 _) Hok Hsep)).
Defined.

(** ** Uploaded documents *)

Lemma fullText_cons p ps : fullText (p :: ps) = pageText p ++ fullText ps.
Proof.
  unfold fullText. simpl. generalize (pageText p). clear p.
  induction ps as [|p ps IH]; intros acc; simpl; [by rewrite app_nil_r|].
  by rewrite IH, (IH (pageText p)), app_assoc.
Qed.

Lemma separated_cons {L} (l : L) s lines :
  gap s → separated lines → separated ((l, s) :: lines).
Proof. intros Hs Hsep. destruct lines; simpl; [by destruct Hs|done]. Qed.

Lemma gap_space : gap [32%N].
Proof. split; [done|by repeat constructor]. Qed.

Lemma pageLines_separated {L} (items : list L) after lines :
  gap after → separated lines → separated (pageLines items after ++ lines).
Proof.
  intros Hafter Hsep. induction items as [|l [|l' items] IH]; [done| |].
  - by apply separated_cons.
  - change (separated ((l, [32%N]) :: (pageLines (l' :: items) after ++ lines))).
    apply separated_cons; [apply gap_space|done].
Qed.

Lemma pageLines_fst {L} (items : list L) after :
  (pageLines items after).*1 = items.
Proof.
  induction items as [|l [|l' items] IH]; [done|done|].
  change ((l :: (pageLines (l' :: items) after).*1) = l :: l' :: items).
  by rewrite IH.
Qed.

Lemma pageLines_text {L} (text : L → jsstring) items after lines :
  items ≠ [] →
  linesText text (pageLines items after ++ lines)
  = join [32%N] (text <$> items) ++ after ++ linesText text lines.
Proof.
  intros Hne. induction items as [|l [|l' items] IH]; [done| |].
  - unfold linesText. simpl. by rewrite <- app_assoc.
  - change (linesText text ((l, [32%N]) :: (pageLines (l' :: items) after ++ lines))
            = (text l ++ [32%N] ++ join [32%N] (text <$> l' :: items))
              ++ after ++ linesText text lines).
    unfold linesText at 1. rewrite fmap_cons. cbn [concat fst snd].
    fold (linesText text (pageLines (l' :: items) after ++ lines)).
    rewrite IH by done. by rewrite <- !app_assoc.
Qed.

(** The text of a document whose items are lines: white space, then
    the lines of all pages in order, white space after each. *)
Lemma fullText_lines {L} (text : L → jsstring) (pages : list (list L)) :
  ∃ lead lines,
    blank lead ∧ separated lines ∧ lines.*1 = concat pages
    ∧ fullText (fmap (M:=list) text <$> pages) = lead ++ linesText text lines.
Proof.
  induction pages as [|p pages (lead & lines & Hlead & Hsep & Hfst & IH)].
  { exists [], []. by split_and!; [constructor|..]. }
  rewrite fmap_cons, fullText_cons, IH. unfold pageText.
  destruct p as [|l p].
  - exists (newline ++ lead), lines. split_and!; [|done|done|done].
    apply Forall_app. split; [by repeat constructor|done].
  - exists [], (pageLines (l :: p) (newline ++ lead) ++ lines). split_and!.
    + constructor.
    + apply pageLines_separated; [|done]. split; [done|].
      apply Forall_app. split; [by repeat constructor|done].
    + by rewrite fmap_app, pageLines_fst, Hfst.
    + rewrite pageLines_text by done. by rewrite <- !app_assoc.
Qed.

(** X10. A tally document whose text items are well-formed tally
    entries is read back entry by entry: after the upload, both tally
    extractors return one record per item, in the order of the pages
    and of the items in each page, whatever the text was before and
    wherever the page breaks fall, pages without items included.  The
    count of a record is the Number nearest to the integer that the
    digits of the item write. *)
Theorem uploaded_tally_items_read_back (pages : list (list tallyLine))
    (text : jsstring) :
  Forall (Forall tallyLineOk) pages →
  let text2 := handleUpload (Document (fmap (M:=list) tallyLineText <$> pages)) text in
  GlobalHalve.extractPage2Data text2 = Some (tallyLineRecord <$> concat pages)
  ∧ PerMarkDouble.extractPage2Data text2
    = Some (tallyLineRecord <$> concat pages).
Proof.
  intros Hok text2. unfold text2, handleUpload.
  destruct (fullText_lines tallyLineText pages)
    as (lead & lines & Hlead & Hsep & Hfst & ->).
  rewrite <- Hfst, <- list_fmap_compose.
  apply tallyLines_extracted; [done| |done].
  apply (Forall_fmap fst tallyLineOk). rewrite Hfst. by apply Forall_concat.
Qed.

(** Two entries on the first page, none on the second, one on the
    third. *)
Lemma uploaded_tally_items_read_back_witness :
  let pages :=
    [[mkTallyLine (js "15") (js "R10") (js "CL1") (Some (js "600"));
      mkTallyLine (js "2") (js "Y16") (js "LS1") None];
     [];
     [mkTallyLine (js "13") (js "R10") (js "CL1") None]] in
  Forall (Forall tallyLineOk) pages
  ∧ handleUpload (Document (fmap (M:=list) tallyLineText <$> pages)) (js "old")
    = js "15R10-CL1-600 2Y16-LS1" ++ newline ++ newline ++ js "13R10-CL1" ++ newline
  ∧ PerMarkDouble.extractPage2Data
      (js "15R10-CL1-600 2Y16-LS1" ++ newline ++ newline ++ js "13R10-CL1" ++ newline)
    = Some [Page2Item.mk 15 (js "R10") (js "CL1");
            Page2Item.mk 2 (js "Y16") (js "LS1");
            Page2Item.mk 13 (js "R10") (js "CL1")].
Proof.
  intros pages.
  assert (∀ c dia mk sfx d ds ls ms,
            digitRun c → dia = d :: ds → isUpper d = true → digitRun ds →
            mk = ls ++ ms → letterRun ls → digitRun ms →
            from_option digitRun True sfx →
            tallyLineOk (mkTallyLine c dia mk sfx)) as Hline.
  { intros c dia mk sfx d ds ls ms Hc -> Hd Hds -> Hls Hms Hsfx.
    split_and!; [done|by exists d, ds|by exists ls, ms|done]. }
  assert (Forall (Forall tallyLineOk) pages) as Hok.
  { repeat (apply Forall_cons; split); try apply Forall_nil_2.
    - apply (Hline _ _ _ _ 82%N (js "10") (js "CL") (js "1"));
        try done; try solve_digitRun. split; [simpl; lia|by repeat constructor].
    - apply (Hline _ _ _ _ 89%N (js "16") (js "LS") (js "1"));
        try done; try solve_digitRun. split; [simpl; lia|by repeat constructor].
    - apply (Hline _ _ _ _ 82%N (js "10") (js "CL") (js "1"));
        try done; try solve_digitRun. split; [simpl; lia|by repeat constructor]. }
  split_and!; [exact Hok|reflexivity|].
  exact (proj2 (uploaded_tally_items_read_back pages (js "old") Hok)).
Defined.

Lemma fullText_ext {A} (f g : A → list jsstring) (pages : list A) :
  (∀ p, pageText (f p) = pageText (g p)) →
  fullText (f <$> pages) = fullText (g <$> pages).
Proof.
  intros Hfg. induction pages as [|p pages IH]; [done|].
  by rewrite !fmap_cons, !fullText_cons, IH, Hfg.
Qed.

Lemma rowLine_ok r : requiredRowOk r → requiredLineOk (rowLine r).
Proof.
  intros (Hq & Hd & Hl & Hr & Hm). unfold requiredLineOk. simpl.
  split_and!; try done; apply gap_space.
Qed.

Lemma pageText_cells (rows : list requiredRow) :
  pageText (concat (rowCells <$> rows))
  = pageText ((requiredLineText ∘ rowLine) <$> rows).
Proof.
  unfold pageText. f_equal.
  induction rows as [|[q d a b m] rows IH]; [done|].
  rewrite !fmap_cons. cbn [concat]. unfold rowCells at 1.
  cbn [rowQuantity rowDiameter rowLength rowRepeat rowMark app].
  change (q ++ [32%N] ++ d ++ [32%N] ++ a ++ [32%N] ++ b ++ [32%N]
            ++ join [32%N] (m :: concat (rowCells <$> rows))
          = join [32%N] (requiredLineText (rowLine (mkRequiredRow q d a b m))
                         :: ((requiredLineText ∘ rowLine) <$> rows))).
  destruct rows as [|r rows].
  - by unfold requiredLineText.
  - change (join [32%N] (m :: concat (rowCells <$> r :: rows)))
      with (m ++ [32%N] ++ join [32%N] (concat (rowCells <$> r :: rows))).
    rewrite IH.
    change (join [32%N] (requiredLineText (rowLine (mkRequiredRow q d a b m))
                         :: ((requiredLineText ∘ rowLine) <$> r :: rows)))
      with (requiredLineText (rowLine (mkRequiredRow q d a b m)) ++ [32%N]
            ++ join [32%N] ((requiredLineText ∘ rowLine) <$> r :: rows)).
    generalize (join [32%N] ((requiredLineText ∘ rowLine) <$> r :: rows)).
    intros t. unfold requiredLineText. simpl.
    by repeat (rewrite <- app_assoc || rewrite <- app_comm_cons).
Qed.

(** X11. A required document whose text items are the cells of the
    rows of a table (quantity, diameter, length, repeat, mark, each an
    item of its own, row after row) is read back row by row: after the
    upload the extractor returns one record per row, in the order of
    the pages and of the rows in each page, with the diameter and the
    mark of the row and, as quantity, the Number nearest to the
    integer that the digits of the first cell write. *)
Theorem uploaded_required_cells_read_back (pages : list (list requiredRow))
    (text : jsstring) :
  Forall (Forall requiredRowOk) pages →
  extractPage1Data
    (handleUpload (Document ((λ rows, concat (rowCells <$> rows)) <$> pages)) text)
  = Some (rowRecord <$> concat pages).
Proof.
  intros Hok. unfold handleUpload.
  rewrite (fullText_ext _ (fmap (M:=list) (requiredLineText ∘ rowLine)))
    by apply pageText_cells.
  destruct (fullText_lines (requiredLineText ∘ rowLine) pages)
    as (lead & lines & Hlead & Hsep & Hfst & ->).
  rewrite <- Hfst, <- list_fmap_compose.
  apply (requiredLines_extracted rowLine); [done| |done].
  apply (Forall_fmap fst (requiredLineOk ∘ rowLine)). rewrite Hfst.
  apply Forall_concat. eapply Forall_impl; [exact Hok|].
  intros rows Hrows. eapply Forall_impl; [exact Hrows|]. apply rowLine_ok.
Qed.

(** A table of two rows on one page, and a page with no text. *)
Lemma uploaded_required_cells_read_back_witness :
  let pages := [[mkRequiredRow (js "60") (js "Y12") (js "3550") (js "60") (js "CL1");
                 mkRequiredRow (js "8") (js "R10") (js "900") (js "8") (js "LS1")];
                []] in
  Forall (Forall requiredRowOk) pages
  ∧ handleUpload (Document ((λ rows, concat (rowCells <$> rows)) <$> pages)) []
    = js "60 Y12 3550 60 CL1 8 R10 900 8 LS1" ++ newline ++ newline
  ∧ extractPage1Data (js "60 Y12 3550 60 CL1 8 R10 900 8 LS1" ++ newline ++ newline)
    = Some [Page1Item.mk 60 (js "Y12") (js "CL1");
            Page1Item.mk 8 (js "R10") (js "LS1")].
Proof.
  intros pages.
  assert (Forall (Forall requiredRowOk) pages) as Hok.
  { repeat (apply Forall_cons; split); try apply Forall_nil_2.
    - split_and!; simpl; [solve_digitRun| |solve_digitRun|solve_digitRun|].
      + exists 89%N, (js "12"). split_and!; [done|done|solve_digitRun].
      + exists (js "CL"), (js "1"). split_and!; [done| |solve_digitRun].
        split; [simpl; lia|by repeat constructor].
    - split_and!; simpl; [solve_digitRun| |solve_digitRun|solve_digitRun|].
      + exists 82%N, (js "10"). split_and!; [done|done|solve_digitRun].
      + exists (js "LS"), (js "1"). split_and!; [done| |solve_digitRun].
        split; [simpl; lia|by repeat constructor]. }
  split_and!; [exact Hok|reflexivity|].
  exact (uploaded_required_cells_read_back pages [] Hok).
Defined.

(** ** Rows of one mark *)

Section Stable.
Context {A : Type} (compareFn : A → A → Z).
Context (P : A → Prop) `{!∀ a, Decision (P a)}.
Hypothesis P_tied : ∀ a b, P a → P b → compareFn a b ≤ 0.

Lemma insertSorted_filter a l :
  filter P (insertSorted compareFn a l) = filter P (a :: l).
Proof.
  induction l as [|b l IH]; [done|]. simpl.
  destruct (decide (compareFn a b ≤ 0)) as [|Hab]; [done|].
  rewrite (filter_cons _ b), IH, !filter_cons.
  destruct (decide (P b)) as [Hb|Hb]; [|done].
  destruct (decide (P a)) as [Ha|Ha]; [|done].
  destruct Hab. by apply P_tied.
Qed.

(** The sort keeps the elements that are tied with each other in the
    order they had. *)
Lemma sort_filter l : filter P (sort compareFn l) = filter P l.
Proof.
  induction l as [|a l IH]; [done|]. simpl.
  by rewrite insertSorted_filter, !filter_cons, IH.
Qed.
End Stable.

(** X12. Rows of one mark keep the order of the required list: in both
    revisions, the rows of the table with a given mark are the rows of
    the required records with that mark, in the order in which the
    required list has them; sorting by mark does not swap them. *)
Theorem rows_of_one_mark_keep_required_order
    (localeCompare : jsstring → jsstring → Z)
    (page1Data : list Page1Item.t) (page2Data : list Page2Item.t)
    (inSectionRows : gmap jsstring bool) (sectionAndLayout : bool)
    (m : jsstring) :
  consistent localeCompare →
  filter (λ r, GlobalHalve.mark r = m)
    (GlobalHalve.tableData localeCompare page1Data page2Data sectionAndLayout)
  = GlobalHalve.tableRow (page2Grouped page2Data) sectionAndLayout
      <$> filter (λ item, Page1Item.mark item = m) page1Data
  ∧ filter (λ r, PerMarkDouble.mark r = m)
      (PerMarkDouble.tableData localeCompare page1Data page2Data inSectionRows
         sectionAndLayout)
    = PerMarkDouble.tableRow (page2Grouped page2Data) inSectionRows
        sectionAndLayout
        <$> filter (λ item, Page1Item.mark item = m) page1Data.
Proof.
  intros [Htotal _].
  assert (localeCompare m m ≤ 0) as Hm by (by destruct (Htotal m m)).
  unfold GlobalHalve.tableData, PerMarkDouble.tableData. split.
  - rewrite sort_filter by (by intros a b -> ->).
    by rewrite filter_fmap_commute.
  - rewrite sort_filter by (by intros a b -> ->).
    by rewrite filter_fmap_commute.
Qed.

(** Two required records of the mark CL1 around one of the mark A1:
    the two rows of CL1 come out after A1, the row of 60 first. *)
Lemma rows_of_one_mark_keep_required_order_witness :
  let page1Data := [Page1Item.mk 60 (js "Y12") (js "CL1");
                    Page1Item.mk 5 (js "Y12") (js "A1");
                    Page1Item.mk 40 (js "Y12") (js "CL1")] in
  consistent ordinalCompare
  ∧ GlobalHalve.required
      <$> GlobalHalve.tableData ordinalCompare page1Data [] false
    = Num <$> [5; 60; 40]
  ∧ GlobalHalve.required
      <$> filter (λ r, GlobalHalve.mark r = js "CL1")
            (GlobalHalve.tableData ordinalCompare page1Data [] false)
    = Num <$> [60; 40].
Proof.
  intros page1Data. split; [apply ordinalCompare_consistent|].
  split; [reflexivity|].
  by rewrite (proj1 (rows_of_one_mark_keep_required_order ordinalCompare
                       page1Data [] ∅ false (js "CL1")
                       ordinalCompare_consistent)).
Defined.

(** ** The two revisions side by side *)

Section SortTogether.
Context {A B : Type} (R : A → B → Prop).
Context (compareA : A → A → Z) (compareB : B → B → Z).
Hypothesis R_compare :
  ∀ a a' b b', R a b → R a' b' → compareA a a' = compareB b b'.

Lemma insertSorted_Forall2 a b l k :
  R a b → Forall2 R l k →
  Forall2 R (insertSorted compareA a l) (insertSorted compareB b k).
Proof.
  intros Hab Hlk. induction Hlk as [|a' b' l k Hab' Hlk IH]; simpl.
  - by repeat constructor.
  - rewrite (R_compare a a' b b') by done. case_decide; by repeat constructor.
Qed.

Lemma sort_Forall2 l k :
  Forall2 R l k → Forall2 R (sort compareA l) (sort compareB k).
Proof.
  induction 1 as [|a b l k Hab Hlk IH]; simpl; [constructor|].
  by apply insertSorted_Forall2.
Qed.
End SortTogether.

Lemma filter_fmap_sublist {A B} (markA : A → jsstring) (markB : B → jsstring)
    (P : A → Prop) (Q : B → Prop) `{!∀ a, Decision (P a)}
    `{!∀ b, Decision (Q b)} l k :
  Forall2 (λ a b, markA a = markB b ∧ (P a → Q b)) l k →
  markA <$> filter P l `sublist_of` markB <$> filter Q k.
Proof.
  induction 1 as [|a b l k [Hmark HPQ] Hlk IH]; [done|].
  rewrite !filter_cons.
  destruct (decide (P a)) as [Ha|Ha], (decide (Q b)) as [Hb|Hb].
  - rewrite !fmap_cons, Hmark. by apply sublist_skip.
  - destruct Hb. by apply HPQ.
  - rewrite fmap_cons. by apply sublist_cons.
  - done.
Qed.

Lemma filter_fmap_Forall2 {A B} (markA : A → jsstring) (markB : B → jsstring)
    (P : A → Prop) (Q : B → Prop) `{!∀ a, Decision (P a)}
    `{!∀ b, Decision (Q b)} l k :
  Forall2 (λ a b, markA a = markB b ∧ (P a ↔ Q b)) l k →
  markA <$> filter P l = markB <$> filter Q k.
Proof.
  induction 1 as [|a b l k [Hmark HPQ] Hlk IH]; [done|].
  rewrite !filter_cons.
  destruct (decide (P a)) as [Ha|Ha], (decide (Q b)) as [Hb|Hb].
  - by rewrite !fmap_cons, Hmark, IH.
  - destruct Hb. by apply HPQ.
  - destruct Ha. by apply HPQ.
  - done.
Qed.

(** The rows that the two revisions make of one required record, in
    the range where the arithmetic of both is exact. *)
Lemma tableRow_sideBySide page2Data inSectionRows sectionAndLayout item :
  exactCounts page2Data →
  (∃ q, Page1Item.required item = Num q ∧ 0 ≤ q ≤ 2 ^ 52) →
  (∀ m v, inSectionRows !! m = Some v → v = sectionAndLayout) →
  sideBySide sectionAndLayout
    (GlobalHalve.tableRow (page2Grouped page2Data) sectionAndLayout item)
    (PerMarkDouble.tableRow (page2Grouped page2Data) inSectionRows
       sectionAndLayout item).
Proof.
  intros Hexact (q & Hq & Hqb) Hstored.
  assert (PerMarkDouble.sectionView inSectionRows sectionAndLayout
            (Page1Item.mark item) = sectionAndLayout) as Hview.
  { unfold PerMarkDouble.sectionView.
    destruct (inSectionRows !! Page1Item.mark item) as [v|] eqn:Hv; [|done].
    by apply (Hstored _ _ Hv). }
  assert (∃ t, match page2Grouped page2Data !! Page1Item.mark item with
               | Some e => Page2Group.total e
               | None => Num 0
               end = Num t ∧ 0 ≤ t ≤ 2 ^ 53) as (t & Ht & Htb).
  { destruct (page2Grouped page2Data !! Page1Item.mark item) as [g|] eqn:E.
    - by apply (page2Grouped_totals_exact _ _ _ Hexact E).
    - exists 0. split; [done|lia]. }
  unfold sideBySide, GlobalHalve.tableRow, PerMarkDouble.tableRow.
  cbn [GlobalHalve.mark GlobalHalve.required GlobalHalve.requiredDiameter
       GlobalHalve.extractedDiameter GlobalHalve.diameterMatch GlobalHalve.tally
       GlobalHalve.diff PerMarkDouble.mark PerMarkDouble.required
       PerMarkDouble.requiredDiameter PerMarkDouble.extractedDiameter
       PerMarkDouble.diameterMatch PerMarkDouble.tally PerMarkDouble.diff
       PerMarkDouble.inSection].
  rewrite Hview, Ht, Hq. split_and!; try done.
  destruct sectionAndLayout; [|done]. split; [done|].
  pose proof (Z.div_mod (t + 1) 2). pose proof (Z.mod_pos_bound (t + 1) 2).
  rewrite Math_round_half, numMul_exact by lia.
  rewrite !numSub_exact by lia. rewrite Math_round_half. f_equal.
  replace (t - q * 2 + 1) with ((t + 1) + - q * 2) by lia.
  rewrite Z.div_add by lia. lia.
Qed.

Lemma sideBySide_diff sectionAndLayout gr pr :
  sideBySide sectionAndLayout gr pr →
  PerMarkDouble.diff pr = 0 → GlobalHalve.diff gr = 0.
Proof.
  intros (_ & _ & _ & _ & _ & _ & H) Hpr. destruct sectionAndLayout.
  - destruct H as [_ ->]. by rewrite Hpr, Math_round_half.
  - destruct H as [_ ->]. done.
Qed.

(** X13. The two revisions side by side, in the range where the
    arithmetic of both is exact (counts that are integers, not
    negative and add up to 2^53 at most; required quantities that are
    integers from 0 to 2^52): from the same records, with every stored
    section view equal to the global flag, the halving revision and
    the doubling revision make the same rows in the same order, up to
    the quantities under the section view: there the tally and the
    difference of the halving revision are those of the doubling
    revision halved and rounded (a tie going up).  So every mark that
    the halving revision reports is reported by the doubling revision,
    in the same order, and without the flag the two reports are the
    same. *)
Theorem halving_and_doubling_side_by_side
    (localeCompare : jsstring → jsstring → Z)
    (page1Data : list Page1Item.t) (page2Data : list Page2Item.t)
    (inSectionRows ignoredRows : gmap jsstring bool)
    (sectionAndLayout : bool) :
  exactCounts page2Data → exactRequired page1Data →
  (∀ m v, inSectionRows !! m = Some v → v = sectionAndLayout) →
  let halved :=
    GlobalHalve.tableData localeCompare page1Data page2Data sectionAndLayout in
  let doubled :=
    PerMarkDouble.tableData localeCompare page1Data page2Data inSectionRows
      sectionAndLayout in
  Forall2 (sideBySide sectionAndLayout) halved doubled
  ∧ mismatchedMarks GlobalHalve.mark GlobalHalve.diff GlobalHalve.diameterMatch
      halved ignoredRows
    `sublist_of`
    mismatchedMarks PerMarkDouble.mark PerMarkDouble.diff
      PerMarkDouble.diameterMatch doubled ignoredRows
  ∧ (sectionAndLayout = false →
     mismatchedMarks GlobalHalve.mark GlobalHalve.diff GlobalHalve.diameterMatch
       halved ignoredRows
     = mismatchedMarks PerMarkDouble.mark PerMarkDouble.diff
         PerMarkDouble.diameterMatch doubled ignoredRows).
Proof.
  intros Hexact Hrequired Hstored halved doubled.
  assert (Forall2 (sideBySide sectionAndLayout) halved doubled) as Hrows.
  { unfold halved, doubled, GlobalHalve.tableData, PerMarkDouble.tableData.
    apply sort_Forall2.
    - intros a a' b b' (Ha & _) (Ha' & _). by rewrite Ha, Ha'.
    - apply Forall2_fmap, Forall_Forall2_diag.
      eapply Forall_impl; [exact Hrequired|].
      intros item Hitem. by apply tableRow_sideBySide. }
  split; [done|]. unfold mismatchedMarks. split.
  - apply filter_fmap_sublist. eapply Forall2_impl; [exact Hrows|].
    intros gr pr Hside. split; [by destruct Hside|].
    pose proof (sideBySide_diff _ _ _ Hside) as Hdiff.
    destruct Hside as (Hmark & _ & _ & _ & Hmatch & _).
    assert (strictEqual (PerMarkDouble.diff pr) 0 = true →
            strictEqual (GlobalHalve.diff gr) 0 = true) as Hzero.
    { rewrite !strictEqual_zero. apply Hdiff. }
    unfold isMismatch. rewrite Hmark, Hmatch.
    destruct (strictEqual (GlobalHalve.diff gr) 0),
      (strictEqual (PerMarkDouble.diff pr) 0);
      try (by specialize (Hzero eq_refl));
      by destruct (PerMarkDouble.diameterMatch pr),
           (truthy (ignoredRows !! PerMarkDouble.mark pr)).
  - intros ->. apply filter_fmap_Forall2. eapply Forall2_impl; [exact Hrows|].
    intros gr pr (Hmark & _ & _ & _ & Hmatch & _ & _ & Hdiff).
    split; [done|]. unfold isMismatch. by rewrite Hmark, Hmatch, Hdiff.
Qed.

(** Eight bars required, fifteen tallied, under the section view that
    a first comparison has stored for the mark: the halving revision
    rounds 7.5 up to 8 and reports nothing, the doubling revision
    compares 15 with 16 and reports the mark. *)
Lemma halving_and_doubling_side_by_side_witness :
  let page1Data := [Page1Item.mk 8 (js "Y12") (js "A1")] in
  let page2Data := [Page2Item.mk 15 (js "Y12") (js "A1")] in
  let inSectionRows : gmap jsstring bool := {[ js "A1" := true ]} in
  exactCounts page2Data ∧ exactRequired page1Data
  ∧ (∀ m v, inSectionRows !! m = Some v → v = true)
  ∧ GlobalHalve.diff <$> GlobalHalve.tableData ordinalCompare page1Data page2Data true
    = [Num 0]
  ∧ PerMarkDouble.diff
      <$> PerMarkDouble.tableData ordinalCompare page1Data page2Data
            inSectionRows true
    = [Num (-1)]
  ∧ mismatchedMarks GlobalHalve.mark GlobalHalve.diff GlobalHalve.diameterMatch
      (GlobalHalve.tableData ordinalCompare page1Data page2Data true) ∅ = []
  ∧ mismatchedMarks PerMarkDouble.mark PerMarkDouble.diff
      PerMarkDouble.diameterMatch
      (PerMarkDouble.tableData ordinalCompare page1Data page2Data
         inSectionRows true) ∅ = [js "A1"]
  ∧ Forall2 (sideBySide true)
      (GlobalHalve.tableData ordinalCompare page1Data page2Data true)
      (PerMarkDouble.tableData ordinalCompare page1Data page2Data
         inSectionRows true).
Proof.
  intros page1Data page2Data inSectionRows.
  assert (exactCounts page2Data) as Hexact.
  { split; [|by vm_compute].
    repeat (apply Forall_cons; split; [eexists; split; [done|lia]|]).
    constructor. }
  assert (exactRequired page1Data) as Hrequired.
  { repeat (apply Forall_cons; split; [eexists; split; [done|lia]|]).
    constructor. }
  assert (∀ m v, inSectionRows !! m = Some v → v = true) as Hstored.
  { intros m v [_ <-]%lookup_singleton_Some. done. }
  split_and!; [exact Hexact|exact Hrequired|exact Hstored
              |by vm_compute|by vm_compute|by vm_compute|by vm_compute|].
  exact (proj1 (halving_and_doubling_side_by_side ordinalCompare
                  page1Data page2Data inSectionRows ∅ true Hexact Hrequired
                  Hstored)).
Defined.
